(** * nfproxy: the reconciler between Kubernetes services and nftables

    A shallow embedding of [pkg/proxy] (service and endpoint handlers, the
    EndpointSlice handlers, the object cache and the chain-name helpers),
    followed by the properties of the specification that concern them. *)

From Stdlib Require Import ZArith List String Ascii Bool Lia DecimalString.
From stdpp Require Import base gmap strings list fin_maps.

Open Scope Z_scope.
Open Scope string_scope.
Open Scope list_scope.

(** ** Chain-name helpers ([pkg/proxy/tools.go]) *)

Module Hash.

(** Bytes are integers in [0, 256); 32-bit words are integers in [0, 2^32)
    with the wrap-around written out. *)
Definition byte_of_ascii (c : ascii) : Z := Z.of_N (N_of_ascii c).

Definition bytes_of_string (s : string) : list Z :=
  map byte_of_ascii (list_ascii_of_string s).

Definition mask32 : Z := 4294967295.
Definition wrap32 (x : Z) : Z := Z.land x mask32.
Definition add32 (x y : Z) : Z := wrap32 (x + y).
Definition rotr (n x : Z) : Z :=
  wrap32 (Z.lor (Z.shiftr x n) (Z.shiftl x (32 - n))).
Definition not32 (x : Z) : Z := Z.lxor x mask32.

Definition Ch (x y z : Z) : Z := Z.lxor (Z.land x y) (Z.land (not32 x) z).
Definition Maj (x y z : Z) : Z :=
  Z.lxor (Z.lxor (Z.land x y) (Z.land x z)) (Z.land y z).
Definition bigSigma0 (x : Z) : Z := Z.lxor (Z.lxor (rotr 2 x) (rotr 13 x)) (rotr 22 x).
Definition bigSigma1 (x : Z) : Z := Z.lxor (Z.lxor (rotr 6 x) (rotr 11 x)) (rotr 25 x).
Definition smallSigma0 (x : Z) : Z := Z.lxor (Z.lxor (rotr 7 x) (rotr 18 x)) (Z.shiftr x 3).
Definition smallSigma1 (x : Z) : Z := Z.lxor (Z.lxor (rotr 17 x) (rotr 19 x)) (Z.shiftr x 10).

(** The round constants are the first 32 bits of the fractional parts
    of the cube roots of the first 64 primes; the initial chaining value
    is taken the same way from the square roots of the first 8. *)
Definition primes64 : list Z :=
  [ 2; 3; 5; 7; 11; 13; 17; 19; 23; 29; 31; 37; 41; 43; 47; 53; 59; 61; 67; 71; 73; 79;
    83; 89; 97; 101; 103; 107; 109; 113; 127; 131; 137; 139; 149; 151; 157; 163; 167;
    173; 179; 181; 191; 193; 197; 199; 211; 223; 227; 229; 233; 239; 241; 251; 257; 263;
    269; 271; 277; 281; 283; 293; 307; 311 ].

(** The integer cube root, bit by bit from bit 39 down. *)
Definition icbrt (n : Z) : Z :=
  fold_left (fun x b => let y := x + Z.shiftl 1 (Z.of_nat b) in
                        if Z.leb (y * y * y) n then y else x)
            (rev (seq 0 40)) 0.

Definition K256 : list Z :=
  map (fun q => wrap32 (icbrt (Z.shiftl q 96))) primes64.

(** The eight working variables a..h, also the chaining value. *)
Record digest := Digest {
  hA : Z; hB : Z; hC : Z; hD : Z; hE : Z; hF : Z; hG : Z; hH : Z
}.

Definition init256 : digest :=
  match map (fun q => wrap32 (Z.sqrt (Z.shiftl q 64))) (firstn 8 primes64) with
  | [a; b; c; d; e; f; g; h] => Digest a b c d e f g h
  | _ => Digest 0 0 0 0 0 0 0 0
  end.

Definition be_bytes (n : nat) (x : Z) : list Z :=
  map (fun i => Z.land (Z.shiftr x (8 * Z.of_nat i)) 255) (rev (seq 0 n)).

(** Message padding: 0x80, zeros up to 56 mod 64, the bit length on 8 bytes. *)
Definition pad (msg : list Z) : list Z :=
  let len := Z.of_nat (List.length msg) in
  let zeros := Z.to_nat ((55 - len) mod 64) in
  msg ++ 128 :: repeat 0 zeros ++ be_bytes 8 (8 * len).

Fixpoint words_of_bytes (bs : list Z) : list Z :=
  match bs with
  | b0 :: b1 :: b2 :: b3 :: rest =>
      (b0 * 16777216 + b1 * 65536 + b2 * 256 + b3) :: words_of_bytes rest
  | _ => []
  end.

Fixpoint extend (n : nat) (w : list Z) : list Z :=
  match n with
  | O => w
  | S n' =>
      let t := List.length w in
      let at_ (k : nat) := nth (t - k) w 0 in
      extend n' (w ++ [add32 (add32 (smallSigma1 (at_ 2%nat)) (at_ 7%nat))
                             (add32 (smallSigma0 (at_ 15%nat)) (at_ 16%nat))])
  end.

Definition round (d : digest) (kw : Z * Z) : digest :=
  let t1 := add32 (add32 (add32 (hH d) (bigSigma1 (hE d)))
                         (add32 (Ch (hE d) (hF d) (hG d)) (fst kw))) (snd kw) in
  let t2 := add32 (bigSigma0 (hA d)) (Maj (hA d) (hB d) (hC d)) in
  Digest (add32 t1 t2) (hA d) (hB d) (hC d) (add32 (hD d) t1) (hE d) (hF d) (hG d).

Definition compress (d : digest) (block : list Z) : digest :=
  let w := extend 48 block in
  let r := fold_left round (combine K256 w) d in
  Digest (add32 (hA d) (hA r)) (add32 (hB d) (hB r)) (add32 (hC d) (hC r))
         (add32 (hD d) (hD r)) (add32 (hE d) (hE r)) (add32 (hF d) (hF r))
         (add32 (hG d) (hG r)) (add32 (hH d) (hH r)).

Fixpoint blocks (fuel : nat) (ws : list Z) (d : digest) : digest :=
  match fuel, ws with
  | S fuel', _ :: _ => blocks fuel' (skipn 16 ws) (compress d (firstn 16 ws))
  | _, _ => d
  end.

Definition digest_bytes (d : digest) : list Z :=
  be_bytes 4 (hA d) ++ be_bytes 4 (hB d) ++ be_bytes 4 (hC d) ++ be_bytes 4 (hD d) ++
  be_bytes 4 (hE d) ++ be_bytes 4 (hF d) ++ be_bytes 4 (hG d) ++ be_bytes 4 (hH d).

(** [sha256.Sum256]: the 32-byte checksum of the data. *)
Definition Sum256 (data : list Z) : list Z :=
  let ws := words_of_bytes (pad data) in
  digest_bytes (blocks (List.length ws) ws init256).

(** [base32.StdEncoding]: the RFC 4648 alphabet, padded with '='. *)
Definition encodeStd : string := "ABCDEFGHIJKLMNOPQRSTUVWXYZ234567".

Definition b32char (v : Z) : ascii :=
  match String.get (Z.to_nat (Z.land v 31)) encodeStd with
  | Some c => c
  | None => "="%char
  end.

Definition quantum (b0 b1 b2 b3 b4 : Z) : list ascii :=
  [ b32char (Z.shiftr b0 3);
    b32char (Z.lor (Z.shiftl b0 2) (Z.shiftr b1 6));
    b32char (Z.shiftr b1 1);
    b32char (Z.lor (Z.shiftl b1 4) (Z.shiftr b2 4));
    b32char (Z.lor (Z.shiftl b2 1) (Z.shiftr b3 7));
    b32char (Z.shiftr b3 2);
    b32char (Z.lor (Z.shiftl b3 3) (Z.shiftr b4 5));
    b32char b4 ].

Definition padChar : ascii := "="%char.

Fixpoint encode (src : list Z) : list ascii :=
  match src with
  | [] => []
  | b0 :: b1 :: b2 :: b3 :: b4 :: rest => quantum b0 b1 b2 b3 b4 ++ encode rest
  | [b0; b1; b2; b3] => firstn 7 (quantum b0 b1 b2 b3 0) ++ [padChar]
  | [b0; b1; b2] => firstn 5 (quantum b0 b1 b2 0 0) ++ repeat padChar 3
  | [b0; b1] => firstn 4 (quantum b0 b1 0 0 0) ++ repeat padChar 4
  | [b0] => firstn 2 (quantum b0 0 0 0 0) ++ repeat padChar 6
  end.

Definition EncodeToString (src : list Z) : string :=
  string_of_list_ascii (encode src).

End Hash.

(** [encoded[:16]].  Go faults when the string is shorter than 16; the
    encoding of a 32-byte checksum always has 56 characters
    ([prefix16_checksum] below), so the slice is always in range. *)
Definition prefix16 (encoded : string) : string := substring 0 16 encoded.

Definition portProtoHash (servicePortName protocol : string) : string :=
  let hash := Hash.Sum256 (Hash.bytes_of_string (servicePortName +:+ protocol)) in
  let encoded := Hash.EncodeToString hash in
  "k8s-nfproxy-svc-" +:+ prefix16 encoded.

Definition servicePortEndpointChainName (servicePortName protocol endpoint : string) : string :=
  let hash := Hash.Sum256 (Hash.bytes_of_string (servicePortName +:+ protocol +:+ endpoint)) in
  let encoded := Hash.EncodeToString hash in
  "k8s-nfproxy-sep-" +:+ prefix16 encoded.


(** ** Kubernetes API objects (the fields the proxy reads) *)

Inductive TableFamily := TableFamilyIPv4 | TableFamilyIPv6.
Inductive IPFamily := IPv4Protocol | IPv6Protocol.

#[global] Instance TableFamily_eq_dec : EqDecision TableFamily.
Proof. solve_decision. Defined.
#[global] Instance IPFamily_eq_dec : EqDecision IPFamily.
Proof. solve_decision. Defined.
#[global] Instance TableFamily_countable : Countable TableFamily.
Proof.
  refine (inj_countable' (fun tf => match tf with TableFamilyIPv4 => false | TableFamilyIPv6 => true end)
                         (fun b : bool => if b then TableFamilyIPv6 else TableFamilyIPv4) _).
  intros []; reflexivity.
Defined.

(** [types.NamespacedName] *)
Record NamespacedName := mkNamespacedName { Namespace : string; Name : string }.

#[global] Instance NamespacedName_eq_dec : EqDecision NamespacedName.
Proof. solve_decision. Defined.
#[global] Instance NamespacedName_countable : Countable NamespacedName.
Proof.
  refine (inj_countable' (fun n => (Namespace n, Name n))
                         (fun t => mkNamespacedName (fst t) (snd t)) _).
  intros []; reflexivity.
Defined.

(** [v1.ServicePort] and [v1.Service] *)
Record ServicePortSpec := mkServicePort {
  sp_Name : string;
  sp_Protocol : string;
  sp_Port : Z;
  sp_NodePort : Z
}.

Inductive ServiceType :=
  ServiceTypeClusterIP | ServiceTypeNodePort | ServiceTypeLoadBalancer | ServiceTypeExternalName.

Record Service := mkService {
  svc_Namespace : string;
  svc_Name : string;
  svc_Type : ServiceType;
  svc_ClusterIP : string;
  svc_Ports : list ServicePortSpec;
  svc_ExternalIPs : list string;
  svc_LoadBalancerIngress : list string
}.

(** [v1.EndpointAddress], [v1.EndpointPort], [v1.EndpointSubset], [v1.Endpoints] *)
Record EndpointAddress := mkEndpointAddress {
  addr_IP : string;
  addr_Hostname : string;
  addr_NodeName : option string;
  addr_TargetRef : option string
}.

Record EndpointPort := mkEndpointPort {
  port_Name : string;
  port_Port : Z;
  port_Protocol : string
}.

Record EndpointSubset := mkEndpointSubset {
  Addresses : list EndpointAddress;
  NotReadyAddresses : list EndpointAddress;
  Ports : list EndpointPort
}.

Record Endpoints := mkEndpoints {
  ep_Namespace : string;
  ep_Name : string;
  Subsets : list EndpointSubset
}.

#[global] Instance EndpointAddress_eq_dec : EqDecision EndpointAddress.
Proof. solve_decision. Defined.
#[global] Instance EndpointPort_eq_dec : EqDecision EndpointPort.
Proof. solve_decision. Defined.
#[global] Instance EndpointSubset_eq_dec : EqDecision EndpointSubset.
Proof. solve_decision. Defined.

(** [discovery.EndpointSlice]; pointer fields are options. *)
Record SliceEndpoint := mkSliceEndpoint {
  se_Addresses : list string;
  se_Ready : option bool;
  se_Hostname : option string;
  se_TargetRef : option string
}.

Record SlicePort := mkSlicePort {
  slp_Name : option string;
  slp_Protocol : option string;
  slp_Port : option Z
}.

Record EndpointSlice := mkEndpointSlice {
  epsl_Namespace : string;
  epsl_Name : string;
  epsl_ResourceVersion : string;
  epsl_Labels : gmap string string;
  epsl_AddressType : string;
  epsl_Endpoints : list SliceEndpoint;
  epsl_Ports : list SlicePort
}.

Definition LabelServiceName : string := "kubernetes.io/service-name".

(** ** Proxy data model *)

(** Modelled from the spec: the key type of [types.go] is not among the
    sources; section 3.1 gives SvcPortKey = (namespace, serviceName,
    portName, protocol). *)
Record ServicePortName := mkServicePortName {
  spn_NamespacedName : NamespacedName;
  spn_Port : string;
  spn_Protocol : string
}.

#[global] Instance ServicePortName_eq_dec : EqDecision ServicePortName.
Proof. solve_decision. Defined.
#[global] Instance ServicePortName_countable : Countable ServicePortName.
Proof.
  refine (inj_countable' (fun k => (spn_NamespacedName k, spn_Port k, spn_Protocol k))
                         (fun t => mkServicePortName (fst (fst t)) (snd (fst t)) (snd t)) _).
  intros []; reflexivity.
Defined.

(** Modelled from the spec: [ServicePortName.String] is not among the
    sources; the key is printed as namespace/name followed by ":port"
    when the port has a name. *)
Definition spn_String (k : ServicePortName) : string :=
  Namespace (spn_NamespacedName k) +:+ "/" +:+ Name (spn_NamespacedName k) +:+
  (if decide (spn_Port k = "") then "" else ":" +:+ spn_Port k).

Definition getSvcPortName (name namespace portName protocol : string) : ServicePortName :=
  {| spn_NamespacedName := {| Namespace := namespace; Name := name |};
     spn_Port := portName;
     spn_Protocol := protocol |}.

(** ** Address literals ([net.ParseIP] and [k8s.io/utils/net])

    The Go library's parser of IP literals, written out as in the library
    of the toolchain the module file names (go 1.13): a string is a
    sequence of bytes, an address ([net.IP]) a sequence of 4 or 16 bytes,
    and the nil address is [None]. *)
Module net.

Definition IPv4len : nat := 4.
Definition IPv6len : nat := 16.

(** Bigger than we need, not too big to worry about overflow *)
Definition big : Z := 0xFFFFFF.

Definition byte (c : ascii) : Z := Z.of_N (N_of_ascii c).

Definition isDigit (c : ascii) : bool := (48 <=? byte c)%Z && (byte c <=? 57)%Z.
Definition isLowerHex (c : ascii) : bool := (97 <=? byte c)%Z && (byte c <=? 102)%Z.
Definition isUpperHex (c : ascii) : bool := (65 <=? byte c)%Z && (byte c <=? 70)%Z.

(** The loop of [dtoi] at index [i], with [n] read so far. *)
Fixpoint dtoi_from (s : list ascii) (n : Z) (i : nat) : Z * nat * bool :=
  match s with
  | c :: rest =>
      if isDigit c then
        let n' := n * 10 + (byte c - 48) in
        if (big <=? n')%Z then (big, i, false) else dtoi_from rest n' (S i)
      else if (i =? 0)%nat then (0, 0%nat, false) else (n, i, true)
  | [] => if (i =? 0)%nat then (0, 0%nat, false) else (n, i, true)
  end.

(** Decimal to integer.  Returns number, characters consumed, success. *)
Definition dtoi (s : list ascii) : Z * nat * bool := dtoi_from s 0 0.

(** The loop of [xtoi] at index [i], with [n] read so far. *)
Fixpoint xtoi_from (s : list ascii) (n : Z) (i : nat) : Z * nat * bool :=
  match s with
  | c :: rest =>
      let digit :=
        if isDigit c then Some (byte c - 48)
        else if isLowerHex c then Some (byte c - 97 + 10)
        else if isUpperHex c then Some (byte c - 65 + 10)
        else None in
      match digit with
      | Some d =>
          let n' := n * 16 + d in
          if (big <=? n')%Z then (0, i, false) else xtoi_from rest n' (S i)
      | None => if (i =? 0)%nat then (0, i, false) else (n, i, true)
      end
  | [] => if (i =? 0)%nat then (0, i, false) else (n, i, true)
  end.

(** Hexadecimal to integer.  Returns number, characters consumed, success. *)
Definition xtoi (s : list ascii) : Z * nat * bool := xtoi_from s 0 0.

Definition v4InV6Prefix : list Z := [0; 0; 0; 0; 0; 0; 0; 0; 0; 0; 0xff; 0xff].

(** [IPv4(a, b, c, d)]: the 16-byte form of the address [p]. *)
Definition IPv4 (p : list Z) : list Z := v4InV6Prefix ++ p.

(** The loop of [parseIPv4] at octet [i], with [k] octets to go. *)
Fixpoint parseIPv4_from (k i : nat) (s : list ascii) (p : list Z) : option (list Z) :=
  match k with
  | O => match s with [] => Some (IPv4 p) | _ => None end
  | S k' =>
      match s with
      | [] => None (* Missing octets. *)
      | c :: rest =>
          let dotted :=
            if (0 <? i)%nat then
              if bool_decide (c = "."%char) then Some rest else None
            else Some s in
          match dotted with
          | None => None
          | Some s1 =>
              let '(n, c1, ok) := dtoi s1 in
              if negb ok || (0xFF <? n)%Z then None
              else parseIPv4_from k' (S i) (drop c1 s1) (p ++ [n])
          end
      end
  end.

(** Parse IPv4 address (d.d.d.d). *)
Definition parseIPv4 (s : list ascii) : option (list Z) := parseIPv4_from IPv4len 0 s [].

(** The loop of [parseIPv6]: [ip] holds the bytes written so far (the
    index of the source is its length), and at most [fuel] chunks are
    still read, each of two bytes at least.  The result is the state the
    loop is left in, or [None] where the source returns nil. *)
Fixpoint parseIPv6_loop (fuel : nat) (ip : list Z) (ellipsis : option nat) (s : list ascii)
    : option (list Z * option nat * list ascii) :=
  if (IPv6len <=? List.length ip)%nat then Some (ip, ellipsis, s)
  else
    match fuel with
    | O => None
    | S fuel' =>
        (* Hex number. *)
        let '(n, c, ok) := xtoi s in
        if negb ok || (0xFFFF <? n)%Z then None
        else if bool_decide (s !! c = Some "."%char) then
          (* If followed by dot, might be in trailing IPv4. *)
          if bool_decide (ellipsis = None) &&
             negb (List.length ip =? IPv6len - IPv4len)%nat then None (* Not the right place. *)
          else if (IPv6len <? List.length ip + IPv4len)%nat then None (* Not enough room. *)
          else
            match parseIPv4 s with
            | None => None
            | Some ip4 => Some (ip ++ drop 12 ip4, ellipsis, [])
            end
        else
          (* Save this 16-bit chunk. *)
          let ip' := ip ++ [Z.shiftr n 8; Z.land n 0xff] in
          (* Stop at end of string. *)
          match drop c s with
          | [] => Some (ip', ellipsis, [])
          | c0 :: s1 =>
              (* Otherwise must be followed by colon and more. *)
              if negb (bool_decide (c0 = ":"%char)) || bool_decide (s1 = []) then None
              else
                match s1 with
                | c1 :: s2 =>
                    (* Look for ellipsis. *)
                    if bool_decide (c1 = ":"%char) then
                      match ellipsis with
                      | Some _ => None (* already have one *)
                      | None =>
                          match s2 with
                          | [] => Some (ip', Some (List.length ip'), []) (* can be at end *)
                          | _ => parseIPv6_loop fuel' ip' (Some (List.length ip')) s2
                          end
                      end
                    else parseIPv6_loop fuel' ip' ellipsis s1
                | [] => None
                end
          end
    end.

(** parseIPv6 parses s as a literal IPv6 address described in RFC 4291 and
    RFC 5952. *)
Definition parseIPv6 (s : list ascii) : option (list Z) :=
  let zeros := replicate IPv6len 0 in
  (* Might have leading ellipsis *)
  let start :=
    match s with
    | c0 :: c1 :: rest =>
        if bool_decide (c0 = ":"%char) && bool_decide (c1 = ":"%char)
        then (Some 0%nat, rest) else (None, s)
    | _ => (None, s)
    end in
  match start with
  | (Some _, []) => Some zeros (* Might be only ellipsis *)
  | (ellipsis, s0) =>
      (* Loop, parsing hex numbers followed by colon. *)
      match parseIPv6_loop 8 [] ellipsis s0 with
      | None => None
      | Some (ip, ellipsis', rest) =>
          (* Must have used entire string. *)
          if negb (bool_decide (rest = [])) then None
          else if (List.length ip <? IPv6len)%nat then
            (* If didn't parse enough, expand ellipsis. *)
            match ellipsis' with
            | None => None
            | Some e =>
                Some (take e ip ++ replicate (IPv6len - List.length ip) 0 ++ drop e ip)
            end
          else
            match ellipsis' with
            | Some _ => None (* Ellipsis must represent at least one 0 group. *)
            | None => Some ip
            end
      end
  end.

(** The scan of [ParseIP] for the first dot or colon of [s], with [rest]
    what is left to scan. *)
Fixpoint ParseIP_scan (rest s : list ascii) : option (list Z) :=
  match rest with
  | [] => None
  | c :: rest' =>
      if bool_decide (c = "."%char) then parseIPv4 s
      else if bool_decide (c = ":"%char) then parseIPv6 s
      else ParseIP_scan rest' s
  end.

(** ParseIP parses s as an IP address, returning the result.  If s is not
    a valid textual representation of an IP address, ParseIP returns nil. *)
Definition ParseIP (s : string) : option (list Z) :=
  ParseIP_scan (list_ascii_of_string s) (list_ascii_of_string s).

(** To4 converts the IPv4 address ip to a 4-byte representation.  If ip is
    not an IPv4 address, To4 returns nil. *)
Definition To4 (ip : list Z) : option (list Z) :=
  if (List.length ip =? IPv4len)%nat then Some ip
  else if (List.length ip =? IPv6len)%nat &&
          forallb (fun b => (b =? 0)%Z) (take 10 ip) &&
          bool_decide (ip !! 10%nat = Some 0xff) && bool_decide (ip !! 11%nat = Some 0xff)
  then Some (drop 12 ip)
  else None.

(** [strings.IndexByte(s, c) >= 0] *)
Definition hasByte (c : ascii) (s : string) : bool :=
  existsb (fun c' => bool_decide (c' = c)) (list_ascii_of_string s).

End net.

(** [utilnet.IsIPv6]: IsIPv6 returns if netIP is IPv6. *)
Definition IsIPv6 (netIP : option (list Z)) : bool :=
  match netIP with
  | Some ip => match net.To4 ip with None => true | Some _ => false end
  | None => false
  end.

(** [utilnet.IsIPv6String]: IsIPv6String returns if ip is IPv6. *)
Definition IsIPv6String (ip : string) : bool := IsIPv6 (net.ParseIP ip).

Definition getIPFamily (ipaddr : string) : IPFamily * TableFamily :=
  if IsIPv6String ipaddr then (IPv6Protocol, TableFamilyIPv6)
  else (IPv4Protocol, TableFamilyIPv4).

(** Rule handles are the kernel's 64-bit identifiers. *)
Definition handle := Z.

(** [nftables.Rule]: a chain name and the handles installed in it. *)
Record Rule := mkRule { Chain : string; RuleID : list handle }.

(** [nftables.SVCChain]: the chains a service port owns in one family. *)
Record SVCChain := mkSVCChain {
  ServiceID : string;
  svc_Chain : gmap string Rule
}.

(** [nftables.SVCnft] *)
Record SVCnft := mkSVCnft {
  Chains : gmap TableFamily SVCChain;
  WithEndpoints : bool
}.

(** Modelled from the spec: [BaseServiceInfo] and [serviceInfo] of
    [types.go] are not among the sources; the fields are those of section
    3.2 (ServicePortInfo). *)
Record BaseServiceInfo := mkBaseServiceInfo {
  clusterIP : option string;
  port : Z;
  protocol : string;
  nodePort : Z;
  externalIPs : list string;
  loadBalancerIPs : list string;
  svcnft : SVCnft
}.

Record serviceInfo := mkServiceInfo {
  base : BaseServiceInfo;
  serviceNameString : string
}.

(** [net.IP.String] of the cluster IP; a nil address prints as "<nil>". *)
Definition ClusterIP_String (b : BaseServiceInfo) : string :=
  match clusterIP b with Some ip => ip | None => "<nil>" end.

Definition string_of_Z (z : Z) : string :=
  NilZero.string_of_int (Z.to_int z).

(** [net.JoinHostPort]: the host is taken for a literal IPv6 address if
    it has colons. *)
Definition JoinHostPort (host port : string) : string :=
  if net.hasByte ":"%char host then "[" +:+ host +:+ "]:" +:+ port else host +:+ ":" +:+ port.

Definition BaseServiceInfo_String (b : BaseServiceInfo) : string :=
  ClusterIP_String b +:+ ":" +:+ string_of_Z (port b) +:+ "/" +:+ protocol b.

(** [nftables.EPnft]: per family, the endpoint chain and its handles. *)
Definition EPnft := gmap TableFamily Rule.

(** Modelled from the spec: [BaseEndpointInfo] and [endpointsInfo] of
    [types.go] are not among the sources; the fields are those of section
    3.2 (EndpointInfo), [Endpoint] being the "ip:port" string that enters
    the endpoint chain name. *)
Record endpointsInfo := mkEndpointsInfo {
  ei_ipFamily : IPFamily;
  ei_protocol : string;
  ei_IP : string;
  ei_port : Z;
  ei_IsLocal : bool;
  Endpoint : string;
  epnft : EPnft
}.

Definition newBaseEndpointInfo (ipFamily : IPFamily) (proto ip : string) (prt : Z)
    (isLocal : bool) : endpointsInfo :=
  {| ei_ipFamily := ipFamily; ei_protocol := proto; ei_IP := ip; ei_port := prt;
     ei_IsLocal := isLocal; Endpoint := JoinHostPort ip (string_of_Z prt);
     epnft := ∅ |}.

(** Modelled from the spec: [Equal] is value equality on (family, protocol,
    ip, port, isLocal) (section 4.5.4). *)
Definition Equal (a b : endpointsInfo) : bool :=
  bool_decide (ei_ipFamily a = ei_ipFamily b) &&
  bool_decide (ei_protocol a = ei_protocol b) &&
  bool_decide (ei_IP a = ei_IP b) &&
  bool_decide (ei_port a = ei_port b) &&
  bool_decide (ei_IsLocal a = ei_IsLocal b).


(** ** The nftables driver ([pkg/nftables]) *)

(** Modelled from the spec: the package [pkg/nftables] is not among the
    sources.  The primitives are those of sections 4.4 and 6.2 under the
    names the proxy calls them by; the kernel side keeps the chains, the
    rules with their handles and jump targets, and the no-endpoints set.
    Every call is recorded in [issued]; a call fails with a driver error,
    leaving the kernel untouched, when the head of [faults] says so. *)
Module nftables.

Definition K8sNATServices : string := "k8s-nat-services".
Definition K8sNATNodeports : string := "k8s-nat-nodeports".
Definition K8sSvcPrefix : string := "k8s-nfproxy-svc-".
Definition K8sFwPrefix : string := "k8s-nfproxy-fw-".
Definition K8sXlbPrefix : string := "k8s-nfproxy-xlb-".

Inductive Op :=
| OpAddServiceChains (tf : TableFamily) (svcID : string)
| OpProgramServiceClusterIP (tf : TableFamily) (cn ip proto : string) (prt : Z)
| OpProgramServiceNodePort (tf : TableFamily) (cn proto : string) (np : Z)
| OpProgramServiceExternalIP (tf : TableFamily) (cn : string) (ips : list string)
    (proto : string) (prt : Z) (pos : Z)
| OpProgramServiceLoadBalancerFW (tf : TableFamily) (svcID : string)
| OpProgramServiceLoadBalancerIP (tf : TableFamily) (svcID : string) (ips : list string)
    (proto : string) (prt : Z) (pos : Z)
| OpProgramServiceEndpoints (tf : TableFamily) (cn : string) (epsChains : list string)
    (previous : list handle)
| OpAddEndpointRules (tf : TableFamily) (cn ip proto : string) (prt : Z)
| OpDeleteServiceRules (tf : TableFamily) (chain : string) (ids : list handle)
| OpDeleteEndpointRules (tf : TableFamily) (cn : string) (ids : list handle)
| OpDeleteChain (tf : TableFamily) (cn : string)
| OpDeleteServiceChains (tf : TableFamily) (svcID : string)
| OpAddToNoEndpointsList (tf : TableFamily) (proto ip : string) (prt : Z)
| OpRemoveFromNoEndpointsList (tf : TableFamily) (proto ip : string) (prt : Z).

(** An installed rule: where it lives, its handle, and the chain it jumps
    to, if it is a jump. *)
Record KRule := mkKRule {
  kr_family : TableFamily;
  kr_chain : string;
  kr_handle : handle;
  kr_jump : option string
}.

#[global] Instance KRule_eq_dec : EqDecision KRule.
Proof. solve_decision. Defined.

Record NFTInterface := mkNFT {
  chains : gset (TableFamily * string);
  ruleset : list KRule;
  noEndpoints : gset (TableFamily * string * string * Z);
  nextHandle : handle;
  faults : list bool;
  issued : list Op
}.

Inductive Err :=
| DriverError (op : Op)
| NotFound (kind : string) (key : NamespacedName)
| InvalidPort (name : string).

(** Record the call and consult the fault schedule. *)
Definition attempt (op : Op) (n : NFTInterface) : bool * NFTInterface :=
  let n' := {| chains := chains n; ruleset := ruleset n; noEndpoints := noEndpoints n;
               nextHandle := nextHandle n; faults := tail (faults n);
               issued := issued n ++ [op] |} in
  match faults n with
  | true :: _ => (false, n')
  | _ => (true, n')
  end.

Definition with_kernel (n : NFTInterface) (cs : gset (TableFamily * string))
    (rs : list KRule) (ne : gset (TableFamily * string * string * Z)) (nh : handle)
    : NFTInterface :=
  {| chains := cs; ruleset := rs; noEndpoints := ne; nextHandle := nh;
     faults := faults n; issued := issued n |}.

(** [k] fresh consecutive handles. *)
Definition fresh (k : nat) (n : NFTInterface) : list handle :=
  map (fun i => nextHandle n + Z.of_nat i) (seq 0 k).

Definition jumps (tf : TableFamily) (chain : string) (ids : list handle)
    (targets : list (option string)) : list KRule :=
  map (fun ht => mkKRule tf chain (fst ht) (snd ht)) (combine ids targets).

Fixpoint insert_after (pos : handle) (new rs : list KRule) : list KRule :=
  match rs with
  | [] => new
  | r :: rs' =>
      if bool_decide (kr_handle r = pos) then r :: new ++ rs'
      else r :: insert_after pos new rs'
  end.

Definition drop_rules (tf : TableFamily) (chain : string) (ids : list handle)
    (rs : list KRule) : list KRule :=
  filter (fun r => ¬ (kr_family r = tf ∧ kr_chain r = chain ∧ kr_handle r ∈ ids)) rs.

(** The shape shared by the primitives that install rules: on acceptance
    the new rules enter the rule set and their handles are returned. *)
Definition install (op : Op) (k : nat)
    (place : list handle -> NFTInterface -> list KRule)
    (touch : gset (TableFamily * string) -> gset (TableFamily * string))
    (n : NFTInterface) : (Err + list handle) * NFTInterface :=
  let '(ok, n1) := attempt op n in
  if ok then
    let ids := fresh k n1 in
    (inr ids, with_kernel n1 (touch (chains n1)) (place ids n1) (noEndpoints n1)
                          (nextHandle n1 + Z.of_nat k))
  else (inl (DriverError op), n1).

(** The shape shared by the primitives that only succeed or fail. *)
Definition perform (op : Op) (effect : NFTInterface -> NFTInterface)
    (n : NFTInterface) : option Err * NFTInterface :=
  let '(ok, n1) := attempt op n in
  if ok then (None, effect n1) else (Some (DriverError op), n1).

Definition AddServiceChains (tf : TableFamily) (svcID : string) :=
  perform (OpAddServiceChains tf svcID)
    (fun n => with_kernel n
       ({[ (tf, K8sSvcPrefix +:+ svcID); (tf, K8sFwPrefix +:+ svcID);
           (tf, K8sXlbPrefix +:+ svcID) ]} ∪ chains n)
       (ruleset n) (noEndpoints n) (nextHandle n)).

Definition DeleteServiceChains (tf : TableFamily) (svcID : string) :=
  perform (OpDeleteServiceChains tf svcID)
    (fun n => with_kernel n
       (chains n ∖ {[ (tf, K8sSvcPrefix +:+ svcID); (tf, K8sFwPrefix +:+ svcID);
                      (tf, K8sXlbPrefix +:+ svcID) ]})
       (ruleset n) (noEndpoints n) (nextHandle n)).

Definition ProgramServiceClusterIP (tf : TableFamily) (cn ip proto : string) (prt : Z) :=
  install (OpProgramServiceClusterIP tf cn ip proto prt) 1
    (fun ids n => ruleset n ++ jumps tf K8sNATServices ids [Some cn]) id.

Definition ProgramServiceNodePort (tf : TableFamily) (cn proto : string) (np : Z) :=
  install (OpProgramServiceNodePort tf cn proto np) 1
    (fun ids n => ruleset n ++ jumps tf K8sNATNodeports ids [Some cn]) id.

Definition ProgramServiceExternalIP (tf : TableFamily) (cn : string) (ips : list string)
    (proto : string) (prt : Z) (pos : Z) :=
  install (OpProgramServiceExternalIP tf cn ips proto prt pos) (List.length ips)
    (fun ids n =>
       insert_after pos (jumps tf K8sNATServices ids (map (fun _ => Some cn) ips)) (ruleset n))
    id.

Definition ProgramServiceLoadBalancerFW (tf : TableFamily) (svcID : string) :=
  install (OpProgramServiceLoadBalancerFW tf svcID) 1
    (fun ids n => ruleset n ++ jumps tf (K8sFwPrefix +:+ svcID) ids [Some (K8sSvcPrefix +:+ svcID)])
    id.

Definition ProgramServiceLoadBalancerIP (tf : TableFamily) (svcID : string)
    (ips : list string) (proto : string) (prt : Z) (pos : Z) :=
  install (OpProgramServiceLoadBalancerIP tf svcID ips proto prt pos) (List.length ips)
    (fun ids n =>
       insert_after pos
         (jumps tf K8sNATServices ids (map (fun _ => Some (K8sFwPrefix +:+ svcID)) ips))
         (ruleset n))
    id.

(** Replace the dispatch rules of the service chain: the previous ones go,
    one jump per endpoint chain comes. *)
Definition ProgramServiceEndpoints (tf : TableFamily) (cn : string)
    (epsChains : list string) (previous : list handle) :=
  install (OpProgramServiceEndpoints tf cn epsChains previous) (List.length epsChains)
    (fun ids n => drop_rules tf cn previous (ruleset n) ++ jumps tf cn ids (map Some epsChains))
    id.

(** Create the endpoint chain if absent; install the mark and the DNAT rule. *)
Definition AddEndpointRules (tf : TableFamily) (cn ip proto : string) (prt : Z) :=
  install (OpAddEndpointRules tf cn ip proto prt) 2
    (fun ids n => ruleset n ++ jumps tf cn ids [None; None])
    (fun cs => {[ (tf, cn) ]} ∪ cs).

Definition DeleteServiceRules (tf : TableFamily) (chain : string) (ids : list handle) :=
  perform (OpDeleteServiceRules tf chain ids)
    (fun n => with_kernel n (chains n) (drop_rules tf chain ids (ruleset n))
                          (noEndpoints n) (nextHandle n)).

Definition DeleteEndpointRules (tf : TableFamily) (cn : string) (ids : list handle) :=
  perform (OpDeleteEndpointRules tf cn ids)
    (fun n => with_kernel n (chains n) (drop_rules tf cn ids (ruleset n))
                          (noEndpoints n) (nextHandle n)).

Definition DeleteChain (tf : TableFamily) (cn : string) :=
  perform (OpDeleteChain tf cn)
    (fun n => with_kernel n (chains n ∖ {[ (tf, cn) ]}) (ruleset n)
                          (noEndpoints n) (nextHandle n)).

Definition AddToNoEndpointsList (tf : TableFamily) (proto ip : string) (prt : Z) :=
  perform (OpAddToNoEndpointsList tf proto ip prt)
    (fun n => with_kernel n (chains n) (ruleset n)
                          ({[ (tf, proto, ip, prt) ]} ∪ noEndpoints n) (nextHandle n)).

Definition RemoveFromNoEndpointsList (tf : TableFamily) (proto ip : string) (prt : Z) :=
  perform (OpRemoveFromNoEndpointsList tf proto ip prt)
    (fun n => with_kernel n (chains n) (ruleset n)
                          (noEndpoints n ∖ {[ (tf, proto, ip, prt) ]}) (nextHandle n)).

(** The chain table a service port starts with: the two global chains it
    places rules in and its own three chains, no handle recorded yet. *)
Definition GetSvcChain (tf : TableFamily) (svcID : string) : gmap TableFamily SVCChain :=
  let names := [ K8sNATServices; K8sNATNodeports; K8sSvcPrefix +:+ svcID;
                 K8sFwPrefix +:+ svcID; K8sXlbPrefix +:+ svcID ] in
  {[ tf := {| ServiceID := svcID;
              svc_Chain := list_to_map (map (fun c => (c, mkRule c [])) names) |} ]}.

(** A kernel with nothing installed and the given fault schedule. *)
Definition pristine (schedule : list bool) : NFTInterface :=
  {| chains := ∅; ruleset := []; noEndpoints := ∅; nextHandle := 1;
     faults := schedule; issued := [] |}.

End nftables.

Import nftables.

(** ** The proxy and its handlers ([pkg/proxy/proxy.go]) *)

Inductive Severity := Info | Warning | Error.

(** A [klog] line: severity, format string of the source, arguments.  The
    lines under [klog.V(n)], which depend on the verbosity, are not kept. *)
Record LogEntry := Log { severity : Severity; format : string; args : list string }.

(** The object cache; only the EndpointSlice map is read by the handlers
    embedded here. *)
Record cache := mkCache {
  epslCache : gmap NamespacedName EndpointSlice
}.

(** The proxy.  The mutex is not represented: handlers run one at a time.
    [klog] stands for the process log. *)
Record proxy := mkProxy {
  hostname : string;
  nfti : NFTInterface;
  serviceMap : gmap ServicePortName serviceInfo;
  endpointsMap : gmap ServicePortName (list endpointsInfo);
  pcache : cache;
  klog : list LogEntry
}.

Definition NewProxy (nfti : NFTInterface) (hostname : string) : proxy :=
  {| hostname := hostname; nfti := nfti; serviceMap := ∅; endpointsMap := ∅;
     pcache := mkCache ∅; klog := [] |}.

(** *** Handlers as state transformers that may fault

    A handler either returns with a new proxy state or faults (a nil
    dereference or an index out of range in the source). *)
Inductive outcome (A : Type) :=
| Ret (a : A) (p : proxy)
| Fault.
Arguments Ret {A} a p.
Arguments Fault {A}.

Definition M (A : Type) : Type := proxy -> outcome A.

Definition ret {A} (a : A) : M A := fun p => Ret a p.
Definition bind {A B} (m : M A) (k : A -> M B) : M B :=
  fun p => match m p with Ret a p' => k a p' | Fault => Fault end.
Definition fault {A} : M A := fun _ => Fault.

Declare Scope go_scope.
Delimit Scope go_scope with go.
Notation "'let*' x ':=' m 'in' k" := (bind m (fun x => k))
  (at level 10, x name, m at level 100, k at level 200) : go_scope.
Notation "'let*' ' pat ':=' m 'in' k" := (bind m (fun x => match x with pat => k end))
  (at level 10, pat pattern, m at level 100, k at level 200) : go_scope.
Notation "y ;; z" := (bind y (fun _ => z))
  (at level 100, z at level 200, right associativity) : go_scope.
Open Scope go_scope.

Definition gets {A} (f : proxy -> A) : M A := fun p => Ret (f p) p.

Definition set_nfti (n : NFTInterface) (p : proxy) : proxy :=
  {| hostname := hostname p; nfti := n; serviceMap := serviceMap p;
     endpointsMap := endpointsMap p; pcache := pcache p; klog := klog p |}.
Definition set_serviceMap (m : gmap ServicePortName serviceInfo) (p : proxy) : proxy :=
  {| hostname := hostname p; nfti := nfti p; serviceMap := m;
     endpointsMap := endpointsMap p; pcache := pcache p; klog := klog p |}.
Definition set_endpointsMap (m : gmap ServicePortName (list endpointsInfo)) (p : proxy) : proxy :=
  {| hostname := hostname p; nfti := nfti p; serviceMap := serviceMap p;
     endpointsMap := m; pcache := pcache p; klog := klog p |}.
Definition set_cache (c : cache) (p : proxy) : proxy :=
  {| hostname := hostname p; nfti := nfti p; serviceMap := serviceMap p;
     endpointsMap := endpointsMap p; pcache := c; klog := klog p |}.
Definition set_klog (l : list LogEntry) (p : proxy) : proxy :=
  {| hostname := hostname p; nfti := nfti p; serviceMap := serviceMap p;
     endpointsMap := endpointsMap p; pcache := pcache p; klog := l |}.

Definition modify (f : proxy -> proxy) : M unit := fun p => Ret tt (f p).

(** A driver call on the proxy's [nfti]. *)
Definition driver {A} (call : NFTInterface -> A * NFTInterface) : M A :=
  fun p => let '(a, n) := call (nfti p) in Ret a (set_nfti n p).

Definition logf (sev : Severity) (fmt : string) (a : list string) : M unit :=
  modify (fun p => set_klog (klog p ++ [Log sev fmt a]) p).

(** Dereference of a pointer: nil faults. *)
Definition deref {A} (ptr : option A) : M A :=
  match ptr with Some a => ret a | None => fault end.

Definition Err_String (e : Err) : string :=
  match e with
  | DriverError _ => "driver error"
  | NotFound kind k => kind +:+ " " +:+ Namespace k +:+ "/" +:+ Name k +:+ " not found in the cache"
  | InvalidPort name => "found invalid endpoint slice port " +:+ name
  end.

(** *** The object cache ([cache.go]) *)

Definition getCachedEpSlVersion (name namespace : string) : M (Err + string) :=
  let* c := gets pcache in
  match epslCache c !! mkNamespacedName namespace name with
  | None => ret (inl (NotFound "endpoint slice" (mkNamespacedName namespace name)))
  | Some epsl => ret (inr (epsl_ResourceVersion epsl))
  end.

Definition getLastKnownEpSlFromCache (name namespace : string) : M (Err + EndpointSlice) :=
  let* c := gets pcache in
  match epslCache c !! mkNamespacedName namespace name with
  | None => ret (inl (NotFound "endpoint slice" (mkNamespacedName namespace name)))
  | Some epsl => ret (inr epsl)
  end.

(** The stored object is a deep copy: a value of its own. *)
Definition storeEpSlInCache (epsl : EndpointSlice) : M unit :=
  modify (fun p =>
    set_cache (mkCache (<[ mkNamespacedName (epsl_Namespace epsl) (epsl_Name epsl) := epsl ]>
                          (epslCache (pcache p)))) p).

Definition removeEpSlFromCache (name namespace : string) : M unit :=
  let* c := gets pcache in
  match epslCache c !! mkNamespacedName namespace name with
  | Some _ =>
      modify (fun p => set_cache (mkCache (delete (mkNamespacedName namespace name)
                                                  (epslCache (pcache p)))) p)
  | None => logf Warning "endpoint slice %s/%s not found in the cache" [namespace; name]
  end.

(** *** The no-endpoints list *)

Definition uint16 (z : Z) : Z := z mod 65536.

Fixpoint eachNoEndpoints (call : string -> NFTInterface -> option Err * NFTInterface)
    (ips : list string) : M (option Err) :=
  match ips with
  | [] => ret None
  | ip :: rest =>
      let* e := driver (call ip) in
      match e with
      | Some err => ret (Some err)
      | None => eachNoEndpoints call rest
      end
  end.

(** addToNoEndpointsList adds to No Endpoints List all IPs/port pairs of a
    specific servicePort *)
Definition addToNoEndpointsList (servicePort : BaseServiceInfo) (tableFamily : TableFamily)
    : M (option Err) :=
  let proto := protocol servicePort in
  let prt := uint16 (port servicePort) in
  let* e := driver (AddToNoEndpointsList tableFamily proto (ClusterIP_String servicePort) prt) in
  match e with
  | Some err => ret (Some err)
  | None =>
      let* e := eachNoEndpoints (fun ip => AddToNoEndpointsList tableFamily proto ip prt)
                                (externalIPs servicePort) in
      match e with
      | Some err => ret (Some err)
      | None => eachNoEndpoints (fun ip => AddToNoEndpointsList tableFamily proto ip prt)
                                (loadBalancerIPs servicePort)
      end
  end.

(** removeFromNoEndpointsList removes to No Endpoints List all IPs/port
    pairs of a specific servicePort *)
Definition removeFromNoEndpointsList (servicePort : BaseServiceInfo) (tableFamily : TableFamily)
    : M (option Err) :=
  let proto := protocol servicePort in
  let prt := uint16 (port servicePort) in
  let* e := driver (RemoveFromNoEndpointsList tableFamily proto (ClusterIP_String servicePort) prt) in
  match e with
  | Some err => ret (Some err)
  | None =>
      let* e := eachNoEndpoints (fun ip => RemoveFromNoEndpointsList tableFamily proto ip prt)
                                (externalIPs servicePort) in
      match e with
      | Some err => ret (Some err)
      | None => eachNoEndpoints (fun ip => RemoveFromNoEndpointsList tableFamily proto ip prt)
                                (loadBalancerIPs servicePort)
      end
  end.

(** *** Service ports *)

(** Modelled from the spec: [servicePortSvcID] is not among the sources;
    section 3.1 gives ServiceID as the first 16 base32 characters of
    SHA-256 over the key's string followed by the protocol. *)
Definition servicePortSvcID (servicePortName protocol service : string) : string :=
  prefix16 (Hash.EncodeToString
              (Hash.Sum256 (Hash.bytes_of_string (servicePortName +:+ protocol)))).

(** [utilproxy.ShouldSkipService]: no cluster IP (headless) or ExternalName. *)
Definition ShouldSkipService (svcName : NamespacedName) (svc : Service) : bool :=
  bool_decide (svc_ClusterIP svc = "None") || bool_decide (svc_ClusterIP svc = "") ||
  match svc_Type svc with ServiceTypeExternalName => true | _ => false end.

(** Modelled from the spec: [newBaseServiceInfo] and [newServiceInfo] of
    [types.go] are not among the sources; the fields of section 3.2 are
    filled from the port and the service. *)
Definition newBaseServiceInfo (servicePort : ServicePortSpec) (svc : Service) : BaseServiceInfo :=
  {| clusterIP := if bool_decide (svc_ClusterIP svc = "") then None else Some (svc_ClusterIP svc);
     port := sp_Port servicePort;
     protocol := sp_Protocol servicePort;
     nodePort := sp_NodePort servicePort;
     externalIPs := svc_ExternalIPs svc;
     loadBalancerIPs := filter (fun ip => ip ≠ "") (svc_LoadBalancerIngress svc);
     svcnft := {| Chains := ∅; WithEndpoints := false |} |}.

Definition newServiceInfo (servicePort : ServicePortSpec) (svc : Service)
    (baseSvcInfo : BaseServiceInfo) : serviceInfo :=
  {| base := baseSvcInfo;
     serviceNameString :=
       spn_String (getSvcPortName (svc_Name svc) (svc_Namespace svc)
                                  (sp_Name servicePort) (sp_Protocol servicePort)) |}.

Definition with_svcnft (b : BaseServiceInfo) (n : SVCnft) : BaseServiceInfo :=
  {| clusterIP := clusterIP b; port := port b; protocol := protocol b;
     nodePort := nodePort b; externalIPs := externalIPs b;
     loadBalancerIPs := loadBalancerIPs b; svcnft := n |}.

Definition setWithEndpoints (v : bool) (entry : serviceInfo) : serviceInfo :=
  {| base := with_svcnft (base entry)
               {| Chains := Chains (svcnft (base entry)); WithEndpoints := v |};
     serviceNameString := serviceNameString entry |}.

(** [b.svcnft.Chains[tf].Chain[name].RuleID = upd(...)]; [None] when one of
    the two map entries is missing (a nil dereference in the source). *)
Definition setRuleID (tf : TableFamily) (name : string) (upd : list handle -> list handle)
    (b : BaseServiceInfo) : option BaseServiceInfo :=
  match Chains (svcnft b) !! tf with
  | None => None
  | Some sc =>
      match svc_Chain sc !! name with
      | None => None
      | Some r =>
          Some (with_svcnft b
                  {| Chains := <[ tf := {| ServiceID := ServiceID sc;
                                           svc_Chain := <[ name := mkRule (Chain r) (upd (RuleID r)) ]>
                                                          (svc_Chain sc) |} ]>
                                 (Chains (svcnft b));
                     WithEndpoints := WithEndpoints (svcnft b) |})
      end
  end.

(** [id[len(id)-1]]: out of range on an empty slice. *)
Definition last_handle (id : list handle) : option handle := last id.

(** The tail of [addService]: the no-endpoints list and the service map. *)
Definition addService_finish (svcPortName : ServicePortName) (servicePort : ServicePortSpec)
    (svc : Service) (tableFamily : TableFamily) (baseSvcInfo : BaseServiceInfo) : M unit :=
  let insert :=
    modify (fun p => set_serviceMap
                       (<[ svcPortName := newServiceInfo servicePort svc baseSvcInfo ]>
                          (serviceMap p)) p) in
  let* em := gets endpointsMap in
  if bool_decide (List.length (default [] (em !! svcPortName)) = 0%nat) then
    let* e := addToNoEndpointsList baseSvcInfo tableFamily in
    match e with
    | Some err =>
        logf Error "failed to add %s to No Endpoints Set with error: %+v"
             [spn_String svcPortName; Err_String err]
    | None => insert
    end
  else insert.

(** Load-balancer IPs: the firewall chain, then the rules after the last
    position. *)
Definition addService_loadBalancer (svcPortName : ServicePortName) (tableFamily : TableFamily)
    (svcID : string) (lastSvcRulePosition : Z) (baseSvcInfo : BaseServiceInfo)
    (next : BaseServiceInfo -> M unit) : M unit :=
  let lbip := loadBalancerIPs baseSvcInfo in
  if bool_decide (List.length lbip ≠ 0%nat) then
    let* r := driver (ProgramServiceLoadBalancerFW tableFamily svcID) in
    match r with
    | inl err =>
        logf Error "Failed to program Service %s loadbalancer FW rules with error: %+v"
             [spn_String svcPortName; Err_String err]
    | inr id =>
        let* b1 := deref (setRuleID tableFamily (K8sFwPrefix +:+ svcID) (fun _ => id) baseSvcInfo) in
        let* r := driver (ProgramServiceLoadBalancerIP tableFamily svcID lbip
                            (protocol b1) (port b1) lastSvcRulePosition) in
        match r with
        | inl err =>
            logf Error "Failed to program Service %s loadbalancer IP rule with error: %+v"
                 [spn_String svcPortName; Err_String err]
        | inr id =>
            let* b2 := deref (setRuleID tableFamily K8sNATServices (fun old => old ++ id) b1) in
            next b2
        end
    end
  else next baseSvcInfo.

(** External IPs, placed right after the cluster IP rules. *)
Definition addService_externalIPs (svcPortName : ServicePortName) (tableFamily : TableFamily)
    (cn : string) (lastSvcRulePosition : Z) (baseSvcInfo : BaseServiceInfo)
    (next : Z -> BaseServiceInfo -> M unit) : M unit :=
  let extip := externalIPs baseSvcInfo in
  if bool_decide (List.length extip ≠ 0%nat) then
    let* r := driver (ProgramServiceExternalIP tableFamily cn extip
                        (protocol baseSvcInfo) (port baseSvcInfo) lastSvcRulePosition) in
    match r with
    | inl err =>
        logf Error "Failed to program Service %s external IPs rule with error: %+v"
             [spn_String svcPortName; Err_String err]
    | inr id =>
        let* b1 := deref (setRuleID tableFamily K8sNATServices (fun old => old ++ id) baseSvcInfo) in
        let* pos := deref (last_handle id) in
        next pos b1
    end
  else next lastSvcRulePosition baseSvcInfo.

Definition addService_nodePort (svcPortName : ServicePortName) (tableFamily : TableFamily)
    (cn : string) (baseSvcInfo : BaseServiceInfo) (next : BaseServiceInfo -> M unit) : M unit :=
  let np := nodePort baseSvcInfo in
  if bool_decide (np ≠ 0) then
    let* r := driver (ProgramServiceNodePort tableFamily cn (protocol baseSvcInfo) np) in
    match r with
    | inl err =>
        logf Error "Failed to program Service %s Nodeport rule with error: %+v"
             [spn_String svcPortName; Err_String err]
    | inr id =>
        let* b1 := deref (setRuleID tableFamily K8sNATNodeports (fun _ => id) baseSvcInfo) in
        next b1
    end
  else next baseSvcInfo.

Definition addService_clusterIP (svcPortName : ServicePortName) (tableFamily : TableFamily)
    (cn : string) (baseSvcInfo : BaseServiceInfo)
    (next : Z -> BaseServiceInfo -> M unit) : M unit :=
  match clusterIP baseSvcInfo with
  | Some clip =>
      let* r := driver (ProgramServiceClusterIP tableFamily cn clip
                          (protocol baseSvcInfo) (port baseSvcInfo)) in
      match r with
      | inl err =>
          logf Error "Failed to program Service %s cluster IP rule with error: %+v"
               [spn_String svcPortName; Err_String err]
      | inr id =>
          let* b1 := deref (setRuleID tableFamily K8sNATServices (fun _ => id) baseSvcInfo) in
          let* pos := deref (last_handle id) in
          next pos b1
      end
  | None => next 0 baseSvcInfo
  end.

(** [addService]; the closing [printSvcPortEntry] only prints. *)
Definition addService (svcPortName : ServicePortName) (servicePort : ServicePortSpec)
    (svc : Service) (baseSvcInfo : BaseServiceInfo) : M unit :=
  let* sm := gets serviceMap in
  match sm !! svcPortName with
  | Some _ =>
      logf Warning "Service port name %+v already exists" [spn_String svcPortName]
  | None =>
      let tableFamily :=
        if IsIPv6String (svc_ClusterIP svc) then TableFamilyIPv6 else TableFamilyIPv4 in
      let svcID := servicePortSvcID (spn_String svcPortName) (sp_Protocol servicePort)
                                    (BaseServiceInfo_String baseSvcInfo) in
      let b0 := with_svcnft baseSvcInfo
                  {| Chains := GetSvcChain tableFamily svcID; WithEndpoints := false |} in
      let* e := driver (AddServiceChains tableFamily svcID) in
      match e with
      | Some err =>
          logf Error "failed to add service port %s chains with error: %+v"
               [spn_String svcPortName; Err_String err]
      | None => ret tt
      end ;;
      let cn := K8sSvcPrefix +:+ svcID in
      addService_clusterIP svcPortName tableFamily cn b0 (fun pos b1 =>
      addService_nodePort svcPortName tableFamily cn b1 (fun b2 =>
      addService_externalIPs svcPortName tableFamily cn pos b2 (fun pos' b3 =>
      addService_loadBalancer svcPortName tableFamily svcID pos' b3 (fun b4 =>
      addService_finish svcPortName servicePort svc tableFamily b4))))
  end.

Fixpoint forEach {A} (l : list A) (body : A -> M unit) : M unit :=
  match l with
  | [] => ret tt
  | x :: rest => body x ;; forEach rest body
  end.

(** [AddService]: the log line reads [svc.Namespace] and [svc.Name] before
    the nil test. *)
Definition AddService (svc : option Service) : M unit :=
  let* s := deref svc in
  logf Info "AddService for a service %s/%s" [svc_Namespace s; svc_Name s] ;;
  match svc with
  | None => ret tt
  | Some svc =>
      let svcName := mkNamespacedName (svc_Namespace svc) (svc_Name svc) in
      if ShouldSkipService svcName svc then ret tt
      else
        forEach (svc_Ports svc) (fun servicePort =>
          let svcPortName := getSvcPortName (svc_Name svc) (svc_Namespace svc)
                               (sp_Name servicePort) (sp_Protocol servicePort) in
          let baseSvcInfo := newBaseServiceInfo servicePort svc in
          addService svcPortName servicePort svc baseSvcInfo)
  end.

(** *** Endpoints *)

Fixpoint chainsOf (tableFamily : TableFamily) (eps : list endpointsInfo) : option (list string) :=
  match eps with
  | [] => Some []
  | ep :: rest =>
      match epnft ep !! tableFamily with
      | None => None
      | Some r => cons (Chain r) <$> chainsOf tableFamily rest
      end
  end.

(** getServicePortEndpointChains return a slice of strings containing a
    specific ServicePortName all endpoints chains.  An endpoint without a
    rule for the family is a nil dereference. *)
Definition getServicePortEndpointChains (svcPortName : ServicePortName)
    (tableFamily : TableFamily) : M (list string) :=
  let* em := gets endpointsMap in
  deref (chainsOf tableFamily (default [] (em !! svcPortName))).

(** [svcRules.RuleID = rules], through the pointer kept in the service map. *)
Definition storeSvcRules (svcPortName : ServicePortName) (tableFamily : TableFamily)
    (cn : string) (rules : list handle) : M unit :=
  let* sm := gets serviceMap in
  let* entry := deref (sm !! svcPortName) in
  let* b := deref (setRuleID tableFamily cn (fun _ => rules) (base entry)) in
  modify (fun p => set_serviceMap
                     (<[ svcPortName := {| base := b;
                                           serviceNameString := serviceNameString entry |} ]>
                        (serviceMap p)) p).

(** UpdateServiceChain programs rules for a specific ServicePortName, it is
    called for every endpoint add/delete event. *)
Definition UpdateServiceChain (svcPortName : ServicePortName) (tableFamily : TableFamily)
    : M (option Err) :=
  let* sm := gets serviceMap in
  match sm !! svcPortName with
  | None => ret None
  | Some entry =>
      (if negb (WithEndpoints (svcnft (base entry))) then
         (* Service did not have any endpoints until now *)
         let* e := removeFromNoEndpointsList (base entry) tableFamily in
         match e with
         | Some err =>
             logf Error "failed to remove %s from No Endpoints Set with error: %+v"
                  [spn_String svcPortName; Err_String err]
         | None =>
             modify (fun p => set_serviceMap
                                (<[ svcPortName := setWithEndpoints true entry ]> (serviceMap p)) p)
         end
       else ret tt) ;;
      (* Programming rules for existing endpoints *)
      let* epsChains := getServicePortEndpointChains svcPortName tableFamily in
      let* sc := deref (Chains (svcnft (base entry)) !! tableFamily) in
      let cn := K8sSvcPrefix +:+ ServiceID sc in
      let* svcRules := deref (svc_Chain sc !! cn) in
      (* Check if the service still has any backends *)
      if bool_decide (List.length epsChains ≠ 0%nat) then
        let* r := driver (ProgramServiceEndpoints tableFamily cn epsChains (RuleID svcRules)) in
        match r with
        | inl err =>
            logf Error "failed to program endpoints rules for service %s with error: %+v"
                 [spn_String svcPortName; Err_String err] ;;
            ret (Some err)
        | inr rules =>
            storeSvcRules svcPortName tableFamily cn rules ;;
            ret None
        end
      else
        (* Service has no endpoints left needs to remove the rule if any *)
        let* e := driver (DeleteServiceRules tableFamily cn (RuleID svcRules)) in
        match e with
        | Some err =>
            logf Error "failed to remove rule for service %s with error: %+v"
                 [spn_String svcPortName; Err_String err] ;;
            ret (Some err)
        | None =>
            storeSvcRules svcPortName tableFamily cn [] ;;
            ret None
        end
  end.

Record epKey := mkEpKey { proto : string; ipaddr : string; key_port : Z }.

(** [addEndpointRule]: the handles are returned for the caller's rule. *)
Definition addEndpointRule (tableFamily : TableFamily) (cn : string)
    (svcPortName : ServicePortName) (key : epKey) : M (Err + list handle) :=
  driver (AddEndpointRules tableFamily cn (ipaddr key) (proto key) (key_port key)).

Definition with_epnft (e : endpointsInfo) (n : EPnft) : endpointsInfo :=
  {| ei_ipFamily := ei_ipFamily e; ei_protocol := ei_protocol e; ei_IP := ei_IP e;
     ei_port := ei_port e; ei_IsLocal := ei_IsLocal e; Endpoint := Endpoint e; epnft := n |}.

Definition isLocalTo (host : string) (addr : EndpointAddress) : bool :=
  match addr_NodeName addr with
  | Some n => bool_decide (n = host)
  | None => false
  end.

Definition addEndpoint (svcPortName : ServicePortName) (addr : EndpointAddress)
    (prt : EndpointPort) : M (option Err) :=
  let* host := gets hostname in
  let isLocal := isLocalTo host addr in
  let '(ipFamily, ipTableFamily) := getIPFamily (addr_IP addr) in
  let baseEndpointInfo :=
    newBaseEndpointInfo ipFamily (port_Protocol prt) (addr_IP addr) (port_Port prt) isLocal in
  let cn := servicePortEndpointChainName (spn_String svcPortName) (port_Protocol prt)
                                         (Endpoint baseEndpointInfo) in
  let* r := addEndpointRule ipTableFamily cn svcPortName
              (mkEpKey (port_Protocol prt) (addr_IP addr) (port_Port prt)) in
  match r with
  | inl err => ret (Some err)
  | inr ruleIDs =>
      let info := with_epnft baseEndpointInfo {[ ipTableFamily := mkRule cn ruleIDs ]} in
      modify (fun p => set_endpointsMap
                         (<[ svcPortName := default [] (endpointsMap p !! svcPortName) ++ [info] ]>
                            (endpointsMap p)) p) ;;
      let* e := UpdateServiceChain svcPortName ipTableFamily in
      match e with
      | Some err =>
          logf Error "failed to update service %s chain with endpoint rule with error: %+v"
               [spn_String svcPortName; Err_String err] ;;
          ret (Some err)
      | None => ret None
      end
  end.

Definition deleteEndpointRules (ipTableFamily : TableFamily) (cn : string)
    (ruleID : list handle) (svcPortName : ServicePortName) (key : epKey) : M (option Err) :=
  (* Right away update the service's rule to exclude deleted endpoint *)
  let* e := UpdateServiceChain svcPortName ipTableFamily in
  match e with
  | Some err =>
      logf Info "failed to update service %s chain with endpoint rule with error: %+v"
           [spn_String svcPortName; Err_String err] ;;
      ret (Some err)
  | None =>
      let* e := driver (DeleteEndpointRules ipTableFamily cn ruleID) in
      match e with
      | Some err => ret (Some err)
      | None =>
          (* Deleting endpoint's chain *)
          let* e := driver (DeleteChain ipTableFamily cn) in
          match e with
          | Some err =>
              logf Error "failed to delete endpoint chain: %s with error: %+v" [cn; Err_String err]
          | None => ret tt
          end ;;
          (* Check if it was last endpoint for a service port name *)
          let* em := gets endpointsMap in
          (if bool_decide (List.length (default [] (em !! svcPortName)) = 0%nat) then
             logf Info "no more endpoints found for %s" [spn_String svcPortName] ;;
             let* sm := gets serviceMap in
             match sm !! svcPortName with
             | Some svc =>
                 let '(_, tableFamily) := getIPFamily (ClusterIP_String (base svc)) in
                 let* e := addToNoEndpointsList (base svc) tableFamily in
                 match e with
                 | Some err =>
                     logf Error "failed to add %s to No Endpoints Set with error: %+v"
                          [spn_String svcPortName; Err_String err]
                 | None =>
                     (* Set service flag that there is no endpoints *)
                     modify (fun p => set_serviceMap
                                        (<[ svcPortName := setWithEndpoints false svc ]>
                                           (serviceMap p)) p)
                 end
             | None => ret tt
             end ;;
             modify (fun p => set_endpointsMap (delete svcPortName (endpointsMap p)) p)
           else ret tt) ;;
          ret None
      end
  end.

(** The loop of [deleteEndpoint] over the caller's slice [eps], at index
    [i] with [n] iterations left.  Removing entry [i] writes
    [eps[:i] ++ eps[i+1:]] into the array [eps] points to, so the slice,
    whose length stays what it was, reads afterwards the kept entries
    followed by its old last entry; the loop goes on over that, and so does
    a caller that passes the same slice again. *)
Fixpoint deleteEndpoint_range (n i : nat) (svcPortName : ServicePortName)
    (ipTableFamily : TableFamily) (ep2d : endpointsInfo) (key : epKey)
    (eps : list endpointsInfo) : M (option Err * list endpointsInfo) :=
  match n with
  | O => ret (None, eps)
  | S n' =>
      match eps !! i with
      | None => ret (None, eps)
      | Some ep2c =>
          if Equal ep2c ep2d then
            (* Update eps by removing endpoint entry for port.Protocol, addr.IP, port.Port *)
            let kept := take i eps ++ drop (S i) eps in
            let eps' := kept ++ drop (List.length eps - 1) eps in
            modify (fun p => set_endpointsMap (<[ svcPortName := kept ]> (endpointsMap p)) p) ;;
            let* rule := deref (epnft ep2c !! ipTableFamily) in
            let* e := deleteEndpointRules ipTableFamily (Chain rule) (RuleID rule) svcPortName key in
            match e with
            | Some err => ret (Some err, eps')
            | None => deleteEndpoint_range n' (S i) svcPortName ipTableFamily ep2d key eps'
            end
          else deleteEndpoint_range n' (S i) svcPortName ipTableFamily ep2d key eps
      end
  end.

(** [deleteEndpoint]; the result carries the error the loop stopped on and
    what the caller's slice reads afterwards. *)
Definition deleteEndpoint (svcPortName : ServicePortName) (addr : EndpointAddress)
    (prt : EndpointPort) (eps : list endpointsInfo) : M (option Err * list endpointsInfo) :=
  let* host := gets hostname in
  let isLocal := isLocalTo host addr in
  let '(ipFamily, ipTableFamily) := getIPFamily (addr_IP addr) in
  let ep2d := newBaseEndpointInfo ipFamily (port_Protocol prt) (addr_IP addr) (port_Port prt) isLocal in
  deleteEndpoint_range (List.length eps) 0 svcPortName ipTableFamily ep2d
    (mkEpKey (port_Protocol prt) (addr_IP addr) (port_Port prt)) eps.

(** [deleteService].  The source ranges over a Go map, whose order is not
    fixed; here the chains are visited in the order of [map_to_list]. *)
Definition deleteService (svcPortName : ServicePortName) (servicePort : ServicePortSpec)
    (svc : Service) : M unit :=
  let* sm := gets serviceMap in
  match sm !! svcPortName with
  | None => logf Warning "Service port name %+v does not exist" [spn_String svcPortName]
  | Some svcInfo =>
      let baseInfo := base svcInfo in
      let '(_, tableFamily) := getIPFamily (ClusterIP_String baseInfo) in
      (if negb (WithEndpoints (svcnft baseInfo)) then
         (* svcPortName does not have any endpoints, need to remove service entry from
            the No Endpoints Set *)
         let* e := removeFromNoEndpointsList baseInfo tableFamily in
         match e with
         | Some err =>
             logf Error "failed to remove %s from No Endpoints Set with error: %+v"
                  [spn_String svcPortName; Err_String err]
         | None => ret tt
         end
       else ret tt) ;;
      (* Remove svcPortName related chains and rules *)
      let* sc := deref (Chains (svcnft baseInfo) !! tableFamily) in
      forEach (map_to_list (svc_Chain sc)) (fun cr =>
        let '(chain, rules) := cr in
        if bool_decide (List.length (RuleID rules) ≠ 0%nat) then
          let* e := driver (DeleteServiceRules tableFamily chain (RuleID rules)) in
          match e with
          | Some err =>
              logf Error "failed to delete rules chain: %s service port name: %s with error: %+v"
                   [chain; spn_String svcPortName; Err_String err]
          | None => ret tt
          end
        else ret tt) ;;
      (* Removing service port specific chains *)
      let* e := driver (DeleteServiceChains tableFamily (ServiceID sc)) in
      match e with
      | Some err =>
          logf Error "failed to delete chains for service port name: %s with error: %+v"
               [spn_String svcPortName; Err_String err]
      | None => ret tt
      end ;;
      (* Delete svcPortName from known svcPortName map *)
      modify (fun p => set_serviceMap (delete svcPortName (serviceMap p)) p)
  end.

(** [DeleteService]: as in [AddService], the log line comes before the nil
    test. *)
Definition DeleteService (svc : option Service) : M unit :=
  let* s := deref svc in
  logf Info "DeleteService for a service %s/%s" [svc_Namespace s; svc_Name s] ;;
  match svc with
  | None => ret tt
  | Some svc =>
      forEach (svc_Ports svc) (fun servicePort =>
        let svcPortName := getSvcPortName (svc_Name svc) (svc_Namespace svc)
                             (sp_Name servicePort) (sp_Protocol servicePort) in
        deleteService svcPortName servicePort svc)
  end.

Definition UpdateService (svcOld svcNew : Service) : M unit :=
  logf Info "UpdateService for a service %s/%s" [svc_Namespace svcNew; svc_Name svcNew].

Definition isPortInSubset (subsets : list EndpointSubset) (prt : EndpointPort) : bool :=
  existsb (fun s =>
    existsb (fun p => bool_decide (port_Name p = port_Name prt) &&
                      bool_decide (port_Port p = port_Port prt) &&
                      bool_decide (port_Protocol p = port_Protocol prt)) (Ports s)) subsets.

(** The addresses of one port of a subset of [epOld], all deleted through
    the same slice [eps]. *)
Fixpoint deleteAddresses (svcPortName : ServicePortName) (prt : EndpointPort)
    (epNew : Endpoints) (addrs : list EndpointAddress) (eps : list endpointsInfo) : M unit :=
  match addrs with
  | [] => ret tt
  | addr :: rest =>
      if bool_decide (addr_IP addr = "") then
        logf Warning "ignoring invalid endpoint port %s with empty host" [port_Name prt] ;;
        deleteAddresses svcPortName prt epNew rest eps
      else if negb (isPortInSubset (Subsets epNew) prt) then
        let* ' (_, eps') := deleteEndpoint svcPortName addr prt eps in
        deleteAddresses svcPortName prt epNew rest eps'
      else deleteAddresses svcPortName prt epNew rest eps
  end.

(** [UpdateEndpoints].  [reflect.DeepEqual] is equality of the values. *)
Definition UpdateEndpoints (epOld epNew : Endpoints) : M unit :=
  if bool_decide (ep_Namespace epNew = "") && bool_decide (ep_Name epNew = "") then
    (* When service gets deleted the endpoint controller triggers an update for an
       endpoint with no name or namespace, ignoring it *)
    ret tt
  else if negb (bool_decide (Subsets epOld = Subsets epNew)) then
    (* First check if any new endpoint rules needs to be added *)
    forEach (Subsets epNew) (fun ss =>
      forEach (Ports ss) (fun prt =>
        if bool_decide (port_Port prt = 0) then
          logf Warning "ignoring invalid endpoint port %s" [port_Name prt]
        else
          let svcPortName := getSvcPortName (ep_Name epNew) (ep_Namespace epNew)
                               (port_Name prt) (port_Protocol prt) in
          forEach (Addresses ss) (fun addr =>
            if bool_decide (addr_IP addr = "") then
              logf Warning "ignoring invalid endpoint port %s with empty host" [port_Name prt]
            else if negb (isPortInSubset (Subsets epOld) prt) then
              let* e := addEndpoint svcPortName addr prt in
              match e with
              | Some err =>
                  logf Error "Update endpoint: %s/%s failed with error: %+v"
                       [ep_Namespace epNew; ep_Name epNew; Err_String err]
              | None => ret tt
              end
            else ret tt))) ;;
    forEach (Subsets epOld) (fun ss =>
      forEach (Ports ss) (fun prt =>
        if bool_decide (port_Port prt = 0) then
          logf Warning "ignoring invalid endpoint port %s" [port_Name prt]
        else
          let svcPortName := getSvcPortName (ep_Name epOld) (ep_Namespace epOld)
                               (port_Name prt) (port_Protocol prt) in
          let* em := gets endpointsMap in
          match em !! svcPortName with
          | None =>
              (* If key does not exist, then nothing to delete, going to the next entry *)
              ret tt
          | Some eps => deleteAddresses svcPortName prt epNew (Addresses ss) eps
          end))
  else ret tt.

Definition AddEndpoints (ep : Endpoints) : M unit :=
  logf Info "Add endpoint: %s/%s" [ep_Namespace ep; ep_Name ep] ;;
  UpdateEndpoints (mkEndpoints "" "" []) ep.

Definition DeleteEndpoints (ep : Endpoints) : M unit :=
  UpdateEndpoints ep (mkEndpoints "" "" []).

(** ** EndpointSlice handlers ([pkg/proxy/proxy_endpointslice.go]) *)

(** One (port, address) tuple of a slice, as [processEpSlice] lists them. *)
Record epInfo := mkEpInfo {
  name : ServicePortName;
  addr : EndpointAddress;
  eport : EndpointPort;
  ready : bool
}.

(** The result of a function that returns a value or an error, or faults. *)
Inductive res (A : Type) :=
| ROk (a : A)
| RErr (e : Err)
| RFault.
Arguments ROk {A} a.
Arguments RErr {A} e.
Arguments RFault {A}.

Definition getServiceNameFromServiceNameLabel (labels : gmap string string) : string * bool :=
  match labels !! LabelServiceName with
  | None => ("", false)
  | Some n => (n, true)
  end.

(** The addresses of endpoint [e] under port [p]; [*e.Conditions.Ready] is
    read for every address. *)
Fixpoint processAddresses (svcPortName : ServicePortName) (e : SliceEndpoint)
    (pName pProtocol : string) (pPort : Z) (addrs : list string) (ports : list epInfo)
    : res (list epInfo) :=
  match addrs with
  | [] => ROk ports
  | a :: rest =>
      match se_Ready e with
      | None => RFault
      | Some r =>
          let prt :=
            {| name := svcPortName;
               addr := {| addr_IP := a;
                          addr_Hostname := default "" (se_Hostname e);
                          addr_NodeName := se_Hostname e;
                          addr_TargetRef := se_TargetRef e |};
               eport := {| port_Name := pName; port_Port := pPort; port_Protocol := pProtocol |};
               ready := r |} in
          processAddresses svcPortName e pName pProtocol pPort rest (ports ++ [prt])
      end
  end.

Fixpoint processPorts (svcName namespace : string) (e : SliceEndpoint)
    (ps : list SlicePort) (ports : list epInfo) : res (list epInfo) :=
  match ps with
  | [] => ROk ports
  | p :: rest =>
      match slp_Port p with
      | None => RFault
      | Some pPort =>
          if bool_decide (pPort = 0) then
            match slp_Name p with
            | None => RFault
            | Some pName => RErr (InvalidPort pName)
            end
          else
            match slp_Name p, slp_Protocol p with
            | Some pName, Some pProtocol =>
                let svcPortName := getSvcPortName svcName namespace pName pProtocol in
                match processAddresses svcPortName e pName pProtocol pPort (se_Addresses e) ports with
                | ROk ports' => processPorts svcName namespace e rest ports'
                | other => other
                end
            | _, _ => RFault
            end
      end
  end.

Fixpoint processEndpoints (svcName namespace : string) (ps : list SlicePort)
    (es : list SliceEndpoint) (ports : list epInfo) : res (list epInfo) :=
  match es with
  | [] => ROk ports
  | e :: rest =>
      match processPorts svcName namespace e ps ports with
      | ROk ports' => processEndpoints svcName namespace ps rest ports'
      | other => other
      end
  end.

Definition processEpSlice (epsl : EndpointSlice) : res (list epInfo) :=
  let '(svcName, found) := getServiceNameFromServiceNameLabel (epsl_Labels epsl) in
  if negb found then
    (* Slice does not have the kubernetes.io/service-name label *)
    ROk []
  else processEndpoints svcName (epsl_Namespace epsl) (epsl_Ports epsl) (epsl_Endpoints epsl) [].

(** Modelled from the spec: [isPortInEndpointSlice] is not among the
    sources.  By the transition table of section 4.5.3 it tells whether the
    (port, address) tuple is in the slice and, if so, whether it is ready
    there; the result is (ready, found), as the callers read it. *)
Definition isPortInEndpointSlice (epsl : EndpointSlice) (prt : EndpointPort)
    (a : EndpointAddress) : bool * bool :=
  let samePort (p : SlicePort) :=
    bool_decide (slp_Name p = Some (port_Name prt)) &&
    bool_decide (slp_Port p = Some (port_Port prt)) &&
    bool_decide (slp_Protocol p = Some (port_Protocol prt)) in
  let holds (e : SliceEndpoint) :=
    existsb samePort (epsl_Ports epsl) &&
    existsb (fun ip => bool_decide (ip = addr_IP a)) (se_Addresses e) in
  match List.find holds (epsl_Endpoints epsl) with
  | Some e => (default false (se_Ready e), true)
  | None => (false, false)
  end.

(** The loop of [AddEndpointSlice]: it stops at the first failing
    [addEndpoint]. *)
Fixpoint addReadyPorts (epsl : EndpointSlice) (info : list epInfo) : M unit :=
  match info with
  | [] => ret tt
  | e :: rest =>
      if negb (ready e) then
        (* Skipping not ready port, will program chains/rules once it becomes ready. *)
        addReadyPorts epsl rest
      else
        let* err := addEndpoint (name e) (addr e) (eport e) in
        match err with
        | Some err =>
            logf Error "failed to add Endpoint Slice %s/%s port %+v with error: %+v"
                 [epsl_Namespace epsl; epsl_Name epsl; port_Name (eport e); Err_String err]
        | None => addReadyPorts epsl rest
        end
  end.

Definition AddEndpointSlice (epsl : EndpointSlice) : M unit :=
  storeEpSlInCache epsl ;;
  match processEpSlice epsl with
  | RFault => fault
  | RErr err =>
      logf Error "failed to process Endpoint slice %s/%s with error: %+v"
           [epsl_Namespace epsl; epsl_Name epsl; Err_String err]
  | ROk info => addReadyPorts epsl info
  end.

(** A removal as the slice handlers do it: nothing when the key has no
    entry, otherwise [deleteEndpoint] on the entry just read; an error is
    only logged. *)
Definition removePort (epsl : EndpointSlice) (e : epInfo) : M unit :=
  let* em := gets endpointsMap in
  match em !! name e with
  | None => ret tt
  | Some eps =>
      let* ' (err, _) := deleteEndpoint (name e) (addr e) (eport e) eps in
      match err with
      | Some err =>
          logf Error "failed to remove Endpoint Slice %s/%s port %+v with error: %+v"
               [epsl_Namespace epsl; epsl_Name epsl; port_Name (eport e); Err_String err]
      | None => ret tt
      end
  end.

Definition DeleteEndpointSlice (epsl : EndpointSlice) : M unit :=
  match processEpSlice epsl with
  | RFault => fault
  | RErr err =>
      logf Error "failed to process Endpoint slice %s/%s with error: %+v"
           [epsl_Namespace epsl; epsl_Name epsl; Err_String err]
  | ROk info =>
      forEach info (fun e =>
        (* Skipping not ready port, all related chains/rules were either never created,
           or removed when the port went from Ready to Not Ready. *)
        if negb (ready e) then ret tt else removePort epsl e) ;;
      removeEpSlFromCache (epsl_Name epsl) (epsl_Namespace epsl)
  end.

(** An addition as [UpdateEndpointSlice] does it: an error is only logged. *)
Definition addPort (epsl : EndpointSlice) (e : epInfo) : M unit :=
  let* err := addEndpoint (name e) (addr e) (eport e) in
  match err with
  | Some err =>
      logf Error "failed to update Endpoint Slice %s/%s port %+v with error: %+v"
           [epsl_Namespace epsl; epsl_Name epsl; port_Name (eport e); Err_String err]
  | None => ret tt
  end.

(** The first lines of [UpdateEndpointSlice]: which slice stands for the
    previous state. *)
Definition lastKnownEpSl (epslOld epslNew : EndpointSlice) : M EndpointSlice :=
  let* r := getCachedEpSlVersion (epsl_Name epslNew) (epsl_Namespace epslNew) in
  match r with
  | inl _ =>
      logf Error "UpdateEndpoint did not find Endpoint Slice %s/%s in cache, it is a bug, please file an issue"
           [epsl_Namespace epslNew; epsl_Name epslNew] ;;
      ret epslOld
  | inr ver =>
      (* TODO add logic to check version, if oldEp's version more recent than storedEp,
         then use oldEp as the most current old object. *)
      let oldVer := epsl_ResourceVersion epslOld in
      (if bool_decide (oldVer ≠ ver) then
         logf Warning "mismatch version detected between old Endpoint Slice %s/%s and last known stored in cache %s/%s"
              [epsl_Namespace epslNew; epsl_Name epslNew; oldVer; ver]
       else ret tt) ;;
      let* r := getLastKnownEpSlFromCache (epsl_Name epslNew) (epsl_Namespace epslNew) in
      match r with
      | inr stored => ret stored
      | inl _ => fault
      end
  end.

(** One tuple of the new slice against the previous one. *)
Definition updateNewPort (storedEpSl epslNew : EndpointSlice) (e : epInfo) : M unit :=
  let '(oldReady, found) := isPortInEndpointSlice storedEpSl (eport e) (addr e) in
  if negb found && ready e then
    (* not in the cache and the new endpoint is Ready, so add new port *)
    addPort epslNew e
  else if negb found && negb (ready e) then
    (* not in the cache and NOT Ready, do nothing *)
    ret tt
  else if found && ready e && oldReady then
    (* nothing changed for port and address pair, ignoring it *)
    ret tt
  else if found && negb (ready e) && oldReady then
    (* existing Endpoint state got changed from Ready to NOT Ready *)
    removePort epslNew e
  else if found && ready e && negb oldReady then
    (* changed state from NOT Ready to Ready, so add a new port *)
    addPort epslNew e
  else if found && negb (ready e) && negb oldReady then
    (* nothing changed for port and address pair, ignoring it *)
    ret tt
  else ret tt.

(** One tuple of the previous slice against the new one. *)
Definition updateOldPort (epslNew : EndpointSlice) (e : epInfo) : M unit :=
  let '(_, found) := isPortInEndpointSlice epslNew (eport e) (addr e) in
  if negb found && ready e then
    (* Endpoint for port/address was in Ready state but then was deleted *)
    removePort epslNew e
  else ret tt.

Definition UpdateEndpointSlice (epslOld epslNew : EndpointSlice) : M unit :=
  let* storedEpSl := lastKnownEpSl epslOld epslNew in
  (* Check for new Endpoint's ports *)
  match processEpSlice epslNew with
  | RFault => fault
  | RErr err =>
      logf Error "failed to update Endpoint Slice %s/%s with error: %+v"
           [epsl_Namespace epslNew; epsl_Name epslNew; Err_String err]
  | ROk info =>
      forEach info (updateNewPort storedEpSl epslNew) ;;
      (* Check for removed endpoint's ports *)
      match processEpSlice storedEpSl with
      | RFault => fault
      | RErr _ => storeEpSlInCache epslNew
      | ROk info' =>
          forEach info' (updateOldPort epslNew) ;;
          storeEpSlInCache epslNew
      end
  end.

(** ** Events and runs *)

Inductive Event :=
| EvAddService (svc : option Service)
| EvDeleteService (svc : option Service)
| EvUpdateService (svcOld svcNew : Service)
| EvAddEndpoints (ep : Endpoints)
| EvDeleteEndpoints (ep : Endpoints)
| EvUpdateEndpoints (epOld epNew : Endpoints)
| EvAddEndpointSlice (epsl : EndpointSlice)
| EvDeleteEndpointSlice (epsl : EndpointSlice)
| EvUpdateEndpointSlice (epslOld epslNew : EndpointSlice).

Definition handle_event (ev : Event) : M unit :=
  match ev with
  | EvAddService svc => AddService svc
  | EvDeleteService svc => DeleteService svc
  | EvUpdateService o n => UpdateService o n
  | EvAddEndpoints ep => AddEndpoints ep
  | EvDeleteEndpoints ep => DeleteEndpoints ep
  | EvUpdateEndpoints o n => UpdateEndpoints o n
  | EvAddEndpointSlice s => AddEndpointSlice s
  | EvDeleteEndpointSlice s => DeleteEndpointSlice s
  | EvUpdateEndpointSlice o n => UpdateEndpointSlice o n
  end.

(** The state after the handlers have run, one after the other. *)
Definition run_events (evs : list Event) : M unit := forEach evs handle_event.

(** [after o P]: the call returned, in a state where [P] holds. *)
Definition after {A} (o : outcome A) (P : proxy -> Prop) : Prop :=
  match o with
  | Ret _ p => P p
  | Fault => False
  end.

(** The addresses a service port answers on. *)
Definition virtualAddresses (b : BaseServiceInfo) : list string :=
  ClusterIP_String b :: externalIPs b ++ loadBalancerIPs b.

(** (I3) of the specification: a service port's virtual addresses are in
    the no-endpoints set exactly when its flag is false. *)
Definition NoEndpointsInvariant (p : proxy) : Prop :=
  forall (k : ServicePortName) (info : serviceInfo) (ip : string),
    serviceMap p !! k = Some info ->
    ip ∈ virtualAddresses (base info) ->
    ((snd (getIPFamily (ClusterIP_String (base info))), protocol (base info), ip,
      uint16 (port (base info))) ∈ noEndpoints (nfti p)
     <-> WithEndpoints (svcnft (base info)) = false).

(** A jump installed in the kernel whose target chain is not there. *)
Definition dangling_jump (n : NFTInterface) (r : KRule) : Prop :=
  r ∈ ruleset n /\
  exists target, kr_jump r = Some target /\ (kr_family r, target) ∉ chains n.

(** ** Sample objects used in the examples below *)

Module Sample.

Definition web : Service :=
  mkService "default" "web" ServiceTypeClusterIP "10.96.0.10"
            [mkServicePort "http" "TCP" 80 0] [] [].
Definition http : ServicePortSpec := mkServicePort "http" "TCP" 80 0.
Definition key : ServicePortName := getSvcPortName "web" "default" "http" "TCP".
Definition a1 : EndpointAddress := mkEndpointAddress "10.244.1.5" "" None None.
Definition a2 : EndpointAddress := mkEndpointAddress "10.244.1.6" "" None None.
Definition p8080 : EndpointPort := mkEndpointPort "http" 8080 "TCP".
Definition ep_none : Endpoints := mkEndpoints "default" "web" [].
Definition ep_one : Endpoints := mkEndpoints "default" "web" [mkEndpointSubset [a1] [] [p8080]].
Definition ep_two : Endpoints := mkEndpoints "default" "web" [mkEndpointSubset [a1; a2] [] [p8080]].

Definition svc_chain : string := "k8s-nfproxy-svc-TL6HGMALSKADNKEV".
Definition sep1 : string := "k8s-nfproxy-sep-OM5X27EWBRVP7ZDE".
Definition sep2 : string := "k8s-nfproxy-sep-OC4LGGNHPIEFWGZ4".

Definition slice (version : string) (eps : list SliceEndpoint) : EndpointSlice :=
  mkEndpointSlice "default" "web-abc" version {[ LabelServiceName := "web" ]} "IPv4" eps
                  [mkSlicePort (Some "http") (Some "TCP") (Some 8080)].
Definition se (ip : string) (rdy : bool) : SliceEndpoint :=
  mkSliceEndpoint [ip] (Some rdy) None None.

(** The tuple [processEpSlice] lists for an address of a [slice]. *)
Definition tuple (ip : string) (rdy : bool) : epInfo :=
  {| name := key; addr := mkEndpointAddress ip "" None None; eport := p8080; ready := rdy |}.

Definition e1 : epInfo := tuple "10.244.1.5" true.
Definition e2 : epInfo := tuple "10.244.1.6" true.

Definition none_yet : EndpointSlice := slice "1" [].
Definition one_ready : EndpointSlice := slice "1" [se "10.244.1.5" true].
Definition two_ready : EndpointSlice :=
  slice "2" [se "10.244.1.5" true; se "10.244.1.6" true].
Definition not_ready : EndpointSlice := slice "2" [se "10.244.1.5" false].
Definition ready_again : EndpointSlice := slice "3" [se "10.244.1.5" true].
Definition swapped : EndpointSlice :=
  slice "2" [se "10.244.1.5" false; se "10.244.1.6" true].

Definition three : EndpointSlice :=
  slice "1" [se "10.244.1.5" true; se "10.244.1.6" true; se "10.244.1.7" true].

(** A proxy on a kernel with nothing installed and no driver fault. *)
Definition fresh_proxy : proxy := NewProxy (pristine []) "node1".

(** A proxy whose driver rejects the second call it gets. *)
Definition faulty_proxy : proxy := NewProxy (pristine [false; true]) "node1".

(** The state a run ends in (the starting state if it faults). *)
Definition state_after (evs : list Event) (p : proxy) : proxy :=
  match run_events evs p with Ret _ p' => p' | Fault => p end.

End Sample.

(** ** Vocabulary of the statements *)

(** The upper-case base32 alphabet. *)
Definition upper_base32 (c : ascii) : Prop :=
  In c (list_ascii_of_string Hash.encodeStd).

(** Observations of options and outcomes. *)
Definition has {A} (o : option A) : bool :=
  match o with Some _ => true | None => false end.

Definition state_of {A} (o : outcome A) (d : proxy) : proxy :=
  match o with Ret _ q => q | Fault => d end.

Definition value_of {A} (o : outcome A) : option A :=
  match o with Ret a _ => Some a | Fault => None end.

(** The cache key of a slice. *)
Definition slice_key (epsl : EndpointSlice) : NamespacedName :=
  mkNamespacedName (epsl_Namespace epsl) (epsl_Name epsl).

Definition mismatch_warning (epslOld epslNew cached : EndpointSlice) : LogEntry :=
  Log Warning
      "mismatch version detected between old Endpoint Slice %s/%s and last known stored in cache %s/%s"
      [epsl_Namespace epslNew; epsl_Name epslNew; epsl_ResourceVersion epslOld;
       epsl_ResourceVersion cached].

(** Resource versions compared as the decimal numbers they print. *)
Definition version_number (v : string) : Z :=
  match NilZero.uint_of_string v with
  | Some u => Z.of_uint u
  | None => 0
  end.

Definition version_newer (a b : string) : bool := Z.ltb (version_number b) (version_number a).

(** [preserves R m]: whenever [m] returns, the states before and after are
    related by [R]. *)
Definition preserves {A} (R : proxy -> proxy -> Prop) (m : M A) : Prop :=
  forall p a p', m p = Ret a p' -> R p p'.

(** The calls that take an endpoint's chain down. *)
Definition removes_endpoint (op : Op) : bool :=
  match op with
  | OpDeleteEndpointRules _ _ _ | OpDeleteChain _ _ => true
  | _ => false
  end.

(** The entries of the endpoints map only get longer. *)
Definition endpoints_kept (p p' : proxy) : Prop :=
  forall k eps, endpointsMap p !! k = Some eps ->
    exists more, endpointsMap p' !! k = Some (eps ++ more).

(** The driver was asked for [ops], all of them [allowed]. *)
Definition issues (allowed : Op -> bool) (p p' : proxy) : Prop :=
  exists ops, issued (nfti p') = issued (nfti p) ++ ops /\
              Forall (fun op => allowed op = true) ops.

(** The cache and the host are the same, every entry of the endpoints map
    is still there, and the driver was asked for [allowed] calls only. *)
Definition within (allowed : Op -> bool) (p p' : proxy) : Prop :=
  pcache p' = pcache p /\
  hostname p' = hostname p /\
  endpoints_kept p p' /\
  issues allowed p p'.

(** Nothing undone: no call takes an endpoint chain down. *)
Definition only_adds : proxy -> proxy -> Prop :=
  within (fun op => negb (removes_endpoint op)).

(** The calls of [UpdateServiceChain]. *)
Definition service_chain_op (op : Op) : bool :=
  match op with
  | OpRemoveFromNoEndpointsList _ _ _ _
  | OpProgramServiceEndpoints _ _ _ _
  | OpDeleteServiceRules _ _ _ => true
  | _ => false
  end.

(** The calls of [addToNoEndpointsList]. *)
Definition fills_no_endpoints (op : Op) : bool :=
  match op with
  | OpAddToNoEndpointsList _ _ _ _ => true
  | _ => false
  end.

(** The state after every ready tuple of the list has been added without
    an error; none if some addition fails or faults. *)
Fixpoint programAll (info : list epInfo) (p : proxy) : option proxy :=
  match info with
  | [] => Some p
  | e :: rest =>
      if negb (ready e) then programAll rest p
      else match addEndpoint (name e) (addr e) (eport e) p with
           | Ret None p1 => programAll rest p1
           | _ => None
           end
  end.

(** The proxy with the slice in its cache. *)
Definition stored (epsl : EndpointSlice) (p : proxy) : proxy :=
  set_cache (mkCache (<[ slice_key epsl := epsl ]> (epslCache (pcache p)))) p.

(** What an update does to one tuple. *)
Inductive action :=
| Add (e : epInfo)
| Del (e : epInfo).

Definition perform_action (epslNew : EndpointSlice) (a : action) : M unit :=
  match a with
  | Add e => addPort epslNew e
  | Del e => removePort epslNew e
  end.

(** The tuples of a slice (none when the slice has an invalid port). *)
Definition tuples (epsl : EndpointSlice) : list epInfo :=
  match processEpSlice epsl with
  | ROk l => l
  | _ => []
  end.

(** The (address, port) pair a tuple stands for. *)
Definition pair_of (t : epInfo) : string * EndpointPort := (addr_IP (addr t), eport t).

(** The pair of [t] is ready in the slice: the slice lists a ready tuple
    for it. *)
Definition ready_in (epsl : EndpointSlice) (t : epInfo) : bool :=
  bool_decide (pair_of t ∈ map pair_of (List.filter ready (tuples epsl))).

(** The pair of [t] is in the slice, ready or not. *)
Definition listed_in (epsl : EndpointSlice) (t : epInfo) : bool :=
  bool_decide (pair_of t ∈ map pair_of (tuples epsl)).

(** (P5) of the specification, in the words of the specification: the
    additions are the tuples that are ready in the new slice and not ready,
    or absent, in the old one; the deletions are the tuples that are ready
    in the old slice and not ready, or absent, in the new one. *)
Definition additions (old new : EndpointSlice) : list epInfo :=
  List.filter (fun t => ready t && negb (ready_in old t)) (tuples new).

Definition deletions (old new : EndpointSlice) : list epInfo :=
  List.filter (fun t => ready t && negb (ready_in new t)) (tuples old).

(** The additions and deletions of (P5) in the order the handler takes
    them: along the tuples of the new slice, each one that is an addition,
    or the deletion the old slice has at the same pair; then the deletions
    at pairs the new slice no longer lists. *)
Definition in_handler_order (old new : EndpointSlice) : list action :=
  flat_map (fun t =>
              if ready t && negb (ready_in old t) then [Add t]
              else map Del (List.filter (fun u => bool_decide (pair_of u = pair_of t))
                                        (deletions old new)))
           (tuples new)
  ++ map Del (List.filter (fun u => negb (listed_in new u)) (deletions old new)).

(** A slice the handlers can read as (P5) does: it has the service name
    label, [processEpSlice] accepts it, and it lists every (address, port)
    pair once. *)
Definition well_listed (epsl : EndpointSlice) : Prop :=
  is_Some (epsl_Labels epsl !! LabelServiceName) /\
  processEpSlice epsl = ROk (tuples epsl) /\
  NoDup (map pair_of (tuples epsl)).

(** A pair that both slices list belongs to the same service port and has
    the same address record (host name, node name, target) in both. *)
Definition coherent (old new : EndpointSlice) : Prop :=
  Forall (fun t =>
            Forall (fun u => pair_of t = pair_of u -> name t = name u /\ addr t = addr u)
                   (tuples old))
         (tuples new).

(** The ports of the subsets are valid, all in [others], and the addresses
    have an IP. *)
Definition ports_known (others : list EndpointSubset) (subsets : list EndpointSubset) : Prop :=
  Forall (fun ss =>
            Forall (fun prt => port_Port prt <> 0 /\ isPortInSubset others prt = true) (Ports ss) /\
            Forall (fun a => addr_IP a <> "") (Addresses ss)) subsets.

(** The two maps are what they were. *)
Definition maps_same (p q : proxy) : Prop :=
  serviceMap q = serviceMap p /\ endpointsMap q = endpointsMap p.

(** The key is in neither map (an absent and an empty entry of the
    endpoints map are the same to [addService]). *)
Definition unregistered (k : ServicePortName) (p : proxy) : Prop :=
  serviceMap p !! k = None /\ default [] (endpointsMap p !! k) = [].

(** If the port is in the service map, its flag is false and the virtual
    addresses of [b] are in the no-endpoints set of family [tf]. *)
Definition registered_without_endpoints (k : ServicePortName) (tf : TableFamily)
    (b : BaseServiceInfo) (p : proxy) : Prop :=
  match serviceMap p !! k with
  | Some info =>
      WithEndpoints (svcnft (base info)) = false /\
      Forall (fun ip => (tf, protocol b, ip, uint16 (port b)) ∈ noEndpoints (nfti p))
             (virtualAddresses b)
  | None => True
  end.

(** Started where the key is unregistered, [m] ends as above. *)
Definition settles (k : ServicePortName) (tf : TableFamily) (b : BaseServiceInfo)
    (m : M unit) : Prop :=
  forall p p', unregistered k p -> m p = Ret tt p' -> registered_without_endpoints k tf b p'.

(** The same port, but for the chains recorded. *)
Definition same_port (b b' : BaseServiceInfo) : Prop :=
  clusterIP b' = clusterIP b /\ port b' = port b /\ protocol b' = protocol b /\
  externalIPs b' = externalIPs b /\ loadBalancerIPs b' = loadBalancerIPs b /\
  WithEndpoints (svcnft b') = WithEndpoints (svcnft b).

(** The jumps installed in a chain, and the no-endpoints set. *)
Definition jumps_of (chain : string) (p : proxy) : list (option string) :=
  map kr_jump (filter (fun r => kr_chain r = chain) (ruleset (nfti p))).

Definition rejected (p : proxy) : list (TableFamily * string * string * Z) :=
  elements (noEndpoints (nfti p)).

(** ** The object cache, for every kind of object ([cache.go])

    The cache keeps three maps, of services, of endpoints and of endpoint
    slices, and the same four methods for each of them; the methods of a
    kind read and write the map of that kind only.  The handlers call the
    methods of the endpoint slices, which are above; here the four are
    written once for a kind of object, and the twelve of the source are
    their instances. *)

(** [metav1.ObjectMeta], the fields the cache reads. *)
Record ObjectMeta := mkObjectMeta {
  om_Name : string;
  om_Namespace : string;
  om_ResourceVersion : string
}.

Definition EndpointSlice_meta (epsl : EndpointSlice) : ObjectMeta :=
  mkObjectMeta (epsl_Name epsl) (epsl_Namespace epsl) (epsl_ResourceVersion epsl).

Module cachego.

Section Kind.

(** One kind of object: its type, how its metadata is read, and the word
    the messages use for it. *)
Context {Obj : Type} (meta : Obj -> ObjectMeta) (kind : string).

(** The key an object is stored under. *)
Definition keyOf (o : Obj) : NamespacedName :=
  mkNamespacedName (om_Namespace (meta o)) (om_Name (meta o)).

Definition getCachedVersion (m : gmap NamespacedName Obj) (name namespace : string)
    : Err + string :=
  match m !! mkNamespacedName namespace name with
  | None => inl (NotFound kind (mkNamespacedName namespace name))
  | Some o => inr (om_ResourceVersion (meta o))
  end.

Definition getLastKnownFromCache (m : gmap NamespacedName Obj) (name namespace : string)
    : Err + Obj :=
  match m !! mkNamespacedName namespace name with
  | None => inl (NotFound kind (mkNamespacedName namespace name))
  | Some o => inr o
  end.

(** The stored object is a deep copy: a value of its own. *)
Definition storeInCache (m : gmap NamespacedName Obj) (o : Obj) : gmap NamespacedName Obj :=
  <[ mkNamespacedName (om_Namespace (meta o)) (om_Name (meta o)) := o ]> m.

(** The map after the removal, and the lines logged. *)
Definition removeFromCache (m : gmap NamespacedName Obj) (name namespace : string)
    : gmap NamespacedName Obj * list LogEntry :=
  match m !! mkNamespacedName namespace name with
  | Some _ => (delete (mkNamespacedName namespace name) m, [])
  | None => (m, [Log Warning (kind +:+ " %s/%s not found in the cache") [namespace; name]])
  end.

End Kind.

Section Kinds.

(** [v1.Service] and [v1.Endpoints] with their metadata. *)
Context {S E : Type} (svcMeta : S -> ObjectMeta) (epMeta : E -> ObjectMeta).

Definition getCachedSvcVersion := getCachedVersion svcMeta "service".
Definition getLastKnownSvcFromCache := getLastKnownFromCache (Obj := S) "service".
Definition storeSvcInCache := storeInCache svcMeta.
Definition removeSvcFromCache := removeFromCache (Obj := S) "service".

Definition getCachedEpVersion := getCachedVersion epMeta "endpoint".
Definition getLastKnownEpFromCache := getLastKnownFromCache (Obj := E) "endpoint".
Definition storeEpInCache := storeInCache epMeta.
Definition removeEpFromCache := removeFromCache (Obj := E) "endpoint".

End Kinds.

End cachego.

(** ** Vocabulary of the further properties *)

(** *** The driver *)

(** The driver accepts the next call it gets. *)
Definition accepts (n : NFTInterface) : bool := negb (hd false (faults n)).

(** The driver after it was asked for [op] and did nothing else: a call it
    rejected, or one that changes nothing in the kernel. *)
Definition asked (op : Op) (n : NFTInterface) : NFTInterface :=
  {| chains := chains n; ruleset := ruleset n; noEndpoints := noEndpoints n;
     nextHandle := nextHandle n; faults := tail (faults n); issued := issued n ++ [op] |}.

(** A sequence of calls made one after the other until the driver rejects
    one: the calls made, and the error if any. *)
Fixpoint until_rejected (fs : list bool) (ops : list Op) : list Op * option Err :=
  match ops with
  | [] => ([], None)
  | op :: rest =>
      match fs with
      | true :: _ => ([op], Some (DriverError op))
      | _ => let r := until_rejected (tail fs) rest in (op :: fst r, snd r)
      end
  end.

(** The proxy's own fields are untouched. *)
Definition driver_only (p p' : proxy) : Prop :=
  serviceMap p' = serviceMap p /\ endpointsMap p' = endpointsMap p /\
  pcache p' = pcache p /\ hostname p' = hostname p /\ klog p' = klog p.

(** *** One endpoint *)

(** The table family [addEndpoint] and [deleteEndpoint] work in. *)
Definition familyOf (a : EndpointAddress) : TableFamily := snd (getIPFamily (addr_IP a)).

(** The entry the two build for a backend, before it has rules. *)
Definition endpointOf (host : string) (a : EndpointAddress) (prt : EndpointPort) : endpointsInfo :=
  newBaseEndpointInfo (fst (getIPFamily (addr_IP a))) (port_Protocol prt) (addr_IP a)
                      (port_Port prt) (isLocalTo host a).

(** The name of the backend's chain. *)
Definition endpointChain (k : ServicePortName) (a : EndpointAddress) (prt : EndpointPort) : string :=
  servicePortEndpointChainName (spn_String k) (port_Protocol prt)
                               (Endpoint (endpointOf "" a prt)).

(** The call [addEndpoint] starts with. *)
Definition OpAddEndpoint (k : ServicePortName) (a : EndpointAddress) (prt : EndpointPort) : Op :=
  OpAddEndpointRules (familyOf a) (endpointChain k a prt) (addr_IP a) (port_Protocol prt)
                     (port_Port prt).

(** The entry [addEndpoint] appends once the rules [ids] are installed. *)
Definition programmed (host : string) (k : ServicePortName) (a : EndpointAddress)
    (prt : EndpointPort) (ids : list handle) : endpointsInfo :=
  with_epnft (endpointOf host a prt) {[ familyOf a := mkRule (endpointChain k a prt) ids ]}.

(** The call that deletes the rules an entry recorded. *)
Definition OpDeleteRulesOf (tf : TableFamily) (r : Rule) : Op :=
  OpDeleteEndpointRules tf (Chain r) (RuleID r).

(** *** One service port *)

(** The calls of [addToNoEndpointsList] and [removeFromNoEndpointsList]
    for a port, when none is rejected. *)
Definition OpsAddToNoEndpoints (b : BaseServiceInfo) (tf : TableFamily) : list Op :=
  map (fun ip => OpAddToNoEndpointsList tf (protocol b) ip (uint16 (port b))) (virtualAddresses b).

Definition OpsRemoveFromNoEndpoints (b : BaseServiceInfo) (tf : TableFamily) : list Op :=
  map (fun ip => OpRemoveFromNoEndpointsList tf (protocol b) ip (uint16 (port b)))
      (virtualAddresses b).

(** The entry of a port with [rules] recorded for chain [cn]. *)
Definition recorded (tf : TableFamily) (cn : string) (rules : list handle)
    (entry : serviceInfo) : option serviceInfo :=
  match setRuleID tf cn (fun _ => rules) (base entry) with
  | Some b => Some {| base := b; serviceNameString := serviceNameString entry |}
  | None => None
  end.

(** The call that brings the dispatch rules of a service chain up to date. *)
Definition OpDispatch (tf : TableFamily) (cn : string) (epsChains : list string)
    (previous : list handle) : Op :=
  match epsChains with
  | [] => OpDeleteServiceRules tf cn previous
  | _ => OpProgramServiceEndpoints tf cn epsChains previous
  end.

(** Whatever returns from [m] ends in a state where [Q] holds. *)
Definition establishes {A} (Q : proxy -> Prop) (m : M A) : Prop :=
  forall p a p', m p = Ret a p' -> Q p'.

(** The calls that take a service port down. *)
Definition removes_service (op : Op) : bool :=
  match op with
  | OpRemoveFromNoEndpointsList _ _ _ _
  | OpDeleteServiceRules _ _ _
  | OpDeleteServiceChains _ _ => true
  | _ => false
  end.

(** The calls that set a service port up. *)
Definition builds_service (op : Op) : bool :=
  match op with
  | OpAddServiceChains _ _
  | OpProgramServiceClusterIP _ _ _ _ _
  | OpProgramServiceNodePort _ _ _ _
  | OpProgramServiceExternalIP _ _ _ _ _ _
  | OpProgramServiceLoadBalancerFW _ _
  | OpProgramServiceLoadBalancerIP _ _ _ _ _ _
  | OpAddToNoEndpointsList _ _ _ _ => true
  | _ => false
  end.

(** Between the two states the service map changed at the keys [ks] at
    most, the endpoints map, the cache and the host name not at all, and the
    driver was asked for [allowed] calls only. *)
Definition touches (ks : list ServicePortName) (allowed : Op -> bool) (p p' : proxy) : Prop :=
  (forall k, k ∉ ks -> serviceMap p' !! k = serviceMap p !! k) /\
  endpointsMap p' = endpointsMap p /\
  pcache p' = pcache p /\
  hostname p' = hostname p /\
  issues allowed p p'.

(** The keys of a service's ports, in the order of the ports. *)
Definition portKeys (svc : Service) : list ServicePortName :=
  map (fun sp => getSvcPortName (svc_Name svc) (svc_Namespace svc) (sp_Name sp) (sp_Protocol sp))
      (svc_Ports svc).

(** The service map holds the same keys. *)
Definition same_keys (p p' : proxy) : Prop :=
  forall k, is_Some (serviceMap p' !! k) <-> is_Some (serviceMap p !! k).

(** Started where the key [k] is registered, [m] keeps the keys. *)
Definition keeps_keys {A} (k : ServicePortName) (m : M A) : Prop :=
  forall p a p', is_Some (serviceMap p !! k) -> m p = Ret a p' -> same_keys p p'.

(** *** Endpoint slices *)

(** A port [processEpSlice] lists: it has a name, a protocol and a number
    other than 0. *)
Definition valid_port (p : SlicePort) : bool :=
  match slp_Name p, slp_Protocol p, slp_Port p with
  | Some _, Some _, Some n => negb (bool_decide (n = 0))
  | _, _, _ => false
  end.

(** The tuple listed for an endpoint, a port and one of the endpoint's
    addresses. *)
Definition tupleOf (svcName namespace : string) (e : SliceEndpoint) (p : SlicePort)
    (a : string) : epInfo :=
  {| name := getSvcPortName svcName namespace (default "" (slp_Name p))
                            (default "" (slp_Protocol p));
     addr := {| addr_IP := a;
                addr_Hostname := default "" (se_Hostname e);
                addr_NodeName := se_Hostname e;
                addr_TargetRef := se_TargetRef e |};
     eport := {| port_Name := default "" (slp_Name p);
                 port_Port := default 0 (slp_Port p);
                 port_Protocol := default "" (slp_Protocol p) |};
     ready := default false (se_Ready e) |}.

(** The tuples of an endpoint: port by port, and address by address for
    each port. *)
Definition tuplesOf (svcName namespace : string) (ps : list SlicePort) (e : SliceEndpoint)
    : list epInfo :=
  flat_map (fun p => map (tupleOf svcName namespace e p) (se_Addresses e)) ps.

(** The tuples of a slice, endpoint by endpoint; none without the service
    name label. *)
Definition listing (epsl : EndpointSlice) : list epInfo :=
  match epsl_Labels epsl !! LabelServiceName with
  | Some svcName =>
      flat_map (tuplesOf svcName (epsl_Namespace epsl) (epsl_Ports epsl)) (epsl_Endpoints epsl)
  | None => []
  end.

(** An endpoint whose addresses can be listed: it has a Ready condition,
    or no address at all. *)
Definition listable (e : SliceEndpoint) : bool :=
  match se_Addresses e, se_Ready e with
  | _ :: _, None => false
  | _, _ => true
  end.

(** The cache and the host name are what they were. *)
Definition same_cache (p p' : proxy) : Prop :=
  pcache p' = pcache p /\ hostname p' = hostname p.

(** Whether a result is a value. *)
Definition is_ok {A} (r : res A) : bool :=
  match r with ROk _ => true | _ => false end.

(** *** Runs *)

(** What an event does to the cache of slices. *)
Definition cache_after (m : gmap NamespacedName EndpointSlice) (ev : Event)
    : gmap NamespacedName EndpointSlice :=
  match ev with
  | EvAddEndpointSlice s => <[ slice_key s := s ]> m
  | EvDeleteEndpointSlice s =>
      if is_ok (processEpSlice s) then delete (slice_key s) m else m
  | EvUpdateEndpointSlice _ s =>
      if is_ok (processEpSlice s) then <[ slice_key s := s ]> m else m
  | _ => m
  end.

(** An event about endpoints or endpoint slices. *)
Definition endpoint_event (ev : Event) : bool :=
  match ev with
  | EvAddService _ | EvDeleteService _ | EvUpdateService _ _ => false
  | _ => true
  end.

(** *** More sample objects *)

Module Cases.

(** An IPv6 backend for the IPv4 service of [Sample]. *)
Definition a6 : EndpointAddress := mkEndpointAddress "fd00::5" "" None None.

(** A slice whose second port has the number 0. *)
Definition bad_port : EndpointSlice :=
  mkEndpointSlice "default" "web-abc" "1" {[ LabelServiceName := "web" ]} "IPv4"
                  [Sample.se "10.244.1.5" true]
                  [mkSlicePort (Some "http") (Some "TCP") (Some 8080);
                   mkSlicePort (Some "bad") (Some "TCP") (Some 0)].

(** A proxy whose driver rejects the first call it gets. *)
Definition refusing_proxy : proxy := NewProxy (pristine [true]) "node1".

(** The sample service registered on a fresh proxy. *)
Definition with_web : proxy :=
  Sample.state_after [EvAddService (Some Sample.web)] Sample.fresh_proxy.

(** The entry of the sample port in [with_web], its chains and its rule. *)
Definition web_entry : serviceInfo :=
  default (newServiceInfo Sample.http Sample.web (newBaseServiceInfo Sample.http Sample.web))
          (serviceMap with_web !! Sample.key).
Definition web_chains : SVCChain :=
  default (mkSVCChain "" ∅) (Chains (svcnft (base web_entry)) !! TableFamilyIPv4).
Definition web_rule : Rule :=
  default (mkRule "" []) (svc_Chain web_chains !! (K8sSvcPrefix +:+ ServiceID web_chains)).

End Cases.

(** * Properties *)

(** ** Chain names *)

Section ChainNames.

Import Hash.

Lemma be_bytes_length n x : List.length (be_bytes n x) = n.
Proof. unfold be_bytes. now rewrite length_map, length_rev, length_seq. Qed.

(** A checksum has 32 bytes, whatever the data. *)
Lemma Sum256_length data : List.length (Sum256 data) = 32%nat.
Proof.
  unfold Sum256, digest_bytes.
  rewrite !length_app, !be_bytes_length. reflexivity.
Qed.

Lemma string_of_list_ascii_length l :
  String.length (string_of_list_ascii l) = List.length l.
Proof. induction l as [|c l IH]; simpl; congruence. Qed.

Lemma substring_string_of_list n l :
  (n <= List.length l)%nat ->
  substring 0 n (string_of_list_ascii l) = string_of_list_ascii (firstn n l).
Proof.
  revert l. induction n as [|n IH]; intros l Hn.
  - destruct l; reflexivity.
  - destruct l as [|c l]; simpl in Hn; [lia|].
    simpl. rewrite IH by lia. reflexivity.
Qed.

(** The first 16 characters of the encoding of 32 bytes: two full quanta,
    read from the first ten bytes. *)
Lemma encode_32 (src : list Z) :
  List.length src = 32%nat ->
  List.length (encode src) = 56%nat /\
  exists b0 b1 b2 b3 b4 b5 b6 b7 b8 b9,
    firstn 16 (encode src) = quantum b0 b1 b2 b3 b4 ++ quantum b5 b6 b7 b8 b9.
Proof.
  intros Hlen.
  do 32 (destruct src as [|? src]; [discriminate Hlen|]).
  destruct src; [|discriminate Hlen].
  split; [reflexivity|].
  do 10 eexists. reflexivity.
Qed.

Lemma b32char_upper v : upper_base32 (b32char v).
Proof.
  unfold b32char, upper_base32.
  assert (Hr : 0 <= Z.land v 31 < 32).
  { change 31 with (Z.ones 5). rewrite Z.land_ones by lia.
    apply Z.mod_pos_bound. reflexivity. }
  set (i := Z.land v 31) in *. clearbody i.
  assert (Hn : (Z.to_nat i < 32)%nat) by lia.
  set (n := Z.to_nat i) in *. clearbody n. clear Hr.
  do 32 (destruct n as [|n]; [vm_compute; repeat first [left; reflexivity | right]|]).
  lia.
Qed.

Lemma quantum_upper b0 b1 b2 b3 b4 : Forall upper_base32 (quantum b0 b1 b2 b3 b4).
Proof.
  unfold quantum.
  repeat (apply List.Forall_cons; [apply b32char_upper|]). apply List.Forall_nil.
Qed.

(** The identifier cut from a checksum: 16 characters of the alphabet. *)
Lemma prefix16_checksum data :
  (16 <= String.length (EncodeToString (Sum256 data)))%nat /\
  String.length (prefix16 (EncodeToString (Sum256 data))) = 16%nat /\
  Forall upper_base32 (list_ascii_of_string (prefix16 (EncodeToString (Sum256 data)))).
Proof.
  destruct (encode_32 (Sum256 data) (Sum256_length data))
    as [Hlen (b0 & b1 & b2 & b3 & b4 & b5 & b6 & b7 & b8 & b9 & Hfirst)].
  unfold prefix16, EncodeToString.
  rewrite string_of_list_ascii_length, Hlen.
  rewrite substring_string_of_list by lia.
  rewrite string_of_list_ascii_length, list_ascii_of_string_of_list_ascii, Hfirst.
  split; [lia|]. split; [reflexivity|].
  apply Forall_app; split; apply quantum_upper.
Qed.

End ChainNames.

(** C8.  Both chain-name functions are the prefix followed by the first 16
    base32 characters of the SHA-256 checksum of their arguments put end
    to end; the identifier has 16 characters of the upper-case alphabet,
    and the names are functions of the arguments alone. *)
Theorem chain_names_spec (servicePortName protocol endpoint : string) :
  let svcsum := Hash.Sum256 (Hash.bytes_of_string (servicePortName +:+ protocol)) in
  let sepsum := Hash.Sum256 (Hash.bytes_of_string (servicePortName +:+ protocol +:+ endpoint)) in
  let svcid := substring 0 16 (Hash.EncodeToString svcsum) in
  let sepid := substring 0 16 (Hash.EncodeToString sepsum) in
  portProtoHash servicePortName protocol = "k8s-nfproxy-svc-" +:+ svcid /\
  servicePortEndpointChainName servicePortName protocol endpoint = "k8s-nfproxy-sep-" +:+ sepid /\
  (16 <= String.length (Hash.EncodeToString svcsum))%nat /\
  (16 <= String.length (Hash.EncodeToString sepsum))%nat /\
  String.length svcid = 16%nat /\ String.length sepid = 16%nat /\
  Forall upper_base32 (list_ascii_of_string svcid) /\
  Forall upper_base32 (list_ascii_of_string sepid).
Proof.
  intros svcsum sepsum svcid sepid.
  destruct (prefix16_checksum (Hash.bytes_of_string (servicePortName +:+ protocol)))
    as (A1 & A2 & A3).
  destruct (prefix16_checksum
              (Hash.bytes_of_string (servicePortName +:+ protocol +:+ endpoint)))
    as (B1 & B2 & B3).
  split; [unfold portProtoHash, prefix16; reflexivity|].
  split; [unfold servicePortEndpointChainName, prefix16; reflexivity|].
  split; [exact A1|]. split; [exact B1|].
  split; [exact A2|]. split; [exact B2|].
  split; [exact A3|exact B3].
Qed.

(** The constants, the checksum and the names on known inputs. *)
Example K256_ends : hd 0 Hash.K256 = 0x428a2f98 /\ last Hash.K256 = Some 0xc67178f2.
Proof. vm_compute. split; reflexivity. Qed.

Example init256_ends : Hash.hA Hash.init256 = 0x6a09e667 /\ Hash.hH Hash.init256 = 0x5be0cd19.
Proof. vm_compute. split; reflexivity. Qed.

Example Sum256_abc :
  Hash.Sum256 (Hash.bytes_of_string "abc") =
  [ 0xba; 0x78; 0x16; 0xbf; 0x8f; 0x01; 0xcf; 0xea; 0x41; 0x41; 0x40; 0xde; 0x5d; 0xae;
    0x22; 0x23; 0xb0; 0x03; 0x61; 0xa3; 0x96; 0x17; 0x7a; 0x9c; 0xb4; 0x10; 0xff; 0x61;
    0xf2; 0x00; 0x15; 0xad ].
Proof. vm_compute. reflexivity. Qed.

Example EncodeToString_foob : Hash.EncodeToString (Hash.bytes_of_string "foob") = "MZXW6YQ=".
Proof. vm_compute. reflexivity. Qed.

Example portProtoHash_web :
  portProtoHash "default/web:http" "TCP" = "k8s-nfproxy-svc-TL6HGMALSKADNKEV".
Proof. vm_compute. reflexivity. Qed.

Example servicePortEndpointChainName_web :
  servicePortEndpointChainName "default/web:http" "TCP" "10.244.1.5:8080"
  = "k8s-nfproxy-sep-OM5X27EWBRVP7ZDE".
Proof. vm_compute. reflexivity. Qed.

(** ** The scenarios of the specification *)

(** Scenario 1: one service, one endpoint.  The service chain has one jump
    to the endpoint chain, the dispatcher jumps to the service chain, the
    no-endpoints set is empty. *)
Example single_endpoint_cluster_IP :
  let p := Sample.state_after [EvAddService (Some Sample.web); EvAddEndpoints Sample.ep_one]
                              Sample.fresh_proxy in
  jumps_of Sample.svc_chain p = [Some Sample.sep1] /\
  jumps_of K8sNATServices p = [Some Sample.svc_chain] /\
  rejected p = [].
Proof. vm_compute. repeat split. Qed.

(** Scenario 2: the endpoint goes not ready, then ready again.  The
    service chain loses its jump and the service enters the no-endpoints
    set; then the entry leaves the set and the jump is back. *)
Example endpoint_not_ready_then_ready :
  let p1 := Sample.state_after [EvAddService (Some Sample.web);
                                EvAddEndpointSlice Sample.one_ready;
                                EvUpdateEndpointSlice Sample.one_ready Sample.not_ready]
                               Sample.fresh_proxy in
  let p2 := Sample.state_after [EvUpdateEndpointSlice Sample.not_ready Sample.ready_again] p1 in
  jumps_of Sample.svc_chain p1 = [] /\
  rejected p1 = [(TableFamilyIPv4, "TCP", "10.96.0.10", 80)] /\
  jumps_of Sample.svc_chain p2 = [Some Sample.sep1] /\
  rejected p2 = [].
Proof. vm_compute. repeat split. Qed.

(** ** Reading outcomes *)

Lemma has_default {A} (o : option A) (d : A) : has o = true -> o = Some (default d o).
Proof. destruct o; [reflexivity|discriminate]. Qed.

Lemma outcome_eta {A} (o : outcome A) (a : A) (d : proxy) :
  value_of o = Some a -> o = Ret a (state_of o d).
Proof. destruct o; cbn; [intros [= ->]; reflexivity|discriminate]. Qed.

(** ** Sequencing *)

Lemma bind_unfold {A B} (m : M A) (k : A -> M B) (p : proxy) :
  bind m k p = match m p with Ret a p' => k a p' | Fault => Fault end.
Proof. reflexivity. Qed.

Lemma bind_ret_r (m : M unit) (p : proxy) : (m ;; ret tt) p = m p.
Proof. rewrite bind_unfold. destruct (m p) as [[] q|]; reflexivity. Qed.

Lemma forEach_ext {A} (l : list A) (f g : A -> M unit) :
  (forall x p, f x p = g x p) -> forall p, forEach l f p = forEach l g p.
Proof.
  intros Hfg. induction l as [|x l IH]; intros p; cbn [forEach]; [reflexivity|].
  rewrite !bind_unfold, Hfg. destruct (g x p) as [[] q|]; [apply IH|reflexivity].
Qed.

Lemma forEach_app {A} (l1 l2 : list A) (f : A -> M unit) (p : proxy) :
  forEach (l1 ++ l2) f p = (forEach l1 f ;; forEach l2 f) p.
Proof.
  revert p. induction l1 as [|x l1 IH]; intros p; cbn [forEach app]; [reflexivity|].
  rewrite !bind_unfold. destruct (f x p) as [[] q|]; [|reflexivity].
  rewrite IH, bind_unfold. reflexivity.
Qed.

Lemma forEach_flat_map {A B} (g : A -> list B) (l : list A) (f : B -> M unit) (p : proxy) :
  forEach (flat_map g l) f p = forEach l (fun x => forEach (g x) f) p.
Proof.
  revert p. induction l as [|x l IH]; intros p; cbn [forEach flat_map]; [reflexivity|].
  rewrite forEach_app, !bind_unfold.
  destruct (forEach (g x) f p) as [[] q|]; [apply IH|reflexivity].
Qed.

(** ** What every step of a handler preserves *)

Section Preservation.

Variable R : proxy -> proxy -> Prop.
Hypothesis R_refl : forall p, R p p.
Hypothesis R_trans : forall p q r, R p q -> R q r -> R p r.

Lemma preserves_ret {A} (a : A) : preserves R (ret a).
Proof. intros p b p' H. injection H as _ <-. apply R_refl. Qed.

Lemma preserves_fault {A} : preserves R (@fault A).
Proof. intros p b p' H. discriminate H. Qed.

Lemma preserves_gets {A} (f : proxy -> A) : preserves R (gets f).
Proof. intros p b p' H. injection H as _ <-. apply R_refl. Qed.

Lemma preserves_deref {A} (o : option A) : preserves R (deref o).
Proof. destruct o; [apply preserves_ret|apply preserves_fault]. Qed.

Lemma preserves_bind {A B} (m : M A) (k : A -> M B) :
  preserves R m -> (forall a, preserves R (k a)) -> preserves R (bind m k).
Proof.
  intros Hm Hk p b p' H. unfold bind in H.
  destruct (m p) as [a q|] eqn:Hmp; [|discriminate H].
  eapply R_trans; [eapply Hm, Hmp|eapply Hk, H].
Qed.

Lemma preserves_forEach {A} (l : list A) (body : A -> M unit) :
  (forall x, preserves R (body x)) -> preserves R (forEach l body).
Proof.
  intros Hb. induction l as [|x l IH]; cbn.
  - apply preserves_ret.
  - apply preserves_bind; [apply Hb|intros _; apply IH].
Qed.

End Preservation.

Lemma attempt_issued op n : issued (snd (attempt op n)) = issued n ++ [op].
Proof. unfold attempt. destruct (faults n) as [|[] ?]; reflexivity. Qed.

Lemma install_issued op k place touch n :
  issued (snd (install op k place touch n)) = issued n ++ [op].
Proof.
  unfold install. pose proof (attempt_issued op n) as H.
  destruct (attempt op n) as [[] n1]; cbn in *; exact H.
Qed.

Lemma perform_issued op effect n :
  (forall m, issued (effect m) = issued m) ->
  issued (snd (perform op effect n)) = issued n ++ [op].
Proof.
  intros He. unfold perform. pose proof (attempt_issued op n) as H.
  destruct (attempt op n) as [[] n1]; cbn in *; [rewrite He|]; exact H.
Qed.

Lemma driver_issued {A} (call : NFTInterface -> A * NFTInterface) (op : Op) :
  (forall n, issued (snd (call n)) = issued n ++ [op]) ->
  forall p a p', driver call p = Ret a p' ->
    issued (nfti p') = issued (nfti p) ++ [op] /\
    pcache p' = pcache p /\ hostname p' = hostname p /\
    endpointsMap p' = endpointsMap p /\ serviceMap p' = serviceMap p.
Proof.
  intros Hcall p a p' H. unfold driver in H. specialize (Hcall (nfti p)).
  destruct (call (nfti p)) as [b n]. injection H as _ <-. cbn in *.
  repeat split. exact Hcall.
Qed.

Lemma DeleteEndpointRules_issued tf cn ids n :
  issued (snd (DeleteEndpointRules tf cn ids n)) = issued n ++ [OpDeleteEndpointRules tf cn ids].
Proof. apply perform_issued. reflexivity. Qed.

Lemma DeleteChain_issued tf cn n :
  issued (snd (DeleteChain tf cn n)) = issued n ++ [OpDeleteChain tf cn].
Proof. apply perform_issued. reflexivity. Qed.

Section Within.

Variable allowed : Op -> bool.

Lemma issues_refl p : issues allowed p p.
Proof. exists []. split; [now rewrite app_nil_r|constructor]. Qed.

Lemma issues_trans p q r : issues allowed p q -> issues allowed q r -> issues allowed p r.
Proof.
  intros (ops1 & I1 & F1) (ops2 & I2 & F2). exists (ops1 ++ ops2). split.
  - now rewrite I2, I1, app_assoc.
  - apply Forall_app; split; assumption.
Qed.

Lemma endpoints_kept_refl p q : endpointsMap q = endpointsMap p -> endpoints_kept p q.
Proof. intros E k eps H. exists []. now rewrite app_nil_r, E. Qed.

(** States that differ in the service map and the log only. *)
Lemma within_same p q :
  pcache q = pcache p -> hostname q = hostname p ->
  endpointsMap q = endpointsMap p -> nfti q = nfti p ->
  within allowed p q.
Proof.
  intros C H E N. repeat split; [exact C|exact H|apply endpoints_kept_refl, E|].
  exists []. split; [now rewrite app_nil_r, N|constructor].
Qed.

Lemma within_refl p : within allowed p p.
Proof. apply within_same; reflexivity. Qed.

Lemma within_trans p q r : within allowed p q -> within allowed q r -> within allowed p r.
Proof.
  intros (C1 & H1 & E1 & I1) (C2 & H2 & E2 & I2).
  repeat split; try congruence.
  - intros k eps Hk. destruct (E1 k eps Hk) as [m1 Hq].
    destruct (E2 k _ Hq) as [m2 Hr]. exists (m1 ++ m2). now rewrite app_assoc.
  - eapply issues_trans; eassumption.
Qed.

Lemma within_issues p q : within allowed p q -> issues allowed p q.
Proof. intros (_ & _ & _ & H). exact H. Qed.

(** A driver call that issues exactly [op]. *)
Lemma within_driver {A} (call : NFTInterface -> A * NFTInterface) (op : Op) :
  allowed op = true ->
  (forall n, issued (snd (call n)) = issued n ++ [op]) ->
  preserves (within allowed) (driver call).
Proof.
  intros Hop Hcall p a p' H.
  destruct (driver_issued call op Hcall p a p' H) as (I & C & Hh & E & _).
  repeat split; [exact C|exact Hh|apply endpoints_kept_refl, E|].
  exists [op]. split; [exact I|]. constructor; [exact Hop|constructor].
Qed.

Lemma within_logf sev fmt a : preserves (within allowed) (logf sev fmt a).
Proof. intros p [] p' H. injection H as <-. apply within_same; reflexivity. Qed.

Lemma within_set_serviceMap (f : proxy -> gmap ServicePortName serviceInfo) :
  preserves (within allowed) (modify (fun p => set_serviceMap (f p) p)).
Proof. intros p [] p' H. injection H as <-. apply within_same; reflexivity. Qed.

Lemma within_append k info :
  preserves (within allowed)
    (modify (fun p => set_endpointsMap
                        (<[ k := default [] (endpointsMap p !! k) ++ [info] ]> (endpointsMap p)) p)).
Proof.
  intros p [] p' H. injection H as <-. repeat split.
  2: { exists []. split; [now rewrite app_nil_r|constructor]. }
  intros k' eps Hk. cbn. destruct (decide (k = k')) as [<-|Hne].
  - rewrite lookup_insert_eq, Hk. now exists [info].
  - rewrite lookup_insert_ne by exact Hne. exists []. now rewrite app_nil_r.
Qed.

Ltac within_step :=
  first
    [ apply (preserves_bind (within allowed) within_trans)
    | apply (preserves_ret (within allowed) within_refl)
    | apply (preserves_gets (within allowed) within_refl)
    | apply (preserves_deref (within allowed) within_refl)
    | apply (preserves_fault (within allowed))
    | apply within_logf
    | apply within_set_serviceMap
    | apply within_append ].

Section NoEndpointsList.

(** Both lists are walked the same way; [op ip] is the call issued for
    [ip]. *)
Variable call : string -> NFTInterface -> option Err * NFTInterface.
Variable op : string -> Op.
Hypothesis call_issued : forall ip n, issued (snd (call ip n)) = issued n ++ [op ip].
Hypothesis op_allowed : forall ip, allowed (op ip) = true.

Lemma within_eachNoEndpoints ips : preserves (within allowed) (eachNoEndpoints call ips).
Proof.
  induction ips as [|ip ips IH]; cbn [eachNoEndpoints].
  - within_step.
  - within_step.
    + apply (within_driver _ (op ip)); [apply op_allowed|apply call_issued].
    + intros [err|]; [within_step|exact IH].
Qed.

End NoEndpointsList.

Section ServiceChain.

Hypothesis allowed_service_chain : forall op, service_chain_op op = true -> allowed op = true.

Lemma within_removeFromNoEndpointsList b tf :
  preserves (within allowed) (removeFromNoEndpointsList b tf).
Proof.
  assert (Hlist : forall ips,
            preserves (within allowed)
              (eachNoEndpoints (fun ip => RemoveFromNoEndpointsList tf (protocol b) ip
                                            (uint16 (port b))) ips)).
  { intros ips.
    apply (within_eachNoEndpoints _
             (fun ip => OpRemoveFromNoEndpointsList tf (protocol b) ip (uint16 (port b)))).
    - intros ip n. apply perform_issued. reflexivity.
    - intros ip. apply allowed_service_chain. reflexivity. }
  unfold removeFromNoEndpointsList. within_step.
  - apply (within_driver _ (OpRemoveFromNoEndpointsList tf (protocol b) (ClusterIP_String b)
                                                        (uint16 (port b)))).
    + apply allowed_service_chain. reflexivity.
    + intros n. apply perform_issued. reflexivity.
  - intros [err|]; [within_step|]. within_step; [apply Hlist|].
    intros [err|]; [within_step|apply Hlist].
Qed.

Lemma within_storeSvcRules k tf cn rules :
  preserves (within allowed) (storeSvcRules k tf cn rules).
Proof.
  unfold storeSvcRules.
  within_step; [within_step|intros sm].
  within_step; [within_step|intros entry].
  within_step; [within_step|intros b]. within_step.
Qed.

(** [UpdateServiceChain] asks the driver for its own three kinds of calls
    and touches neither the endpoints map nor the cache. *)
Lemma within_UpdateServiceChain k tf : preserves (within allowed) (UpdateServiceChain k tf).
Proof.
  unfold UpdateServiceChain.
  within_step; [within_step|intros sm].
  destruct (sm !! k) as [entry|]; [|within_step].
  within_step.
  { destruct (negb (WithEndpoints (svcnft (base entry)))); [|within_step].
    within_step; [apply within_removeFromNoEndpointsList|].
    intros [err|]; within_step. }
  intros _. unfold getServicePortEndpointChains.
  within_step; [within_step; [within_step|intros em; within_step]|intros epsChains].
  within_step; [within_step|intros sc].
  within_step; [within_step|intros svcRules].
  destruct (bool_decide (List.length epsChains ≠ 0%nat)).
  - within_step.
    + apply (within_driver _ (OpProgramServiceEndpoints tf (K8sSvcPrefix +:+ ServiceID sc)
                                                        epsChains (RuleID svcRules))).
      * apply allowed_service_chain. reflexivity.
      * intros n. apply install_issued.
    + intros [err|rules].
      * within_step; [within_step|intros _; within_step].
      * within_step; [apply within_storeSvcRules|intros _; within_step].
  - within_step.
    + apply (within_driver _ (OpDeleteServiceRules tf (K8sSvcPrefix +:+ ServiceID sc)
                                                   (RuleID svcRules))).
      * apply allowed_service_chain. reflexivity.
      * intros n. apply perform_issued. reflexivity.
    + intros [err|].
      * within_step; [within_step|intros _; within_step].
      * within_step; [apply within_storeSvcRules|intros _; within_step].
Qed.

Section Adding.

Hypothesis allowed_add_rules :
  forall tf cn ip proto prt, allowed (OpAddEndpointRules tf cn ip proto prt) = true.

Lemma within_addEndpoint k a prt : preserves (within allowed) (addEndpoint k a prt).
Proof.
  unfold addEndpoint.
  within_step; [within_step|intros host].
  destruct (getIPFamily (addr_IP a)) as [ipFamily ipTableFamily].
  within_step.
  - unfold addEndpointRule.
    eapply within_driver; [apply allowed_add_rules|]. intros n. apply install_issued.
  - intros [err|ruleIDs]; [within_step|].
    within_step; [within_step|intros _].
    within_step; [apply within_UpdateServiceChain|].
    intros [err|]; [|within_step].
    within_step; [within_step|intros _; within_step].
Qed.

End Adding.

End ServiceChain.

Section Filling.

Hypothesis allowed_fill : forall op, fills_no_endpoints op = true -> allowed op = true.

Lemma within_addToNoEndpointsList b tf :
  preserves (within allowed) (addToNoEndpointsList b tf).
Proof.
  assert (Hlist : forall ips,
            preserves (within allowed)
              (eachNoEndpoints (fun ip => AddToNoEndpointsList tf (protocol b) ip
                                            (uint16 (port b))) ips)).
  { intros ips.
    apply (within_eachNoEndpoints _
             (fun ip => OpAddToNoEndpointsList tf (protocol b) ip (uint16 (port b)))).
    - intros ip n. apply perform_issued. reflexivity.
    - intros ip. apply allowed_fill. reflexivity. }
  unfold addToNoEndpointsList. within_step.
  - apply (within_driver _ (OpAddToNoEndpointsList tf (protocol b) (ClusterIP_String b)
                                                   (uint16 (port b)))).
    + apply allowed_fill. reflexivity.
    + intros n. apply perform_issued. reflexivity.
  - intros [err|]; [within_step|]. within_step; [apply Hlist|].
    intros [err|]; [within_step|apply Hlist].
Qed.

End Filling.

End Within.

Lemma only_adds_refl p : only_adds p p.
Proof. apply within_refl. Qed.

Lemma only_adds_trans p q r : only_adds p q -> only_adds q r -> only_adds p r.
Proof. apply within_trans. Qed.

(** Whatever it returns, [addEndpoint] undoes nothing. *)
Lemma only_adds_addEndpoint k a prt : preserves only_adds (addEndpoint k a prt).
Proof.
  apply within_addEndpoint.
  - intros op Hop. destruct op; (discriminate Hop || reflexivity).
  - reflexivity.
Qed.

(** ** Nil services *)

(** C10.  On a nil service, [AddService] and [DeleteService] fault: the
    log line reads the namespace and the name through the pointer before
    the nil test, which is therefore never reached with nil. *)
Theorem nil_service_faults (p : proxy) :
  AddService None p = Fault /\ DeleteService None p = Fault.
Proof. split; reflexivity. Qed.

(** ** Duplicate services *)

(** C7.  [addService] on a key that the service map already holds logs one
    warning and changes nothing else: the service map, the endpoints map,
    the driver state (chains, rules, no-endpoints set, and no call issued)
    and the cache are what they were. *)
Theorem addService_duplicate (p : proxy) (svcPortName : ServicePortName)
    (servicePort : ServicePortSpec) (svc : Service) (baseSvcInfo : BaseServiceInfo)
    (existing : serviceInfo) :
  serviceMap p !! svcPortName = Some existing ->
  exists p',
    addService svcPortName servicePort svc baseSvcInfo p = Ret tt p' /\
    serviceMap p' = serviceMap p /\
    endpointsMap p' = endpointsMap p /\
    nfti p' = nfti p /\
    pcache p' = pcache p /\
    hostname p' = hostname p /\
    klog p' = klog p ++ [Log Warning "Service port name %+v already exists"
                             [spn_String svcPortName]].
Proof.
  intros Hin. unfold addService, bind, gets. rewrite Hin.
  eexists. split; [reflexivity|]. repeat split.
Qed.

Lemma addService_duplicate_witness :
  let p := Sample.state_after [EvAddService (Some Sample.web)] Sample.fresh_proxy in
  let existing := default (newServiceInfo Sample.http Sample.web
                                          (newBaseServiceInfo Sample.http Sample.web))
                          (serviceMap p !! Sample.key) in
  serviceMap p !! Sample.key = Some existing /\
  exists p',
    addService Sample.key Sample.http Sample.web
               (newBaseServiceInfo Sample.http Sample.web) p = Ret tt p' /\
    serviceMap p' = serviceMap p /\
    endpointsMap p' = endpointsMap p /\
    nfti p' = nfti p /\
    pcache p' = pcache p /\
    hostname p' = hostname p /\
    klog p' = klog p ++ [Log Warning "Service port name %+v already exists"
                             [spn_String Sample.key]].
Proof.
  intros p existing.
  assert (Hin : serviceMap p !! Sample.key = Some existing)
    by (apply has_default; vm_compute; reflexivity).
  split; [exact Hin|].
  exact (addService_duplicate p Sample.key Sample.http Sample.web
           (newBaseServiceInfo Sample.http Sample.web) existing Hin).
Defined.

(** ** The previous slice of an update *)

Lemma lastKnownEpSl_cached (epslOld epslNew cached : EndpointSlice) (p : proxy) :
  epslCache (pcache p) !! slice_key epslNew = Some cached ->
  lastKnownEpSl epslOld epslNew p =
  Ret cached
      (if bool_decide (epsl_ResourceVersion epslOld ≠ epsl_ResourceVersion cached)
       then set_klog (klog p ++ [mismatch_warning epslOld epslNew cached]) p
       else p).
Proof.
  unfold slice_key. intros Hc.
  unfold lastKnownEpSl, getCachedEpSlVersion, getLastKnownEpSlFromCache, bind, gets.
  rewrite Hc. cbn.
  destruct (bool_decide (epsl_ResourceVersion epslOld ≠ epsl_ResourceVersion cached));
    cbn; rewrite Hc; reflexivity.
Qed.

Lemma lastKnownEpSl_missing (epslOld epslNew : EndpointSlice) (p : proxy) :
  epslCache (pcache p) !! slice_key epslNew = None ->
  lastKnownEpSl epslOld epslNew p =
  Ret epslOld
      (set_klog (klog p ++
         [Log Error
              "UpdateEndpoint did not find Endpoint Slice %s/%s in cache, it is a bug, please file an issue"
              [epsl_Namespace epslNew; epsl_Name epslNew]]) p).
Proof.
  unfold slice_key. intros Hc.
  unfold lastKnownEpSl, getCachedEpSlVersion, bind, gets.
  rewrite Hc. reflexivity.
Qed.

(** C4, as amended.  The slice that stands for the previous state is the
    cached copy whenever the cache has one, whatever the two resource
    versions are, and the slice handed in only when the cache has none (an
    error is then logged); with a cached copy, the mismatch warning is
    logged exactly when the two versions differ.  Nothing but the log
    changes. *)
Theorem lastKnownEpSl_spec (epslOld epslNew : EndpointSlice) (p : proxy) :
  match epslCache (pcache p) !! slice_key epslNew with
  | Some cached =>
      lastKnownEpSl epslOld epslNew p =
      Ret cached
          (if bool_decide (epsl_ResourceVersion epslOld ≠ epsl_ResourceVersion cached)
           then set_klog (klog p ++ [mismatch_warning epslOld epslNew cached]) p
           else p)
  | None =>
      lastKnownEpSl epslOld epslNew p =
      Ret epslOld
          (set_klog (klog p ++
             [Log Error
                  "UpdateEndpoint did not find Endpoint Slice %s/%s in cache, it is a bug, please file an issue"
                  [epsl_Namespace epslNew; epsl_Name epslNew]]) p)
  end.
Proof.
  destruct (epslCache (pcache p) !! slice_key epslNew) as [cached|] eqn:Hc.
  - apply lastKnownEpSl_cached, Hc.
  - apply lastKnownEpSl_missing, Hc.
Qed.

(** C4 as stated fails: with version 5 in the cache and version 7 handed
    in, the cached copy is not newer, and it is used all the same. *)
Lemma lastKnownEpSl_uses_older_cached_copy :
  let cached := Sample.slice "5" [Sample.se "10.244.1.5" true] in
  let old := Sample.slice "7" [Sample.se "10.244.1.6" true] in
  let new := Sample.slice "8" [Sample.se "10.244.1.6" true] in
  let p := set_cache (mkCache {[ slice_key new := cached ]}) Sample.fresh_proxy in
  epslCache (pcache p) !! slice_key new = Some cached /\
  version_newer (epsl_ResourceVersion cached) (epsl_ResourceVersion old) = false /\
  cached <> old /\
  exists p', lastKnownEpSl old new p = Ret cached p'.
Proof.
  intros cached old new p.
  assert (Hc : epslCache (pcache p) !! slice_key new = Some cached)
    by apply lookup_singleton_eq.
  split; [exact Hc|]. split; [reflexivity|].
  split; [intros H; apply (f_equal epsl_ResourceVersion) in H; discriminate H|].
  eexists. apply lastKnownEpSl_cached, Hc.
Qed.

(** ** Services added after their endpoints *)

Ltac decide_by_computation :=
  match goal with
  | |- ?P => apply (bool_decide_eq_true_1 P); vm_compute; reflexivity
  end.

Lemma AddToNoEndpointsList_set tf proto ip prt n :
  noEndpoints n ⊆ noEndpoints (snd (AddToNoEndpointsList tf proto ip prt n)) /\
  (fst (AddToNoEndpointsList tf proto ip prt n) = None ->
   (tf, proto, ip, prt) ∈ noEndpoints (snd (AddToNoEndpointsList tf proto ip prt n))).
Proof.
  unfold AddToNoEndpointsList, perform, attempt.
  destruct (faults n) as [|[] ?]; cbn; split; try discriminate; set_solver.
Qed.

Lemma driver_AddToNoEndpointsList tf proto ip prt p e p' :
  driver (AddToNoEndpointsList tf proto ip prt) p = Ret e p' ->
  noEndpoints (nfti p) ⊆ noEndpoints (nfti p') /\
  (e = None -> (tf, proto, ip, prt) ∈ noEndpoints (nfti p')) /\
  serviceMap p' = serviceMap p /\ endpointsMap p' = endpointsMap p.
Proof.
  intros H. unfold driver in H.
  pose proof (AddToNoEndpointsList_set tf proto ip prt (nfti p)) as [Hsub Hin].
  destruct (AddToNoEndpointsList tf proto ip prt (nfti p)) as [e0 n].
  injection H as <- <-. cbn in *. auto.
Qed.

Lemma eachNoEndpoints_added tf proto prt ips : forall p p',
  eachNoEndpoints (fun ip => AddToNoEndpointsList tf proto ip prt) ips p = Ret None p' ->
  noEndpoints (nfti p) ⊆ noEndpoints (nfti p') /\
  Forall (fun ip => (tf, proto, ip, prt) ∈ noEndpoints (nfti p')) ips /\
  serviceMap p' = serviceMap p /\ endpointsMap p' = endpointsMap p.
Proof.
  induction ips as [|ip ips IH]; intros p p' H; cbn [eachNoEndpoints] in H.
  - injection H as <-. auto.
  - rewrite bind_unfold in H.
    destruct (driver (AddToNoEndpointsList tf proto ip prt) p) as [[err|] q|] eqn:Hd;
      try discriminate H.
    destruct (driver_AddToNoEndpointsList _ _ _ _ _ _ _ Hd) as (S1 & I1 & M1 & E1).
    destruct (IH _ _ H) as (S2 & F2 & M2 & E2).
    split; [etrans; eassumption|]. split; [|split; congruence].
    constructor; [apply S2, I1; reflexivity|exact F2].
Qed.

(** When [addToNoEndpointsList] returns no error, every virtual address of
    the port is in the set. *)
Lemma addToNoEndpointsList_added b tf p p' :
  addToNoEndpointsList b tf p = Ret None p' ->
  Forall (fun ip => (tf, protocol b, ip, uint16 (port b)) ∈ noEndpoints (nfti p'))
         (virtualAddresses b) /\
  serviceMap p' = serviceMap p /\ endpointsMap p' = endpointsMap p.
Proof.
  unfold addToNoEndpointsList, virtualAddresses. intros H. rewrite bind_unfold in H.
  destruct (driver (AddToNoEndpointsList tf (protocol b) (ClusterIP_String b)
                                         (uint16 (port b))) p) as [[err|] p1|] eqn:H1;
    try discriminate H.
  destruct (driver_AddToNoEndpointsList _ _ _ _ _ _ _ H1) as (S1 & I1 & M1 & E1).
  rewrite bind_unfold in H.
  destruct (eachNoEndpoints _ (externalIPs b) p1) as [[err|] p2|] eqn:H2; try discriminate H.
  destruct (eachNoEndpoints_added _ _ _ _ _ _ H2) as (S2 & F2 & M2 & E2).
  destruct (eachNoEndpoints_added _ _ _ _ _ _ H) as (S3 & F3 & M3 & E3).
  split; [|split; congruence].
  constructor; [apply S3, S2, I1; reflexivity|]. apply Forall_app. split; [|exact F3].
  eapply Forall_impl; [exact F2|]. intros ip Hip. apply S3, Hip.
Qed.

Lemma maps_same_refl p : maps_same p p.
Proof. split; reflexivity. Qed.

Lemma maps_same_trans p q r : maps_same p q -> maps_same q r -> maps_same p r.
Proof. intros [A1 A2] [B1 B2]. split; congruence. Qed.

Lemma maps_same_driver {A} (call : NFTInterface -> A * NFTInterface) :
  preserves maps_same (driver call).
Proof.
  intros p a p' H. unfold driver in H.
  destruct (call (nfti p)) as [r n]. injection H as _ <-. split; reflexivity.
Qed.

Lemma maps_same_eachNoEndpoints call ips : preserves maps_same (eachNoEndpoints call ips).
Proof.
  induction ips as [|ip ips IH]; cbn [eachNoEndpoints].
  - apply preserves_ret, maps_same_refl.
  - apply preserves_bind; [exact maps_same_trans|apply maps_same_driver|].
    intros [err|]; [apply preserves_ret, maps_same_refl|exact IH].
Qed.

Lemma maps_same_addToNoEndpointsList b tf : preserves maps_same (addToNoEndpointsList b tf).
Proof.
  unfold addToNoEndpointsList.
  apply preserves_bind; [exact maps_same_trans|apply maps_same_driver|].
  intros [err|]; [apply preserves_ret, maps_same_refl|].
  apply preserves_bind; [exact maps_same_trans|apply maps_same_eachNoEndpoints|].
  intros [err|]; [apply preserves_ret, maps_same_refl|apply maps_same_eachNoEndpoints].
Qed.

Lemma setRuleID_same_port tf name upd b b' :
  setRuleID tf name upd b = Some b' -> same_port b b'.
Proof.
  unfold setRuleID. intros H.
  destruct (Chains (svcnft b) !! tf) as [sc|]; [|discriminate H].
  destruct (svc_Chain sc !! name) as [r|]; [|discriminate H].
  injection H as <-. repeat split.
Qed.

Lemma same_port_refl b : same_port b b.
Proof. repeat split. Qed.

Lemma same_port_trans b b1 b2 : same_port b b1 -> same_port b1 b2 -> same_port b b2.
Proof.
  intros (A1 & A2 & A3 & A4 & A5 & A6) (B1 & B2 & B3 & B4 & B5 & B6).
  repeat split; congruence.
Qed.

Section Settling.

Variable k : ServicePortName.
Variable tf : TableFamily.
Variable b : BaseServiceInfo.

Lemma settles_logf sev fmt a : settles k tf b (logf sev fmt a).
Proof.
  intros p p' [Hs _] H. injection H as <-.
  unfold registered_without_endpoints. cbn. rewrite Hs. exact I.
Qed.

Lemma settles_driver {A} (call : NFTInterface -> A * NFTInterface) (next : A -> M unit) :
  (forall r, settles k tf b (next r)) -> settles k tf b (let* r := driver call in next r).
Proof.
  intros Hnext p p' Hp H. rewrite bind_unfold in H. unfold driver in H.
  destruct (call (nfti p)) as [r n]. eapply Hnext; [|exact H]. exact Hp.
Qed.

Lemma settles_deref {A} (o : option A) (next : A -> M unit) :
  (forall x, o = Some x -> settles k tf b (next x)) ->
  settles k tf b (let* x := deref o in next x).
Proof.
  intros Hnext p p' Hp H. destruct o as [x|]; [|discriminate H].
  eapply Hnext; [reflexivity|exact Hp|exact H].
Qed.

Hypothesis flag_false : WithEndpoints (svcnft b) = false.

(** The tail of [addService] on an unregistered key: the port is stored
    only after all its addresses went into the no-endpoints set. *)
Lemma settles_finish servicePort svc b' :
  same_port b b' -> settles k tf b (addService_finish k servicePort svc tf b').
Proof.
  intros (A1 & A2 & A3 & A4 & A5 & A6) p p' [Hs He] H.
  unfold addService_finish in H. rewrite bind_unfold in H. cbn [gets] in H.
  rewrite He in H. cbn [List.length] in H.
  rewrite bool_decide_eq_true_2 in H by reflexivity.
  rewrite bind_unfold in H.
  destruct (addToNoEndpointsList b' tf p) as [[err|] q|] eqn:Hadd; try discriminate H.
  - destruct (maps_same_addToNoEndpointsList _ _ _ _ _ Hadd) as [Hq _].
    injection H as <-. unfold registered_without_endpoints. cbn.
    rewrite Hq, Hs. exact I.
  - destruct (addToNoEndpointsList_added _ _ _ _ Hadd) as (F & M1 & E1).
    injection H as <-. unfold registered_without_endpoints. cbn.
    rewrite lookup_insert_eq. cbn. split; [congruence|].
    unfold virtualAddresses, ClusterIP_String in *.
    rewrite A1, A2, A3, A4, A5 in F. exact F.
Qed.

Lemma settles_loadBalancer svcID pos b' next :
  same_port b b' ->
  (forall b'', same_port b b'' -> settles k tf b (next b'')) ->
  settles k tf b (addService_loadBalancer k tf svcID pos b' next).
Proof.
  intros Hb Hnext. unfold addService_loadBalancer.
  destruct (bool_decide _); [|apply Hnext, Hb].
  apply settles_driver. intros [err|id]; [apply settles_logf|].
  apply settles_deref. intros b1 H1.
  pose proof (same_port_trans _ _ _ Hb (setRuleID_same_port _ _ _ _ _ H1)) as Hb1.
  apply settles_driver. intros [err|id']; [apply settles_logf|].
  apply settles_deref. intros b2 H2. apply Hnext.
  exact (same_port_trans _ _ _ Hb1 (setRuleID_same_port _ _ _ _ _ H2)).
Qed.

Lemma settles_externalIPs cn pos b' next :
  same_port b b' ->
  (forall pos' b'', same_port b b'' -> settles k tf b (next pos' b'')) ->
  settles k tf b (addService_externalIPs k tf cn pos b' next).
Proof.
  intros Hb Hnext. unfold addService_externalIPs.
  destruct (bool_decide _); [|apply Hnext, Hb].
  apply settles_driver. intros [err|id]; [apply settles_logf|].
  apply settles_deref. intros b1 H1. apply settles_deref. intros pos' _. apply Hnext.
  exact (same_port_trans _ _ _ Hb (setRuleID_same_port _ _ _ _ _ H1)).
Qed.

Lemma settles_nodePort cn b' next :
  same_port b b' ->
  (forall b'', same_port b b'' -> settles k tf b (next b'')) ->
  settles k tf b (addService_nodePort k tf cn b' next).
Proof.
  intros Hb Hnext. unfold addService_nodePort.
  destruct (bool_decide _); [|apply Hnext, Hb].
  apply settles_driver. intros [err|id]; [apply settles_logf|].
  apply settles_deref. intros b1 H1. apply Hnext.
  exact (same_port_trans _ _ _ Hb (setRuleID_same_port _ _ _ _ _ H1)).
Qed.

Lemma settles_clusterIP cn b' next :
  same_port b b' ->
  (forall pos' b'', same_port b b'' -> settles k tf b (next pos' b'')) ->
  settles k tf b (addService_clusterIP k tf cn b' next).
Proof.
  intros Hb Hnext. unfold addService_clusterIP.
  destruct (clusterIP b'); [|apply Hnext, Hb].
  apply settles_driver. intros [err|id]; [apply settles_logf|].
  apply settles_deref. intros b1 H1. apply settles_deref. intros pos' _. apply Hnext.
  exact (same_port_trans _ _ _ Hb (setRuleID_same_port _ _ _ _ _ H1)).
Qed.

End Settling.

(** The first half of C1, for every state and every fault schedule of the
    driver: on a key that is in neither map, whenever [addService] stores
    the port (that is, unless a driver call failed on the way), the flag of
    the stored port is false and all its virtual addresses are in the
    no-endpoints set. *)
Lemma addService_without_endpoints (svcPortName : ServicePortName)
    (servicePort : ServicePortSpec) (svc : Service) (baseSvcInfo : BaseServiceInfo)
    (p p' : proxy) :
  unregistered svcPortName p ->
  addService svcPortName servicePort svc baseSvcInfo p = Ret tt p' ->
  match serviceMap p' !! svcPortName with
  | Some info =>
      WithEndpoints (svcnft (base info)) = false /\
      Forall (fun ip =>
                (if IsIPv6String (svc_ClusterIP svc) then TableFamilyIPv6 else TableFamilyIPv4,
                 protocol baseSvcInfo, ip, uint16 (port baseSvcInfo))
                ∈ noEndpoints (nfti p'))
             (virtualAddresses baseSvcInfo)
  | None => True
  end.
Proof.
  intros [Hs He] H.
  unfold addService in H. rewrite bind_unfold in H. cbn [gets] in H. rewrite Hs in H.
  match type of H with
  | bind (driver (AddServiceChains ?tf ?svcID)) ?next _ = _ =>
      set (b0 := with_svcnft baseSvcInfo
                   {| Chains := GetSvcChain tf svcID; WithEndpoints := false |}) in *;
      apply (fun Hn => settles_driver svcPortName tf b0 _ next Hn p p' (conj Hs He) H)
  end.
  intros e q q' Hq Hrun. rewrite bind_unfold in Hrun.
  match type of Hrun with
  | context [addService_clusterIP ?a1 ?a2 ?a3 ?a4 ?a5] =>
      assert (Hrest : settles a1 a2 b0 (addService_clusterIP a1 a2 a3 a4 a5))
  end.
  { apply settles_clusterIP; [apply same_port_refl|]. intros pos b1 H1.
    apply settles_nodePort; [exact H1|]. intros b2 H2.
    apply settles_externalIPs; [exact H2|]. intros pos' b3 H3.
    apply settles_loadBalancer; [exact H3|]. intros b4 H4.
    apply settles_finish; [reflexivity|exact H4]. }
  destruct e as [err|].
  - cbn [logf modify] in Hrun. eapply Hrest; [|exact Hrun].
    destruct Hq as [Hs' He']. split; assumption.
  - cbn [ret] in Hrun. eapply Hrest; [exact Hq|exact Hrun].
Qed.

(** C1, on a service whose endpoints came first.  The endpoints map holds
    a backend for the key and the service map does not hold the key;
    [AddService] then installs the chains and the cluster IP rule and
    stores the port with its flag false: no call reprograms the service
    chain, which stays without a rule, and nothing enters the no-endpoints
    set. *)
Theorem addService_with_endpoints_leaves_chain_unwired :
  let p := Sample.state_after [EvAddEndpoints Sample.ep_one] Sample.fresh_proxy in
  serviceMap p !! Sample.key = None /\
  (map Endpoint <$> endpointsMap p !! Sample.key) = Some ["10.244.1.5:8080"] /\
  after (AddService (Some Sample.web) p) (fun p' =>
    ((fun i => WithEndpoints (svcnft (base i))) <$> serviceMap p' !! Sample.key) = Some false /\
    issued (nfti p') =
      issued (nfti p) ++
      [ OpAddServiceChains TableFamilyIPv4 "TL6HGMALSKADNKEV";
        OpProgramServiceClusterIP TableFamilyIPv4 Sample.svc_chain "10.96.0.10" "TCP" 80 ] /\
    filter (fun r => kr_chain r = Sample.svc_chain) (ruleset (nfti p')) = [] /\
    elements (noEndpoints (nfti p')) = []).
Proof.
  intros p. split; [vm_compute; reflexivity|]. split; [vm_compute; reflexivity|].
  vm_compute. repeat split.
Qed.

(** ** Addresses added to a known port *)

Lemma forEach_skip {A} (l : list A) (body : A -> M unit) (p : proxy) :
  Forall (fun x => body x p = Ret tt p) l -> forEach l body p = Ret tt p.
Proof.
  induction 1 as [|x l Hx _ IH]; cbn [forEach]; [reflexivity|].
  rewrite bind_unfold, Hx. exact IH.
Qed.

Lemma deleteAddresses_known_port svcPortName prt epNew addrs eps p :
  isPortInSubset (Subsets epNew) prt = true ->
  Forall (fun a => addr_IP a <> "") addrs ->
  deleteAddresses svcPortName prt epNew addrs eps p = Ret tt p.
Proof.
  intros Hin. induction 1 as [|a addrs Ha _ IH]; cbn [deleteAddresses]; [reflexivity|].
  rewrite bool_decide_eq_false_2 by exact Ha. rewrite Hin. exact IH.
Qed.

(** Whatever the addresses are, an update whose two objects have the same
    ports does nothing at all. *)
Lemma UpdateEndpoints_same_ports (epOld epNew : Endpoints) (p : proxy) :
  ports_known (Subsets epOld) (Subsets epNew) ->
  ports_known (Subsets epNew) (Subsets epOld) ->
  UpdateEndpoints epOld epNew p = Ret tt p.
Proof.
  intros Hnew Hold. unfold UpdateEndpoints.
  destruct (bool_decide (ep_Namespace epNew = "") && bool_decide (ep_Name epNew = ""));
    [reflexivity|].
  destruct (negb (bool_decide (Subsets epOld = Subsets epNew))); [|reflexivity].
  rewrite bind_unfold, forEach_skip.
  - apply forEach_skip. eapply Forall_impl; [exact Hold|].
    intros ss [Hports Haddrs]. apply forEach_skip.
    eapply Forall_impl; [exact Hports|]. intros prt [Hnz Hin].
    rewrite bool_decide_eq_false_2 by exact Hnz.
    rewrite bind_unfold. cbn [gets].
    destruct (endpointsMap p !! _); [|reflexivity].
    apply deleteAddresses_known_port; assumption.
  - eapply Forall_impl; [exact Hnew|].
    intros ss [Hports Haddrs]. apply forEach_skip.
    eapply Forall_impl; [exact Hports|]. intros prt [Hnz Hin].
    rewrite bool_decide_eq_false_2 by exact Hnz.
    apply forEach_skip. eapply Forall_impl; [exact Haddrs|]. intros a Ha.
    rewrite bool_decide_eq_false_2 by exact Ha. rewrite Hin. reflexivity.
Qed.

(** C2, on an update that adds an address to a port the old object already
    has.  10.244.1.6:8080 is a backend of the new object and not of the old
    one; [UpdateEndpoints] issues no driver call and the endpoints map keeps
    the single old backend: [addEndpoint] was not called for it. *)
Theorem UpdateEndpoints_misses_new_address :
  let p := Sample.state_after [EvAddService (Some Sample.web); EvAddEndpoints Sample.ep_one]
                              Sample.fresh_proxy in
  Subsets Sample.ep_one <> Subsets Sample.ep_two /\
  isPortInSubset (Subsets Sample.ep_one) Sample.p8080 = true /\
  after (UpdateEndpoints Sample.ep_one Sample.ep_two p) (fun p' =>
    issued (nfti p') = issued (nfti p) /\
    (map Endpoint <$> endpointsMap p' !! Sample.key) = Some ["10.244.1.5:8080"] /\
    klog p' = klog p).
Proof.
  intros p. split; [discriminate|]. split; [reflexivity|].
  vm_compute. repeat split.
Qed.

(** ** The no-endpoints invariant *)

(** C5, after [AddEndpoints] then [AddService] for the same key, with no
    driver fault.  The run returns; the service port is in the service map
    with its flag false, and its cluster IP is not in the no-endpoints
    set: (I3) does not hold in that state. *)
Theorem NoEndpointsInvariant_broken_by_late_service :
  after (run_events [EvAddEndpoints Sample.ep_one; EvAddService (Some Sample.web)]
                    Sample.fresh_proxy)
        (fun p => ~ NoEndpointsInvariant p).
Proof.
  set (evs := [EvAddEndpoints Sample.ep_one; EvAddService (Some Sample.web)]).
  assert (Hret : has (match run_events evs Sample.fresh_proxy with
                      | Ret _ p => Some p | Fault => None end) = true)
    by (vm_compute; reflexivity).
  destruct (run_events evs Sample.fresh_proxy) as [[] p|] eqn:Hrun; [|discriminate Hret].
  clear Hret. cbn. intros Hinv.
  assert (Hobs : ((fun i => (ClusterIP_String (base i), externalIPs (base i),
                             loadBalancerIPs (base i), protocol (base i),
                             port (base i), WithEndpoints (svcnft (base i))))
                    <$> serviceMap (Sample.state_after evs Sample.fresh_proxy) !! Sample.key)
                 = Some ("10.96.0.10", [], [], "TCP", 80, false))
    by (vm_compute; reflexivity).
  assert (Hset : elements (noEndpoints (nfti (Sample.state_after evs Sample.fresh_proxy))) = [])
    by (vm_compute; reflexivity).
  unfold Sample.state_after in Hobs, Hset. rewrite Hrun in Hobs, Hset.
  destruct (serviceMap p !! Sample.key) as [info|] eqn:Hinfo; [|discriminate Hobs].
  cbn in Hobs. injection Hobs as Hip Hext Hlb Hproto Hport Hflag.
  specialize (Hinv Sample.key info "10.96.0.10" Hinfo).
  assert (Hin : "10.96.0.10" ∈ virtualAddresses (base info)).
  { unfold virtualAddresses. rewrite Hip. apply list_elem_of_here. }
  destruct (Hinv Hin) as [_ Hback].
  specialize (Hback Hflag).
  apply elem_of_elements in Hback. rewrite Hset in Hback.
  apply not_elem_of_nil in Hback. exact Hback.
Qed.

(** ** Removing the endpoints of a port one after the other *)

(** C6, on an update that removes the two backends of a port.  Both
    removals go through the slice read once before the loop.  The second
    [deleteEndpoint] finds its entry, reprograms the service chain with a
    jump to that entry's own chain, and then deletes the chain's rules and
    the chain: the installed dispatch rule refers to a chain that is gone,
    and the entry stays in the endpoints map. *)
Theorem deleteEndpoint_stale_slice_keeps_jump :
  let p := Sample.state_after [EvAddService (Some Sample.web); EvAddEndpoints Sample.ep_two]
                              Sample.fresh_proxy in
  (map Endpoint <$> endpointsMap p !! Sample.key) = Some ["10.244.1.5:8080"; "10.244.1.6:8080"] /\
  after (UpdateEndpoints Sample.ep_two Sample.ep_none p) (fun p' =>
    issued (nfti p') =
      issued (nfti p) ++
      [ OpProgramServiceEndpoints TableFamilyIPv4 Sample.svc_chain [Sample.sep2] [7; 8];
        OpDeleteEndpointRules TableFamilyIPv4 Sample.sep1 [2; 3];
        OpDeleteChain TableFamilyIPv4 Sample.sep1;
        OpProgramServiceEndpoints TableFamilyIPv4 Sample.svc_chain [Sample.sep2] [9];
        OpDeleteEndpointRules TableFamilyIPv4 Sample.sep2 [5; 6];
        OpDeleteChain TableFamilyIPv4 Sample.sep2;
        OpProgramServiceEndpoints TableFamilyIPv4 Sample.svc_chain [Sample.sep2] [10];
        OpDeleteEndpointRules TableFamilyIPv4 Sample.sep2 [5; 6];
        OpDeleteChain TableFamilyIPv4 Sample.sep2 ] /\
    dangling_jump (nfti p')
      (mkKRule TableFamilyIPv4 Sample.svc_chain 11 (Some Sample.sep2)) /\
    (map Endpoint <$> endpointsMap p' !! Sample.key) = Some ["10.244.1.6:8080"]).
Proof.
  intros p. split; [vm_compute; reflexivity|].
  assert (Hret : has (match UpdateEndpoints Sample.ep_two Sample.ep_none p with
                      | Ret _ p' => Some p' | Fault => None end) = true)
    by (vm_compute; reflexivity).
  destruct (UpdateEndpoints Sample.ep_two Sample.ep_none p) as [[] p'|] eqn:Hrun;
    [|discriminate Hret].
  clear Hret. cbn.
  assert (Hp' : p' = match UpdateEndpoints Sample.ep_two Sample.ep_none p with
                     | Ret _ q => q | Fault => p end) by (rewrite Hrun; reflexivity).
  clear Hrun. subst p'.
  split; [vm_compute; reflexivity|]. split; [|vm_compute; reflexivity].
  split.
  - decide_by_computation.
  - exists Sample.sep2. split; [reflexivity|]. decide_by_computation.
Qed.

(** ** The order of the calls that remove an endpoint *)

Lemma issues_same allowed p q : nfti q = nfti p -> issues allowed p q.
Proof. intros N. exists []. split; [now rewrite app_nil_r, N|constructor]. Qed.

Lemma issues_modify allowed (f : proxy -> proxy) :
  (forall p, nfti (f p) = nfti p) -> preserves (issues allowed) (modify f).
Proof. intros Hf p [] p' H. injection H as <-. apply issues_same, Hf. Qed.

Lemma issues_of_within {A} allowed (m : M A) :
  preserves (within allowed) m -> preserves (issues allowed) m.
Proof. intros Hm p a p' H. eapply within_issues, Hm, H. Qed.

(** What [deleteEndpointRules] does once the endpoint chain is gone asks
    the driver for nothing but additions to the no-endpoints set. *)
Lemma issues_after_chain_deleted (svcPortName : ServicePortName) :
  preserves (issues fills_no_endpoints)
    (let* em := gets endpointsMap in
     (if bool_decide (List.length (default [] (em !! svcPortName)) = 0%nat) then
        logf Info "no more endpoints found for %s" [spn_String svcPortName] ;;
        let* sm := gets serviceMap in
        match sm !! svcPortName with
        | Some svc =>
            let '(_, tableFamily) := getIPFamily (ClusterIP_String (base svc)) in
            let* e := addToNoEndpointsList (base svc) tableFamily in
            match e with
            | Some err =>
                logf Error "failed to add %s to No Endpoints Set with error: %+v"
                     [spn_String svcPortName; Err_String err]
            | None =>
                modify (fun p => set_serviceMap
                                   (<[ svcPortName := setWithEndpoints false svc ]>
                                      (serviceMap p)) p)
            end
        | None => ret tt
        end ;;
        modify (fun p => set_endpointsMap (delete svcPortName (endpointsMap p)) p)
      else ret tt) ;;
     ret (@None Err)).
Proof.
  pose proof (issues_refl fills_no_endpoints) as Hrefl.
  pose proof (issues_trans fills_no_endpoints) as Htrans.
  assert (Hlog : forall sev fmt a, preserves (issues fills_no_endpoints) (logf sev fmt a))
    by (intros; apply issues_modify; reflexivity).
  apply preserves_bind; [exact Htrans|apply preserves_gets, Hrefl|intros em].
  apply preserves_bind; [exact Htrans| |intros _; apply preserves_ret, Hrefl].
  destruct (bool_decide _); [|apply preserves_ret, Hrefl].
  apply preserves_bind; [exact Htrans|apply Hlog|intros _].
  apply preserves_bind; [exact Htrans|apply preserves_gets, Hrefl|intros sm].
  apply preserves_bind; [exact Htrans| |intros _; apply issues_modify; reflexivity].
  destruct (sm !! svcPortName) as [svc|]; [|apply preserves_ret, Hrefl].
  destruct (getIPFamily (ClusterIP_String (base svc))) as [fam tableFamily].
  apply preserves_bind; [exact Htrans| |].
  - apply issues_of_within, within_addToNoEndpointsList. intros op Hop. exact Hop.
  - intros [err|]; [apply Hlog|apply issues_modify; reflexivity].
Qed.

(** The order of C6, for every call that returns: first the calls of
    [UpdateServiceChain]; then, if that went through, the deletion of the
    endpoint chain's rules; then, if that went through, the deletion of the
    chain, followed by nothing but additions to the no-endpoints set. *)
Lemma deleteEndpointRules_order (ipTableFamily : TableFamily) (cn : string)
    (ruleID : list handle) (svcPortName : ServicePortName) (key : epKey)
    (p p' : proxy) (e : option Err) :
  deleteEndpointRules ipTableFamily cn ruleID svcPortName key p = Ret e p' ->
  exists first_ then_,
    issued (nfti p') = issued (nfti p) ++ first_ ++ then_ /\
    Forall (fun op => service_chain_op op = true) first_ /\
    (then_ = [] \/
     then_ = [OpDeleteEndpointRules ipTableFamily cn ruleID] \/
     exists rest,
       then_ = OpDeleteEndpointRules ipTableFamily cn ruleID
               :: OpDeleteChain ipTableFamily cn :: rest /\
       Forall (fun op => fills_no_endpoints op = true) rest).
Proof.
  unfold deleteEndpointRules. intros H. rewrite bind_unfold in H.
  destruct (UpdateServiceChain svcPortName ipTableFamily p) as [[err|] p1|] eqn:HU;
    [| |discriminate H];
    destruct (within_UpdateServiceChain service_chain_op (fun _ h => h) _ _ _ _ _ HU)
      as (_ & _ & _ & ops1 & I1 & F1).
  - cbn in H. injection H as _ <-. exists ops1, []. cbn.
    rewrite app_nil_r. auto.
  - rewrite bind_unfold in H.
    destruct (driver (DeleteEndpointRules ipTableFamily cn ruleID) p1) as [[err|] p2|] eqn:HD;
      [| |discriminate H];
      destruct (driver_issued _ _ (DeleteEndpointRules_issued ipTableFamily cn ruleID)
                              _ _ _ HD) as (I2 & _).
    + injection H as _ <-. exists ops1, [OpDeleteEndpointRules ipTableFamily cn ruleID].
      rewrite I2, I1, <- app_assoc. auto.
    + rewrite bind_unfold in H.
      destruct (driver (DeleteChain ipTableFamily cn) p2) as [e3 p3|] eqn:HC;
        [|discriminate H].
      destruct (driver_issued _ _ (DeleteChain_issued ipTableFamily cn) _ _ _ HC) as (I3 & _).
      rewrite bind_unfold in H.
      destruct ((match e3 with
                 | Some err =>
                     logf Error "failed to delete endpoint chain: %s with error: %+v"
                          [cn; Err_String err]
                 | None => ret tt
                 end) p3) as [[] p4|] eqn:HL; [|discriminate H].
      assert (N4 : nfti p4 = nfti p3).
      { destruct e3; injection HL as <-; reflexivity. }
      destruct (issues_after_chain_deleted svcPortName _ _ _ H) as (rest & I5 & F5).
      exists ops1, (OpDeleteEndpointRules ipTableFamily cn ruleID
                    :: OpDeleteChain ipTableFamily cn :: rest).
      split; [|split; [exact F1|]].
      * rewrite I5, N4, I3, I2, I1, <- !app_assoc. reflexivity.
      * right. right. exists rest. auto.
Qed.

(** ** AddEndpointSlice *)

Lemma programAll_only_adds pre : forall p0 p1, programAll pre p0 = Some p1 -> only_adds p0 p1.
Proof.
  induction pre as [|e pre IH]; cbn [programAll]; intros p0 p1 H.
  - injection H as <-. apply only_adds_refl.
  - destruct (negb (ready e)); [apply IH, H|].
    destruct (addEndpoint (name e) (addr e) (eport e) p0) as [[err|] q|] eqn:Hadd;
      try discriminate H.
    eapply only_adds_trans; [eapply only_adds_addEndpoint, Hadd|apply IH, H].
Qed.

Lemma addReadyPorts_app epsl pre rest :
  forall p0 p1, programAll pre p0 = Some p1 ->
    addReadyPorts epsl (pre ++ rest) p0 = addReadyPorts epsl rest p1.
Proof.
  induction pre as [|e pre IH]; cbn [programAll addReadyPorts app]; intros p0 p1 H.
  - injection H as <-. reflexivity.
  - destruct (negb (ready e)); [apply IH, H|].
    unfold bind at 1.
    destruct (addEndpoint (name e) (addr e) (eport e) p0) as [[err|] q|] eqn:Hadd;
      try discriminate H.
    apply IH, H.
Qed.

(** C9.  [AddEndpointSlice] first stores the slice: the cache holds it
    while the driver and the endpoints map are still untouched.  If the
    ready tuples of [pre] are added without error and [addEndpoint] fails
    on the ready tuple [e], the handler logs the failure and returns in
    the state that failing call left: the tuples of [post] are not looked
    at, nothing done for [pre] or by the failing call is undone (the
    entries of the endpoints map are kept and no call takes an endpoint
    chain down), and the cache still holds the new slice. *)
Theorem AddEndpointSlice_stops_at_first_failure
    (epsl : EndpointSlice) (p : proxy) (info pre post : list epInfo) (e : epInfo)
    (p1 p2 : proxy) (err : Err) :
  processEpSlice epsl = ROk info ->
  info = pre ++ e :: post ->
  ready e = true ->
  programAll pre (stored epsl p) = Some p1 ->
  addEndpoint (name e) (addr e) (eport e) p1 = Ret (Some err) p2 ->
  storeEpSlInCache epsl p = Ret tt (stored epsl p) /\
  epslCache (pcache (stored epsl p)) !! slice_key epsl = Some epsl /\
  nfti (stored epsl p) = nfti p /\
  endpointsMap (stored epsl p) = endpointsMap p /\
  AddEndpointSlice epsl p =
    Ret tt (set_klog (klog p2 ++
              [Log Error "failed to add Endpoint Slice %s/%s port %+v with error: %+v"
                   [epsl_Namespace epsl; epsl_Name epsl; port_Name (eport e); Err_String err]])
            p2) /\
  only_adds (stored epsl p) p1 /\
  only_adds p1 p2 /\
  epslCache (pcache p2) !! slice_key epsl = Some epsl.
Proof.
  intros Hinfo -> Hready Hpre Hfail.
  assert (Hc : epslCache (pcache (stored epsl p)) !! slice_key epsl = Some epsl)
    by apply lookup_insert_eq.
  pose proof (programAll_only_adds _ _ _ Hpre) as H01.
  pose proof (only_adds_addEndpoint _ _ _ _ _ _ Hfail) as H12.
  split; [reflexivity|]. split; [exact Hc|]. split; [reflexivity|]. split; [reflexivity|].
  split; [|split; [exact H01|split; [exact H12|]]].
  - unfold AddEndpointSlice, bind at 1. cbn [storeEpSlInCache modify]. rewrite Hinfo.
    change (set_cache _ p) with (stored epsl p).
    rewrite (addReadyPorts_app epsl pre (e :: post) _ _ Hpre).
    cbn [addReadyPorts]. rewrite Hready. cbn [negb].
    unfold bind at 1. rewrite Hfail. reflexivity.
  - destruct H01 as (C1 & _). destruct H12 as (C2 & _). rewrite C2, C1. exact Hc.
Qed.

Lemma AddEndpointSlice_stops_at_first_failure_witness :
  let epsl := Sample.three in
  let p := Sample.faulty_proxy in
  let pre := [Sample.tuple "10.244.1.5" true] in
  let e := Sample.tuple "10.244.1.6" true in
  let post := [Sample.tuple "10.244.1.7" true] in
  let p1 := default p (programAll pre (stored epsl p)) in
  let err := DriverError (OpAddEndpointRules TableFamilyIPv4 Sample.sep2 "10.244.1.6" "TCP" 8080) in
  let p2 := state_of (addEndpoint (name e) (addr e) (eport e) p1) p in
  (processEpSlice epsl = ROk (pre ++ e :: post) /\
   ready e = true /\
   programAll pre (stored epsl p) = Some p1 /\
   addEndpoint (name e) (addr e) (eport e) p1 = Ret (Some err) p2) /\
  storeEpSlInCache epsl p = Ret tt (stored epsl p) /\
  epslCache (pcache (stored epsl p)) !! slice_key epsl = Some epsl /\
  nfti (stored epsl p) = nfti p /\
  endpointsMap (stored epsl p) = endpointsMap p /\
  AddEndpointSlice epsl p =
    Ret tt (set_klog (klog p2 ++
              [Log Error "failed to add Endpoint Slice %s/%s port %+v with error: %+v"
                   [epsl_Namespace epsl; epsl_Name epsl; port_Name (eport e); Err_String err]])
            p2) /\
  only_adds (stored epsl p) p1 /\
  only_adds p1 p2 /\
  epslCache (pcache p2) !! slice_key epsl = Some epsl.
Proof.
  intros epsl p pre e post p1 err p2.
  assert (H1 : processEpSlice epsl = ROk (pre ++ e :: post)) by (vm_compute; reflexivity).
  assert (H2 : ready e = true) by reflexivity.
  assert (H3 : programAll pre (stored epsl p) = Some p1)
    by (apply has_default; vm_compute; reflexivity).
  assert (H4 : addEndpoint (name e) (addr e) (eport e) p1 = Ret (Some err) p2)
    by (apply outcome_eta; vm_compute; reflexivity).
  split; [exact (conj H1 (conj H2 (conj H3 H4)))|].
  exact (AddEndpointSlice_stops_at_first_failure epsl p (pre ++ e :: post) pre post e p1 p2 err
           H1 eq_refl H2 H3 H4).
Defined.

(** * Further properties *)

(** ** The endpoints handlers at a glance *)

(** X1.  [DeleteEndpoints] changes nothing, whatever the object and the state:
    it hands [UpdateEndpoints] an object without name and namespace as the
    new one, and [UpdateEndpoints] returns at once on every such object,
    whatever the old one is.  No call reaches the driver, both maps stay,
    and nothing is logged. *)
Theorem DeleteEndpoints_changes_nothing (ep : Endpoints) (p : proxy) :
  DeleteEndpoints ep p = Ret tt p /\
  forall epOld epNew, ep_Namespace epNew = "" -> ep_Name epNew = "" ->
    UpdateEndpoints epOld epNew p = Ret tt p.
Proof.
  split; [reflexivity|].
  intros epOld epNew Hns Hn. unfold UpdateEndpoints. rewrite Hns, Hn. reflexivity.
Qed.

(** X2.  [isPortInSubset] answers true exactly when some subset has a port
    with the name, the number and the protocol of the port asked for; the
    addresses of the subsets play no part. *)
Theorem isPortInSubset_spec (subsets : list EndpointSubset) (prt : EndpointPort) :
  isPortInSubset subsets prt = true <->
  exists s q, s ∈ subsets /\ q ∈ Ports s /\
              port_Name q = port_Name prt /\ port_Port q = port_Port prt /\
              port_Protocol q = port_Protocol prt.
Proof.
  unfold isPortInSubset. rewrite existsb_exists. split.
  - intros (s & Hs & Hp). apply existsb_exists in Hp as (q & Hq & Heq).
    apply andb_prop in Heq as [Heq H3]. apply andb_prop in Heq as [H1 H2].
    apply bool_decide_eq_true_1 in H1, H2, H3.
    exists s, q. repeat split; try assumption; apply list_elem_of_In; assumption.
  - intros (s & q & Hs & Hq & H1 & H2 & H3). exists s. split; [apply list_elem_of_In, Hs|].
    apply existsb_exists. exists q. split; [apply list_elem_of_In, Hq|].
    rewrite !bool_decide_eq_true_2 by assumption. reflexivity.
Qed.

(** ** One endpoint, added and removed *)

Lemma attempt_spec op n : attempt op n = (accepts n, asked op n).
Proof. unfold attempt, accepts, asked. destruct (faults n) as [|[] ?]; reflexivity. Qed.

Lemma perform_spec op effect n :
  perform op effect n =
  if accepts n then (None, effect (asked op n)) else (Some (DriverError op), asked op n).
Proof. unfold perform. rewrite attempt_spec. reflexivity. Qed.

Lemma install_spec op k place touch n :
  install op k place touch n =
  if accepts n then
    (inr (fresh k (asked op n)),
     with_kernel (asked op n) (touch (chains n)) (place (fresh k (asked op n)) (asked op n))
                 (noEndpoints n) (nextHandle n + Z.of_nat k))
  else (inl (DriverError op), asked op n).
Proof. unfold install. rewrite attempt_spec. reflexivity. Qed.

Lemma getIPFamily_eta ip : getIPFamily ip = (fst (getIPFamily ip), snd (getIPFamily ip)).
Proof. destruct (getIPFamily ip); reflexivity. Qed.

(** [addEndpoint] in two steps: the driver call, then the bookkeeping. *)
Lemma addEndpoint_unfold k a prt p :
  addEndpoint k a prt p =
  (let* r := driver (AddEndpointRules (familyOf a) (endpointChain k a prt) (addr_IP a)
                                      (port_Protocol prt) (port_Port prt)) in
   match r with
   | inl err => ret (Some err)
   | inr ruleIDs =>
       modify (fun q => set_endpointsMap
                          (<[ k := default [] (endpointsMap q !! k)
                                   ++ [programmed (hostname p) k a prt ruleIDs] ]>
                             (endpointsMap q)) q) ;;
       let* e := UpdateServiceChain k (familyOf a) in
       match e with
       | Some err =>
           logf Error "failed to update service %s chain with endpoint rule with error: %+v"
                [spn_String k; Err_String err] ;;
           ret (Some err)
       | None => ret None
       end
   end) p.
Proof.
  unfold addEndpoint, programmed, endpointChain, endpointOf, familyOf, addEndpointRule.
  rewrite bind_unfold. cbn [gets].
  destruct (getIPFamily (addr_IP a)) as [fam tf]. reflexivity.
Qed.

(** X3.  Whenever [AddEndpoints] returns, it has only added: every entry of
    the endpoints map is still there, followed by what was appended, the
    cache and the host name are the same, and no call that removes endpoint
    rules or an endpoint chain was issued. *)
Theorem AddEndpoints_only_adds (ep : Endpoints) (p p' : proxy) :
  AddEndpoints ep p = Ret tt p' -> only_adds p p'.
Proof.
  intros H. cut (preserves only_adds (AddEndpoints ep)); [intros Hp; exact (Hp p tt p' H)|].
  clear H p p'.
  pose proof only_adds_refl as Hrefl. pose proof only_adds_trans as Htrans.
  assert (Hlog : forall sev fmt a, preserves only_adds (logf sev fmt a))
    by (intros; apply within_logf).
  unfold AddEndpoints.
  apply preserves_bind; [exact Htrans|apply Hlog|intros _].
  unfold UpdateEndpoints. cbn [Subsets forEach].
  destruct (_ && _); [apply preserves_ret, Hrefl|].
  destruct (negb _); [|apply preserves_ret, Hrefl].
  apply preserves_bind; [exact Htrans| |intros _; apply preserves_ret, Hrefl].
  apply preserves_forEach; [exact Hrefl|exact Htrans|intros ss].
  apply preserves_forEach; [exact Hrefl|exact Htrans|intros prt].
  destruct (bool_decide (port_Port prt = 0)); [apply Hlog|].
  apply preserves_forEach; [exact Hrefl|exact Htrans|intros a].
  destruct (bool_decide (addr_IP a = "")); [apply Hlog|].
  destruct (negb _); [|apply preserves_ret, Hrefl].
  apply preserves_bind; [exact Htrans|apply only_adds_addEndpoint|].
  intros [err|]; [apply Hlog|apply preserves_ret, Hrefl].
Qed.

Lemma AddEndpoints_only_adds_witness :
  let p := Sample.fresh_proxy in
  let p' := Sample.state_after [EvAddEndpoints Sample.ep_one] p in
  AddEndpoints Sample.ep_one p = Ret tt p' /\ only_adds p p'.
Proof.
  intros p p'.
  assert (H : AddEndpoints Sample.ep_one p = Ret tt p') by (vm_compute; reflexivity).
  exact (conj H (AddEndpoints_only_adds Sample.ep_one p p' H)).
Defined.

Lemma driver_AddEndpointRules tf cn ip proto prt p :
  driver (AddEndpointRules tf cn ip proto prt) p =
  if accepts (nfti p) then
    Ret (inr (fresh 2 (asked (OpAddEndpointRules tf cn ip proto prt) (nfti p))))
        (set_nfti (with_kernel (asked (OpAddEndpointRules tf cn ip proto prt) (nfti p))
                     ({[ (tf, cn) ]} ∪ chains (nfti p))
                     (ruleset (nfti p) ++
                      jumps tf cn (fresh 2 (asked (OpAddEndpointRules tf cn ip proto prt) (nfti p)))
                            [None; None])
                     (noEndpoints (nfti p)) (nextHandle (nfti p) + 2)) p)
  else Ret (inl (DriverError (OpAddEndpointRules tf cn ip proto prt)))
           (set_nfti (asked (OpAddEndpointRules tf cn ip proto prt) (nfti p)) p).
Proof.
  unfold driver, AddEndpointRules. rewrite install_spec.
  destruct (accepts (nfti p)); reflexivity.
Qed.

(** X4.  When the driver rejects the call that installs the endpoint rules,
    [addEndpoint] returns the driver's error and the proxy is what it was
    but for that call: nothing enters the endpoints map, the service chain
    is not touched, nothing is logged. *)
Theorem addEndpoint_rejected (k : ServicePortName) (a : EndpointAddress) (prt : EndpointPort)
    (p : proxy) :
  accepts (nfti p) = false ->
  addEndpoint k a prt p =
  Ret (Some (DriverError (OpAddEndpoint k a prt)))
      (set_nfti (asked (OpAddEndpoint k a prt) (nfti p)) p).
Proof.
  intros Hrej. rewrite addEndpoint_unfold, bind_unfold, driver_AddEndpointRules, Hrej.
  reflexivity.
Qed.

Lemma addEndpoint_rejected_witness :
  let p := Cases.refusing_proxy in
  accepts (nfti p) = false /\
  addEndpoint Sample.key Sample.a1 Sample.p8080 p =
  Ret (Some (DriverError (OpAddEndpoint Sample.key Sample.a1 Sample.p8080)))
      (set_nfti (asked (OpAddEndpoint Sample.key Sample.a1 Sample.p8080) (nfti p)) p).
Proof.
  intros p. split; [reflexivity|].
  exact (addEndpoint_rejected Sample.key Sample.a1 Sample.p8080 p eq_refl).
Defined.



(** X6.  When the port is in the service map and its entry has no chains for
    the family of the backend's address (an IPv6 backend for a service with
    an IPv4 cluster IP), [addEndpoint] faults once the endpoint rules are
    installed: [UpdateServiceChain] reads the chains of that family without
    testing that they are there. *)
Theorem addEndpoint_family_mismatch (k : ServicePortName) (a : EndpointAddress)
    (prt : EndpointPort) (p : proxy) (entry : serviceInfo) :
  serviceMap p !! k = Some entry ->
  Chains (svcnft (base entry)) !! familyOf a = None ->
  accepts (nfti p) = true ->
  addEndpoint k a prt p = Fault.
Proof.
  intros Hin Hnone Hacc.
  rewrite addEndpoint_unfold, bind_unfold, driver_AddEndpointRules, Hacc.
  rewrite bind_unfold. cbn [modify]. rewrite bind_unfold.
  unfold UpdateServiceChain. rewrite bind_unfold. cbn [gets set_endpointsMap set_nfti serviceMap].
  rewrite Hin. rewrite bind_unfold.
  match goal with |- match match ?m ?q with _ => _ end with _ => _ end = _ =>
    destruct (m q) as [[] q1|]; [|reflexivity] end.
  rewrite bind_unfold.
  destruct (getServicePortEndpointChains k (familyOf a) q1) as [cs q2|]; [|reflexivity].
  rewrite Hnone. reflexivity.
Qed.

Lemma addEndpoint_family_mismatch_witness :
  let p := Cases.with_web in
  (serviceMap p !! Sample.key = Some Cases.web_entry /\
   Chains (svcnft (base Cases.web_entry)) !! familyOf Cases.a6 = None /\
   accepts (nfti p) = true) /\
  addEndpoint Sample.key Cases.a6 Sample.p8080 p = Fault.
Proof.
  intros p.
  assert (H1 : serviceMap p !! Sample.key = Some Cases.web_entry)
    by (apply has_default; vm_compute; reflexivity).
  assert (H2 : Chains (svcnft (base Cases.web_entry)) !! familyOf Cases.a6 = None)
    by (vm_compute; reflexivity).
  assert (H3 : accepts (nfti p) = true) by (vm_compute; reflexivity).
  exact (conj (conj H1 (conj H2 H3))
              (addEndpoint_family_mismatch Sample.key Cases.a6 Sample.p8080 p Cases.web_entry
                 H1 H2 H3)).
Defined.

Lemma deleteEndpoint_unfold k a prt eps p :
  deleteEndpoint k a prt eps p =
  deleteEndpoint_range (List.length eps) 0 k (familyOf a) (endpointOf (hostname p) a prt)
    (mkEpKey (port_Protocol prt) (addr_IP a) (port_Port prt)) eps p.
Proof.
  unfold deleteEndpoint, endpointOf, familyOf. rewrite bind_unfold. cbn [gets].
  destruct (getIPFamily (addr_IP a)) as [fam tf]. reflexivity.
Qed.

(** The loop passes over the entries that are not the one looked for. *)
Lemma deleteEndpoint_range_skip k tf d key eps p : forall m n i,
  (forall j e, (i <= j < i + m)%nat -> eps !! j = Some e -> Equal e d = false) ->
  (i + m <= List.length eps)%nat ->
  deleteEndpoint_range (m + n) i k tf d key eps p = deleteEndpoint_range n (i + m) k tf d key eps p.
Proof.
  induction m as [|m IH]; intros n i Hno Hlen.
  - rewrite Nat.add_0_r. reflexivity.
  - cbn [Nat.add deleteEndpoint_range].
    destruct (eps !! i) as [e|] eqn:He.
    + rewrite (Hno i e) by (try exact He; lia).
      rewrite IH; [f_equal; lia| |lia].
      intros j e' Hj. apply Hno. lia.
    + apply lookup_ge_None in He. lia.
Qed.

Lemma deleteEndpoint_range_done k tf d key eps p n :
  deleteEndpoint_range n (List.length eps) k tf d key eps p = Ret (None, eps) p.
Proof.
  destruct n; cbn [deleteEndpoint_range]; [reflexivity|].
  rewrite (proj2 (lookup_ge_None eps (List.length eps))) by lia. reflexivity.
Qed.

(** X7.  When no entry of the list handed in equals the backend,
    [deleteEndpoint] returns no error and the list as it is, and the proxy
    is unchanged: no call, no log line. *)
Theorem deleteEndpoint_no_match (k : ServicePortName) (a : EndpointAddress)
    (prt : EndpointPort) (eps : list endpointsInfo) (p : proxy) :
  Forall (fun e => Equal e (endpointOf (hostname p) a prt) = false) eps ->
  deleteEndpoint k a prt eps p = Ret (None, eps) p.
Proof.
  intros Hno. rewrite deleteEndpoint_unfold.
  rewrite <- (Nat.add_0_r (List.length eps)).
  rewrite deleteEndpoint_range_skip.
  - apply deleteEndpoint_range_done.
  - intros j e _ He. rewrite Forall_forall in Hno. apply Hno.
    eapply list_elem_of_lookup_2, He.
  - lia.
Qed.

Lemma deleteEndpoint_no_match_witness :
  let p := Sample.state_after [EvAddEndpoints Sample.ep_one] Sample.fresh_proxy in
  let eps := default [] (endpointsMap p !! Sample.key) in
  (length eps = 1%nat /\
   Forall (fun e => Equal e (endpointOf (hostname p) Sample.a2 Sample.p8080) = false) eps) /\
  deleteEndpoint Sample.key Sample.a2 Sample.p8080 eps p = Ret (None, eps) p.
Proof.
  intros p eps.
  assert (H0 : length eps = 1%nat) by (vm_compute; reflexivity).
  assert (H : Forall (fun e => Equal e (endpointOf (hostname p) Sample.a2 Sample.p8080) = false)
                     eps)
    by (vm_compute; repeat constructor).
  exact (conj (conj H0 H) (deleteEndpoint_no_match Sample.key Sample.a2 Sample.p8080 eps p H)).
Defined.

Lemma UpdateServiceChain_unregistered k tf p :
  serviceMap p !! k = None -> UpdateServiceChain k tf p = Ret None p.
Proof.
  intros Hnone. unfold UpdateServiceChain. rewrite bind_unfold. cbn [gets].
  rewrite Hnone. reflexivity.
Qed.

Lemma driver_perform op effect p :
  driver (perform op effect) p =
  if accepts (nfti p) then Ret None (set_nfti (effect (asked op (nfti p))) p)
  else Ret (Some (DriverError op)) (set_nfti (asked op (nfti p)) p).
Proof.
  unfold driver. rewrite perform_spec. destruct (accepts (nfti p)); reflexivity.
Qed.

Lemma remove_middle {A} (pre post : list A) (e : A) :
  take (List.length pre) (pre ++ e :: post) ++ drop (S (List.length pre)) (pre ++ e :: post)
  = pre ++ post.
Proof. induction pre as [|x pre IH]; cbn; [rewrite drop_0|rewrite IH]; reflexivity. Qed.

(** One step of the loop at the entry looked for. *)
Lemma deleteEndpoint_range_match k tf d key eps p n i e r :
  eps !! i = Some e -> Equal e d = true -> epnft e !! tf = Some r ->
  deleteEndpoint_range (S n) i k tf d key eps p =
  (modify (fun q => set_endpointsMap (<[ k := take i eps ++ drop (S i) eps ]> (endpointsMap q)) q) ;;
   let* err := deleteEndpointRules tf (Chain r) (RuleID r) k key in
   match err with
   | Some err => ret (Some err, (take i eps ++ drop (S i) eps) ++ drop (List.length eps - 1) eps)
   | None => deleteEndpoint_range n (S i) k tf d key
               ((take i eps ++ drop (S i) eps) ++ drop (List.length eps - 1) eps)
   end) p.
Proof.
  intros He Heq Hr. cbn [deleteEndpoint_range]. rewrite He, Heq.
  rewrite !bind_unfold. cbn [modify]. rewrite bind_unfold, Hr. reflexivity.
Qed.

(** X8.  When the driver rejects the deletion of the rules of the first entry
    that equals the backend, for a port that is not in the service map,
    [deleteEndpoint] returns the driver's error with the entry already
    taken out of the endpoints map; the rejected call is the only one
    issued, so the rules and the chain stay in the kernel with no entry
    that refers to them. *)
Theorem deleteEndpoint_rejected (k : ServicePortName) (a : EndpointAddress)
    (prt : EndpointPort) (pre post : list endpointsInfo) (e : endpointsInfo) (r : Rule)
    (p : proxy) :
  serviceMap p !! k = None ->
  Forall (fun e' => Equal e' (endpointOf (hostname p) a prt) = false) pre ->
  Equal e (endpointOf (hostname p) a prt) = true ->
  epnft e !! familyOf a = Some r ->
  accepts (nfti p) = false ->
  exists eps',
    deleteEndpoint k a prt (pre ++ e :: post) p =
    Ret (Some (DriverError (OpDeleteRulesOf (familyOf a) r)), eps')
        (set_nfti (asked (OpDeleteRulesOf (familyOf a) r) (nfti p))
           (set_endpointsMap (<[ k := pre ++ post ]> (endpointsMap p)) p)).
Proof.
  intros Hnone Hpre He Hr Hrej. eexists.
  rewrite deleteEndpoint_unfold.
  replace (List.length (pre ++ e :: post)) with (List.length pre + S (List.length post))%nat
    by (rewrite length_app; reflexivity).
  rewrite deleteEndpoint_range_skip.
  2: { intros j e' Hj Hl. rewrite Forall_forall in Hpre. apply Hpre.
       rewrite lookup_app_l in Hl by lia. eapply list_elem_of_lookup_2, Hl. }
  2: { rewrite length_app. cbn. lia. }
  cbn [Nat.add].
  erewrite deleteEndpoint_range_match; [|apply list_lookup_middle; reflexivity|exact He|exact Hr].
  rewrite bind_unfold. cbn [modify]. rewrite bind_unfold.
  unfold deleteEndpointRules. rewrite bind_unfold.
  rewrite UpdateServiceChain_unregistered by exact Hnone.
  rewrite bind_unfold. unfold DeleteEndpointRules. rewrite driver_perform.
  cbn [set_endpointsMap nfti]. rewrite Hrej.
  rewrite remove_middle. reflexivity.
Qed.

Lemma deleteEndpoint_rejected_witness :
  let p := Sample.state_after [EvAddEndpoints Sample.ep_one]
                              (NewProxy (pristine [false; true]) "node1") in
  let k := Sample.key in
  let a := Sample.a1 in
  let prt := Sample.p8080 in
  let e := programmed "node1" k a prt [1; 2] in
  let r := mkRule (endpointChain k a prt) [1; 2] in
  (endpointsMap p !! k = Some ([] ++ e :: []) /\
   serviceMap p !! k = None /\
   Forall (fun e' => Equal e' (endpointOf (hostname p) a prt) = false) [] /\
   Equal e (endpointOf (hostname p) a prt) = true /\
   epnft e !! familyOf a = Some r /\
   accepts (nfti p) = false) /\
  exists eps',
    deleteEndpoint k a prt ([] ++ e :: []) p =
    Ret (Some (DriverError (OpDeleteRulesOf (familyOf a) r)), eps')
        (set_nfti (asked (OpDeleteRulesOf (familyOf a) r) (nfti p))
           (set_endpointsMap (<[ k := [] ++ [] ]> (endpointsMap p)) p)).
Proof.
  intros p k a prt e r.
  assert (H0 : endpointsMap p !! k = Some ([] ++ e :: [])) by (vm_compute; reflexivity).
  assert (H1 : serviceMap p !! k = None) by (vm_compute; reflexivity).
  assert (H2 : Forall (fun e' => Equal e' (endpointOf (hostname p) a prt) = false) [])
    by constructor.
  assert (H3 : Equal e (endpointOf (hostname p) a prt) = true) by (vm_compute; reflexivity).
  assert (H4 : epnft e !! familyOf a = Some r) by (vm_compute; reflexivity).
  assert (H5 : accepts (nfti p) = false) by (vm_compute; reflexivity).
  exact (conj (conj H0 (conj H1 (conj H2 (conj H3 (conj H4 H5)))))
              (deleteEndpoint_rejected k a prt [] [] e r p H1 H2 H3 H4 H5)).
Defined.

Lemma accepts_quiet n : faults n = [] -> accepts n = true.
Proof. unfold accepts. intros ->. reflexivity. Qed.

Lemma Equal_programmed host k a prt ids :
  Equal (programmed host k a prt ids) (endpointOf host a prt) = true.
Proof.
  unfold Equal, programmed. cbn.
  rewrite !bool_decide_eq_true_2 by reflexivity. reflexivity.
Qed.

Lemma addEndpoint_unregistered_run k a prt p :
  serviceMap p !! k = None ->
  accepts (nfti p) = true ->
  exists ids n',
    addEndpoint k a prt p =
    Ret None
        (set_endpointsMap
           (<[ k := default [] (endpointsMap p !! k) ++ [programmed (hostname p) k a prt ids] ]>
              (endpointsMap p))
           (set_nfti n' p)) /\
    issued n' = issued (nfti p) ++ [OpAddEndpoint k a prt] /\
    faults n' = tail (faults (nfti p)) /\
    chains n' = {[ (familyOf a, endpointChain k a prt) ]} ∪ chains (nfti p).
Proof.
  intros Hnone Hacc.
  eexists _, _. split; [|split; [|split]].
  - rewrite addEndpoint_unfold, bind_unfold, driver_AddEndpointRules, Hacc.
    rewrite bind_unfold. cbn [modify]. rewrite bind_unfold.
    rewrite UpdateServiceChain_unregistered by exact Hnone. reflexivity.
  - reflexivity.
  - reflexivity.
  - reflexivity.
Qed.

Ltac run :=
  repeat first
    [ rewrite bind_unfold
    | progress cbn [gets ret modify logf deref nfti serviceMap endpointsMap hostname pcache klog
                    set_nfti set_serviceMap set_endpointsMap set_klog set_cache] ].

Lemma deleteEndpointRules_unregistered_quiet tf cn ids k key p :
  serviceMap p !! k = None ->
  faults (nfti p) = [] ->
  exists p',
    deleteEndpointRules tf cn ids k key p = Ret None p' /\
    serviceMap p' = serviceMap p /\
    endpointsMap p' = (if bool_decide (List.length (default [] (endpointsMap p !! k)) = 0%nat)
                       then delete k (endpointsMap p) else endpointsMap p) /\
    issued (nfti p') = issued (nfti p) ++ [OpDeleteEndpointRules tf cn ids; OpDeleteChain tf cn] /\
    chains (nfti p') = chains (nfti p) ∖ {[ (tf, cn) ]} /\
    faults (nfti p') = [] /\
    hostname p' = hostname p /\ pcache p' = pcache p.
Proof.
  intros Hnone Hq.
  unfold deleteEndpointRules. rewrite bind_unfold.
  rewrite UpdateServiceChain_unregistered by exact Hnone.
  rewrite bind_unfold. unfold DeleteEndpointRules. rewrite driver_perform.
  rewrite (accepts_quiet _ Hq).
  rewrite bind_unfold. unfold DeleteChain. rewrite driver_perform.
  cbn [nfti set_nfti]. rewrite accepts_quiet by (cbn; rewrite Hq; reflexivity).
  run.
  destruct (bool_decide (List.length (default [] (endpointsMap p !! k)) = 0%nat)).
  - run. rewrite Hnone. run. eexists. split; [reflexivity|].
    cbn. rewrite Hq, <- app_assoc. repeat split.
  - run. eexists. split; [reflexivity|].
    cbn. rewrite Hq, <- app_assoc. repeat split.
Qed.



(** ** The calls of the no-endpoints list *)

Lemma eachNoEndpoints_app call l1 l2 p :
  eachNoEndpoints call (l1 ++ l2) p =
  (let* e := eachNoEndpoints call l1 in
   match e with
   | Some err => ret (Some err)
   | None => eachNoEndpoints call l2
   end) p.
Proof.
  revert p. induction l1 as [|ip l1 IH]; intros p; cbn [app eachNoEndpoints]; [reflexivity|].
  rewrite !bind_unfold. destruct (driver (call ip) p) as [[err|] q|]; [reflexivity| |reflexivity].
  rewrite IH, bind_unfold. reflexivity.
Qed.

Section Walk.

Variable op : string -> Op.
Variable effect : string -> NFTInterface -> NFTInterface.
Hypothesis effect_faults : forall ip n, faults (effect ip n) = faults n.
Hypothesis effect_issued : forall ip n, issued (effect ip n) = issued n.
Hypothesis effect_chains : forall ip n, chains (effect ip n) = chains n.

Lemma eachNoEndpoints_calls ips : forall p,
  exists p',
    eachNoEndpoints (fun ip => perform (op ip) (effect ip)) ips p
    = Ret (snd (until_rejected (faults (nfti p)) (map op ips))) p' /\
    issued (nfti p') = issued (nfti p) ++ fst (until_rejected (faults (nfti p)) (map op ips)) /\
    faults (nfti p')
    = drop (List.length (fst (until_rejected (faults (nfti p)) (map op ips)))) (faults (nfti p)) /\
    chains (nfti p') = chains (nfti p) /\
    driver_only p p'.
Proof.
  induction ips as [|ip ips IH]; intros p; cbn [eachNoEndpoints map until_rejected].
  - exists p. rewrite app_nil_r. repeat split.
  - rewrite bind_unfold, driver_perform. unfold accepts.
    destruct (faults (nfti p)) as [|[] fs] eqn:Hf; cbn [hd negb tail fst snd].
    + destruct (IH (set_nfti (effect ip (asked (op ip) (nfti p))) p))
        as (p' & Hrun & Hi & Hfs & Hc & Hd).
      cbn [nfti set_nfti] in Hrun, Hi, Hfs, Hc. rewrite effect_faults in Hrun, Hi, Hfs.
      rewrite effect_chains in Hc.
      cbn [asked faults] in Hrun, Hi, Hfs. rewrite Hf in Hrun, Hi, Hfs.
      cbn [tail] in Hrun, Hi, Hfs.
      exists p'. split; [exact Hrun|]. split; [|split; [|split; [exact Hc|exact Hd]]].
      * rewrite Hi, effect_issued. cbn [asked issued]. rewrite <- app_assoc. reflexivity.
      * rewrite Hfs, !drop_nil. reflexivity.
    + eexists. split; [reflexivity|]. repeat split.
      cbn. rewrite Hf. reflexivity.
    + destruct (IH (set_nfti (effect ip (asked (op ip) (nfti p))) p))
        as (p' & Hrun & Hi & Hfs & Hc & Hd).
      cbn [nfti set_nfti] in Hrun, Hi, Hfs, Hc. rewrite effect_faults in Hrun, Hi, Hfs.
      rewrite effect_chains in Hc.
      cbn [asked faults] in Hrun, Hi, Hfs. rewrite Hf in Hrun, Hi, Hfs.
      cbn [tail] in Hrun, Hi, Hfs.
      exists p'. split; [exact Hrun|]. split; [|split; [|split; [exact Hc|exact Hd]]].
      * rewrite Hi, effect_issued. cbn [asked issued]. rewrite <- app_assoc. reflexivity.
      * rewrite Hfs. reflexivity.
Qed.

End Walk.

Lemma addToNoEndpointsList_each b tf p :
  addToNoEndpointsList b tf p =
  eachNoEndpoints (fun ip => AddToNoEndpointsList tf (protocol b) ip (uint16 (port b)))
                  (virtualAddresses b) p.
Proof.
  unfold addToNoEndpointsList, virtualAddresses. cbn [eachNoEndpoints].
  rewrite !bind_unfold.
  destruct (driver _ p) as [[err|] q|]; [reflexivity| |reflexivity].
  rewrite eachNoEndpoints_app. reflexivity.
Qed.

Lemma removeFromNoEndpointsList_each b tf p :
  removeFromNoEndpointsList b tf p =
  eachNoEndpoints (fun ip => RemoveFromNoEndpointsList tf (protocol b) ip (uint16 (port b)))
                  (virtualAddresses b) p.
Proof.
  unfold removeFromNoEndpointsList, virtualAddresses. cbn [eachNoEndpoints].
  rewrite !bind_unfold.
  destruct (driver _ p) as [[err|] q|]; [reflexivity| |reflexivity].
  rewrite eachNoEndpoints_app. reflexivity.
Qed.

Lemma addToNoEndpointsList_run b tf p :
  exists p',
    addToNoEndpointsList b tf p
    = Ret (snd (until_rejected (faults (nfti p)) (OpsAddToNoEndpoints b tf))) p' /\
    issued (nfti p') = issued (nfti p)
                       ++ fst (until_rejected (faults (nfti p)) (OpsAddToNoEndpoints b tf)) /\
    faults (nfti p')
    = drop (List.length (fst (until_rejected (faults (nfti p)) (OpsAddToNoEndpoints b tf))))
           (faults (nfti p)) /\
    chains (nfti p') = chains (nfti p) /\
    driver_only p p'.
Proof.
  rewrite addToNoEndpointsList_each.
  apply (eachNoEndpoints_calls
           (fun ip => OpAddToNoEndpointsList tf (protocol b) ip (uint16 (port b)))
           (fun ip n => with_kernel n (chains n) (ruleset n)
                          ({[ (tf, protocol b, ip, uint16 (port b)) ]} ∪ noEndpoints n)
                          (nextHandle n))); reflexivity.
Qed.

Lemma removeFromNoEndpointsList_run b tf p :
  exists p',
    removeFromNoEndpointsList b tf p
    = Ret (snd (until_rejected (faults (nfti p)) (OpsRemoveFromNoEndpoints b tf))) p' /\
    issued (nfti p') = issued (nfti p)
                       ++ fst (until_rejected (faults (nfti p)) (OpsRemoveFromNoEndpoints b tf)) /\
    faults (nfti p')
    = drop (List.length (fst (until_rejected (faults (nfti p)) (OpsRemoveFromNoEndpoints b tf))))
           (faults (nfti p)) /\
    chains (nfti p') = chains (nfti p) /\
    driver_only p p'.
Proof.
  rewrite removeFromNoEndpointsList_each.
  apply (eachNoEndpoints_calls
           (fun ip => OpRemoveFromNoEndpointsList tf (protocol b) ip (uint16 (port b)))
           (fun ip n => with_kernel n (chains n) (ruleset n)
                          (noEndpoints n ∖ {[ (tf, protocol b, ip, uint16 (port b)) ]})
                          (nextHandle n))); reflexivity.
Qed.

(** X10.  [addToNoEndpointsList] and [removeFromNoEndpointsList] always return;
    they call the driver once per virtual address of the port, the cluster
    IP, then the external IPs, then the load balancer IPs, with the port
    number cut to 16 bits, stop at the first call the driver rejects and
    return its error; nothing of the proxy but the driver changes. *)
Theorem NoEndpointsList_calls (b : BaseServiceInfo) (tf : TableFamily) (p : proxy) :
  (exists p',
     addToNoEndpointsList b tf p
     = Ret (snd (until_rejected (faults (nfti p)) (OpsAddToNoEndpoints b tf))) p' /\
     issued (nfti p') = issued (nfti p)
                        ++ fst (until_rejected (faults (nfti p)) (OpsAddToNoEndpoints b tf)) /\
     driver_only p p') /\
  (exists p',
     removeFromNoEndpointsList b tf p
     = Ret (snd (until_rejected (faults (nfti p)) (OpsRemoveFromNoEndpoints b tf))) p' /\
     issued (nfti p') = issued (nfti p)
                        ++ fst (until_rejected (faults (nfti p)) (OpsRemoveFromNoEndpoints b tf)) /\
     driver_only p p').
Proof.
  split.
  - destruct (addToNoEndpointsList_run b tf p) as (p' & H1 & H2 & _ & _ & H3). eauto.
  - destruct (removeFromNoEndpointsList_run b tf p) as (p' & H1 & H2 & _ & _ & H3). eauto.
Qed.

Lemma until_rejected_quiet ops : until_rejected [] ops = (ops, None).
Proof. induction ops as [|op ops IH]; cbn; [reflexivity|]. rewrite IH. reflexivity. Qed.

(** ** Service ports, added and removed *)

Lemma establishes_bind {A B} Q (m : M A) (k : A -> M B) :
  (forall a, establishes Q (k a)) -> establishes Q (bind m k).
Proof.
  intros Hk p b p' H. rewrite bind_unfold in H.
  destruct (m p) as [a q|]; [|discriminate H]. eapply Hk, H.
Qed.

Section Touches.

Variable ks : list ServicePortName.
Variable allowed : Op -> bool.

Lemma touches_refl p : touches ks allowed p p.
Proof. repeat split. apply issues_refl. Qed.

Lemma touches_trans p q r : touches ks allowed p q -> touches ks allowed q r -> touches ks allowed p r.
Proof.
  intros (S1 & E1 & C1 & H1 & I1) (S2 & E2 & C2 & H2 & I2).
  repeat split; try congruence.
  - intros k Hk. rewrite S2, S1 by exact Hk. reflexivity.
  - eapply issues_trans; eassumption.
Qed.

Lemma touches_same p q :
  serviceMap q = serviceMap p -> endpointsMap q = endpointsMap p -> pcache q = pcache p ->
  hostname q = hostname p -> nfti q = nfti p -> touches ks allowed p q.
Proof.
  intros S E C H N. repeat split; try assumption.
  - intros k _. now rewrite S.
  - apply issues_same, N.
Qed.

Lemma touches_logf sev fmt a : preserves (touches ks allowed) (logf sev fmt a).
Proof. intros p [] p' H. injection H as <-. apply touches_same; reflexivity. Qed.

Lemma touches_driver {A} (call : NFTInterface -> A * NFTInterface) (op : Op) :
  allowed op = true ->
  (forall n, issued (snd (call n)) = issued n ++ [op]) ->
  preserves (touches ks allowed) (driver call).
Proof.
  intros Hop Hcall p a p' H.
  destruct (driver_issued call op Hcall p a p' H) as (I & C & Hh & E & S).
  repeat split; try assumption.
  - intros k _. now rewrite S.
  - exists [op]. split; [exact I|]. constructor; [exact Hop|constructor].
Qed.

Lemma touches_insert k (f : proxy -> serviceInfo) :
  k ∈ ks ->
  preserves (touches ks allowed)
    (modify (fun p => set_serviceMap (<[ k := f p ]> (serviceMap p)) p)).
Proof.
  intros Hk p [] p' H. injection H as <-. repeat split; [|apply issues_same; reflexivity].
  intros k' Hk'. cbn. apply lookup_insert_ne. intros ->. exact (Hk' Hk).
Qed.

Lemma touches_delete k :
  k ∈ ks ->
  preserves (touches ks allowed) (modify (fun p => set_serviceMap (delete k (serviceMap p)) p)).
Proof.
  intros Hk p [] p' H. injection H as <-. repeat split; [|apply issues_same; reflexivity].
  intros k' Hk'. cbn. apply lookup_delete_ne. intros ->. exact (Hk' Hk).
Qed.

Lemma until_rejected_Forall (P : Op -> Prop) ops : forall fs,
  Forall P ops -> Forall P (fst (until_rejected fs ops)).
Proof.
  induction ops as [|op ops IH]; intros fs Hops; cbn [until_rejected]; [constructor|].
  apply Forall_cons in Hops as [Hop Hops].
  destruct fs as [|[] fs]; cbn [fst].
  - constructor; [exact Hop|apply IH, Hops].
  - constructor; [exact Hop|constructor].
  - constructor; [exact Hop|apply IH, Hops].
Qed.

Lemma touches_removeFromNoEndpointsList b tf :
  (forall proto ip prt, allowed (OpRemoveFromNoEndpointsList tf proto ip prt) = true) ->
  preserves (touches ks allowed) (removeFromNoEndpointsList b tf).
Proof.
  intros Hall p e p' H.
  destruct (removeFromNoEndpointsList_run b tf p) as (q & Hrun & Hi & _ & _ & S & E & C & Hh & _).
  rewrite Hrun in H. injection H as _ <-.
  repeat split; try assumption.
  - intros k _. now rewrite S.
  - eexists. split; [exact Hi|]. apply until_rejected_Forall.
    unfold OpsRemoveFromNoEndpoints. apply Forall_map, Forall_forall. intros ip _. apply Hall.
Qed.

Lemma touches_addToNoEndpointsList b tf :
  (forall proto ip prt, allowed (OpAddToNoEndpointsList tf proto ip prt) = true) ->
  preserves (touches ks allowed) (addToNoEndpointsList b tf).
Proof.
  intros Hall p e p' H.
  destruct (addToNoEndpointsList_run b tf p) as (q & Hrun & Hi & _ & _ & S & E & C & Hh & _).
  rewrite Hrun in H. injection H as _ <-.
  repeat split; try assumption.
  - intros k _. now rewrite S.
  - eexists. split; [exact Hi|]. apply until_rejected_Forall.
    unfold OpsAddToNoEndpoints. apply Forall_map, Forall_forall. intros ip _. apply Hall.
Qed.

End Touches.

Ltac touches_step :=
  first
    [ apply preserves_bind; [apply touches_trans| |]
    | apply preserves_ret, touches_refl
    | apply preserves_gets, touches_refl
    | apply preserves_deref, touches_refl
    | apply touches_logf ].

(** [deleteService] leaves everything but its own key alone. *)
Lemma touches_deleteService k ks sp svc :
  k ∈ ks -> preserves (touches ks removes_service) (deleteService k sp svc).
Proof.
  intros Hk. unfold deleteService.
  touches_step; [touches_step|intros sm].
  destruct (sm !! k) as [svcInfo|]; [|touches_step].
  destruct (getIPFamily (ClusterIP_String (base svcInfo))) as [fam tf].
  touches_step.
  { destruct (negb _); [|touches_step].
    touches_step; [apply touches_removeFromNoEndpointsList; reflexivity|].
    intros [err|]; touches_step. }
  intros _. touches_step; [touches_step|intros sc].
  touches_step.
  { apply preserves_forEach; [apply touches_refl|apply touches_trans|].
    intros [chain rules]. destruct (bool_decide _); [|touches_step].
    touches_step.
    - apply (touches_driver _ _ _ (OpDeleteServiceRules tf chain (RuleID rules)));
        [reflexivity|]. intros n. apply perform_issued. reflexivity.
    - intros [err|]; touches_step. }
  intros _. touches_step.
  { apply (touches_driver _ _ _ (OpDeleteServiceChains tf (ServiceID sc))); [reflexivity|].
    intros n. apply perform_issued. reflexivity. }
  intros e. touches_step; [destruct e; touches_step|].
  intros _. apply touches_delete, Hk.
Qed.

Lemma deleteService_absent k sp svc :
  establishes (fun p => serviceMap p !! k = None) (deleteService k sp svc).
Proof.
  unfold deleteService. intros p a p' H. rewrite bind_unfold in H. cbn [gets] in H.
  destruct (serviceMap p !! k) as [svcInfo|] eqn:Hk.
  - clear Hk. revert p a p' H.
    destruct (getIPFamily (ClusterIP_String (base svcInfo))) as [fam tf].
    apply establishes_bind. intros _.
    apply establishes_bind. intros sc.
    apply establishes_bind. intros _.
    apply establishes_bind. intros e.
    apply establishes_bind. intros _.
    intros p [] p' H. injection H as <-. cbn. apply lookup_delete_eq.
  - injection H as H. subst p'. exact Hk.
Qed.

Lemma deleteService_serviceMap k sp svc p p' :
  deleteService k sp svc p = Ret tt p' -> serviceMap p' = delete k (serviceMap p).
Proof.
  intros H.
  destruct (touches_deleteService k [k] sp svc (list_elem_of_here _ _) p tt p' H) as (S & _).
  pose proof (deleteService_absent k sp svc p tt p' H) as Hk. cbn in Hk.
  apply map_eq. intros i. destruct (decide (i = k)) as [->|Hne].
  - rewrite Hk, lookup_delete_eq. reflexivity.
  - rewrite lookup_delete_ne by congruence. apply S.
    intros Hin. apply list_elem_of_singleton in Hin. exact (Hne Hin).
Qed.

(** X11.  Whenever [deleteService] returns, the key is out of the service map,
    whatever the driver answered, the other keys, the endpoints map and the
    cache are what they were, and the calls issued only take a service port
    down. *)
Theorem deleteService_forgets (k : ServicePortName) (sp : ServicePortSpec) (svc : Service)
    (p p' : proxy) :
  deleteService k sp svc p = Ret tt p' ->
  serviceMap p' = delete k (serviceMap p) /\
  endpointsMap p' = endpointsMap p /\
  pcache p' = pcache p /\
  issues removes_service p p'.
Proof.
  intros H.
  destruct (touches_deleteService k [k] sp svc (list_elem_of_here _ _) p tt p' H)
    as (_ & E & C & _ & I).
  split; [exact (deleteService_serviceMap _ _ _ _ _ H)|auto].
Qed.

Lemma deleteService_forgets_witness :
  let p := Cases.with_web in
  let p' := state_of (deleteService Sample.key Sample.http Sample.web p) p in
  deleteService Sample.key Sample.http Sample.web p = Ret tt p' /\
  serviceMap p' = delete Sample.key (serviceMap p) /\
  endpointsMap p' = endpointsMap p /\
  pcache p' = pcache p /\
  issues removes_service p p'.
Proof.
  intros p p'.
  assert (H : deleteService Sample.key Sample.http Sample.web p = Ret tt p')
    by (apply outcome_eta; vm_compute; reflexivity).
  exact (conj H (deleteService_forgets Sample.key Sample.http Sample.web p p' H)).
Defined.

Section AddServiceStages.

Variable k : ServicePortName.
Variable ks : list ServicePortName.
Hypothesis k_in : k ∈ ks.

Let T := touches ks builds_service.

Lemma touches_finish sp svc tf b : preserves T (addService_finish k sp svc tf b).
Proof.
  unfold addService_finish, T.
  touches_step; [touches_step|intros em].
  destruct (bool_decide _).
  - touches_step; [apply touches_addToNoEndpointsList; reflexivity|].
    intros [err|]; [touches_step|].
    apply (touches_insert _ _ k (fun _ => newServiceInfo sp svc b)), k_in.
  - apply (touches_insert _ _ k (fun _ => newServiceInfo sp svc b)), k_in.
Qed.

Lemma touches_loadBalancer tf svcID pos b next :
  (forall b', preserves T (next b')) ->
  preserves T (addService_loadBalancer k tf svcID pos b next).
Proof.
  intros Hnext. unfold addService_loadBalancer, T in *.
  destruct (bool_decide _); [|apply Hnext].
  touches_step.
  { apply (touches_driver _ _ _ (OpProgramServiceLoadBalancerFW tf svcID)); [reflexivity|].
    intros n. apply install_issued. }
  intros [err|id]; [touches_step|].
  touches_step; [touches_step|intros b1].
  touches_step.
  { apply (touches_driver _ _ _ (OpProgramServiceLoadBalancerIP tf svcID (loadBalancerIPs b)
                                   (protocol b1) (port b1) pos)); [reflexivity|].
    intros n. apply install_issued. }
  intros [err|id']; [touches_step|].
  touches_step; [touches_step|intros b2]. apply Hnext.
Qed.

Lemma touches_externalIPs tf cn pos b next :
  (forall pos' b', preserves T (next pos' b')) ->
  preserves T (addService_externalIPs k tf cn pos b next).
Proof.
  intros Hnext. unfold addService_externalIPs, T in *.
  destruct (bool_decide _); [|apply Hnext].
  touches_step.
  { apply (touches_driver _ _ _ (OpProgramServiceExternalIP tf cn (externalIPs b)
                                   (protocol b) (port b) pos)); [reflexivity|].
    intros n. apply install_issued. }
  intros [err|id]; [touches_step|].
  touches_step; [touches_step|intros b1].
  touches_step; [touches_step|intros pos']. apply Hnext.
Qed.

Lemma touches_nodePort tf cn b next :
  (forall b', preserves T (next b')) ->
  preserves T (addService_nodePort k tf cn b next).
Proof.
  intros Hnext. unfold addService_nodePort, T in *.
  destruct (bool_decide _); [|apply Hnext].
  touches_step.
  { apply (touches_driver _ _ _ (OpProgramServiceNodePort tf cn (protocol b) (nodePort b)));
      [reflexivity|]. intros n. apply install_issued. }
  intros [err|id]; [touches_step|].
  touches_step; [touches_step|intros b1]. apply Hnext.
Qed.

Lemma touches_clusterIP tf cn b next :
  (forall pos' b', preserves T (next pos' b')) ->
  preserves T (addService_clusterIP k tf cn b next).
Proof.
  intros Hnext. unfold addService_clusterIP, T in *.
  destruct (clusterIP b) as [clip|]; [|apply Hnext].
  touches_step.
  { apply (touches_driver _ _ _ (OpProgramServiceClusterIP tf cn clip (protocol b) (port b)));
      [reflexivity|]. intros n. apply install_issued. }
  intros [err|id]; [touches_step|].
  touches_step; [touches_step|intros b1].
  touches_step; [touches_step|intros pos']. apply Hnext.
Qed.

Lemma touches_addService sp svc b : preserves T (addService k sp svc b).
Proof.
  unfold addService.
  unfold T. touches_step; [touches_step|intros sm]. fold T.
  destruct (sm !! k); [apply touches_logf|].
  cbv zeta. unfold T. touches_step.
  { eapply touches_driver; [|intros n; apply perform_issued; reflexivity]. reflexivity. }
  intros e. touches_step; [destruct e; touches_step|].
  intros _. fold T.
  apply touches_clusterIP. intros pos b1.
  apply touches_nodePort. intros b2.
  apply touches_externalIPs. intros pos' b3.
  apply touches_loadBalancer. intros b4.
  apply touches_finish.
Qed.

End AddServiceStages.

(** X12.  Whenever [addService] returns, the keys of the service map other
    than its own, the endpoints map and the cache are what they were, and
    the calls issued only set a service port up. *)
Theorem addService_frame (k : ServicePortName) (sp : ServicePortSpec) (svc : Service)
    (b : BaseServiceInfo) (p p' : proxy) :
  addService k sp svc b p = Ret tt p' ->
  (forall k', k' <> k -> serviceMap p' !! k' = serviceMap p !! k') /\
  endpointsMap p' = endpointsMap p /\
  pcache p' = pcache p /\
  issues builds_service p p'.
Proof.
  intros H.
  destruct (touches_addService k [k] (list_elem_of_here _ _) sp svc b p tt p' H)
    as (S & E & C & _ & I).
  split; [|auto]. intros k' Hne. apply S.
  intros Hin. apply list_elem_of_singleton in Hin. exact (Hne Hin).
Qed.

Lemma addService_frame_witness :
  let p := Sample.fresh_proxy in
  let b := newBaseServiceInfo Sample.http Sample.web in
  let p' := state_of (addService Sample.key Sample.http Sample.web b p) p in
  addService Sample.key Sample.http Sample.web b p = Ret tt p' /\
  (forall k', k' <> Sample.key -> serviceMap p' !! k' = serviceMap p !! k') /\
  endpointsMap p' = endpointsMap p /\
  pcache p' = pcache p /\
  issues builds_service p p'.
Proof.
  intros p b p'.
  assert (H : addService Sample.key Sample.http Sample.web b p = Ret tt p')
    by (apply outcome_eta; vm_compute; reflexivity).
  exact (conj H (addService_frame Sample.key Sample.http Sample.web b p p' H)).
Defined.

Lemma elem_of_portKeys svc sp :
  sp ∈ svc_Ports svc ->
  getSvcPortName (svc_Name svc) (svc_Namespace svc) (sp_Name sp) (sp_Protocol sp) ∈ portKeys svc.
Proof.
  intros H. unfold portKeys. apply list_elem_of_In, in_map_iff.
  exists sp. split; [reflexivity|apply list_elem_of_In, H].
Qed.

Lemma preserves_forEach_in {A} (R : proxy -> proxy -> Prop) (l : list A) (body : A -> M unit) :
  (forall p, R p p) -> (forall p q r, R p q -> R q r -> R p r) ->
  (forall x, x ∈ l -> preserves R (body x)) -> preserves R (forEach l body).
Proof.
  intros Hrefl Htrans. induction l as [|x l IH]; intros Hb; cbn [forEach].
  - apply preserves_ret, Hrefl.
  - apply preserves_bind; [exact Htrans|apply Hb, list_elem_of_here|intros _].
    apply IH. intros y Hy. apply Hb, list_elem_of_further, Hy.
Qed.

Lemma touches_AddService svc :
  preserves (touches (portKeys svc) builds_service) (AddService (Some svc)).
Proof.
  unfold AddService. cbn [deref]. 
  touches_step; [touches_step|intros s].
  touches_step; [touches_step|intros _].
  destruct (ShouldSkipService _ _); [touches_step|].
  apply preserves_forEach_in; [apply touches_refl|apply touches_trans|].
  intros sp Hsp. apply touches_addService, elem_of_portKeys, Hsp.
Qed.

Lemma touches_DeleteService svc :
  preserves (touches (portKeys svc) removes_service) (DeleteService (Some svc)).
Proof.
  unfold DeleteService. cbn [deref].
  touches_step; [touches_step|intros s].
  touches_step; [touches_step|intros _].
  apply preserves_forEach_in; [apply touches_refl|apply touches_trans|].
  intros sp Hsp. apply touches_deleteService, elem_of_portKeys, Hsp.
Qed.

Lemma forEach_deleteService svc (key : ServicePortSpec -> ServicePortName) l : forall p p',
  forEach l (fun sp => deleteService (key sp) sp svc) p = Ret tt p' ->
  forall k, serviceMap p' !! k = if bool_decide (k ∈ map key l) then None else serviceMap p !! k.
Proof.
  induction l as [|x l IH]; intros p p' H k; cbn [forEach map] in *.
  - injection H as <-. rewrite bool_decide_eq_false_2 by apply not_elem_of_nil. reflexivity.
  - rewrite bind_unfold in H.
    destruct (deleteService (key x) x svc p) as [[] q|] eqn:Hx; [|discriminate H].
    rewrite (IH _ _ H k), (deleteService_serviceMap _ _ _ _ _ Hx).
    destruct (decide (k = key x)) as [->|Hne].
    + rewrite lookup_delete_eq. rewrite (bool_decide_eq_true_2 (key x ∈ key x :: _))
        by apply list_elem_of_here.
      destruct (bool_decide _); reflexivity.
    + rewrite lookup_delete_ne by congruence.
      destruct (bool_decide (k ∈ map key l)) eqn:Hin.
      * apply bool_decide_eq_true_1 in Hin.
        rewrite bool_decide_eq_true_2 by (apply list_elem_of_further, Hin). reflexivity.
      * apply bool_decide_eq_false_1 in Hin. rewrite bool_decide_eq_false_2; [reflexivity|].
        intros Hc. apply elem_of_cons in Hc as [Hc|Hc]; [exact (Hne Hc)|exact (Hin Hc)].
Qed.

Lemma DeleteService_serviceMap svc p p' :
  DeleteService (Some svc) p = Ret tt p' ->
  forall k, serviceMap p' !! k = if bool_decide (k ∈ portKeys svc) then None else serviceMap p !! k.
Proof.
  unfold DeleteService. cbn [deref]. rewrite !bind_unfold. cbn [ret logf modify].
  intros H k.
  rewrite (forEach_deleteService svc
             (fun sp => getSvcPortName (svc_Name svc) (svc_Namespace svc) (sp_Name sp)
                                       (sp_Protocol sp)) _ _ _ H k).
  reflexivity.
Qed.

(** X13.  When none of the ports of a service is in the service map, and
    [AddService] and then [DeleteService] return for it, the service map,
    the endpoints map and the cache are back to what they were, whatever
    the driver rejected on the way; the calls issued are calls that set a
    port up followed by calls that take a port down. *)
Theorem AddService_then_DeleteService (svc : Service) (p p1 p2 : proxy) :
  (forall k, k ∈ portKeys svc -> serviceMap p !! k = None) ->
  AddService (Some svc) p = Ret tt p1 ->
  DeleteService (Some svc) p1 = Ret tt p2 ->
  serviceMap p2 = serviceMap p /\
  endpointsMap p2 = endpointsMap p /\
  pcache p2 = pcache p /\
  exists ups downs,
    issued (nfti p2) = issued (nfti p) ++ ups ++ downs /\
    Forall (fun op => builds_service op = true) ups /\
    Forall (fun op => removes_service op = true) downs.
Proof.
  intros Hfresh Hadd Hdel.
  destruct (touches_AddService svc p tt p1 Hadd) as (S1 & E1 & C1 & _ & ups & I1 & F1).
  destruct (touches_DeleteService svc p1 tt p2 Hdel) as (_ & E2 & C2 & _ & downs & I2 & F2).
  split; [|split; [congruence|split; [congruence|]]].
  - apply map_eq. intros k. rewrite (DeleteService_serviceMap _ _ _ Hdel k).
    destruct (bool_decide (k ∈ portKeys svc)) eqn:Hin.
    + apply bool_decide_eq_true_1 in Hin. symmetry. apply Hfresh, Hin.
    + apply bool_decide_eq_false_1 in Hin. apply S1, Hin.
  - exists ups, downs. split; [|split; assumption].
    rewrite I2, I1, <- app_assoc. reflexivity.
Qed.

Lemma AddService_then_DeleteService_witness :
  let svc := Sample.web in
  let p := Sample.fresh_proxy in
  let p1 := Sample.state_after [EvAddService (Some svc)] p in
  let p2 := Sample.state_after [EvDeleteService (Some svc)] p1 in
  ((forall k, k ∈ portKeys svc -> serviceMap p !! k = None) /\
   AddService (Some svc) p = Ret tt p1 /\
   DeleteService (Some svc) p1 = Ret tt p2) /\
  serviceMap p2 = serviceMap p /\
  endpointsMap p2 = endpointsMap p /\
  pcache p2 = pcache p /\
  exists ups downs,
    issued (nfti p2) = issued (nfti p) ++ ups ++ downs /\
    Forall (fun op => builds_service op = true) ups /\
    Forall (fun op => removes_service op = true) downs.
Proof.
  intros svc p p1 p2.
  assert (H1 : forall k, k ∈ portKeys svc -> serviceMap p !! k = None)
    by (intros k _; apply lookup_empty).
  assert (H2 : AddService (Some svc) p = Ret tt p1) by (vm_compute; reflexivity).
  assert (H3 : DeleteService (Some svc) p1 = Ret tt p2) by (vm_compute; reflexivity).
  exact (conj (conj H1 (conj H2 H3)) (AddService_then_DeleteService svc p p1 p2 H1 H2 H3)).
Defined.

(** A loop whose every step only writes a line to the log. *)
Lemma forEach_logs {A} (l : list A) (body : A -> M unit) (line : A -> LogEntry)
    (I : proxy -> Prop) :
  (forall p lg, I p -> I (set_klog lg p)) ->
  (forall x p, x ∈ l -> I p -> body x p = Ret tt (set_klog (klog p ++ [line x]) p)) ->
  forall p, I p -> forEach l body p = Ret tt (set_klog (klog p ++ map line l) p).
Proof.
  intros Hlog. induction l as [|x l IH]; intros Hb p Hp; cbn [forEach map].
  - rewrite app_nil_r. destruct p; reflexivity.
  - rewrite bind_unfold, Hb by (try apply list_elem_of_here; exact Hp).
    rewrite IH.
    + cbn [klog set_klog]. rewrite <- app_assoc. reflexivity.
    + intros y q Hy. apply Hb, list_elem_of_further, Hy.
    + apply Hlog, Hp.
Qed.

(** X14.  [DeleteService] for a service none of whose ports is in the service
    map issues no call and changes neither map; it logs its first line and
    one warning per port, in the order of the ports. *)
Theorem DeleteService_unknown (svc : Service) (p : proxy) :
  (forall k, k ∈ portKeys svc -> serviceMap p !! k = None) ->
  DeleteService (Some svc) p =
  Ret tt (set_klog
            (klog p ++
             Log Info "DeleteService for a service %s/%s" [svc_Namespace svc; svc_Name svc]
             :: map (fun k => Log Warning "Service port name %+v does not exist" [spn_String k])
                    (portKeys svc))
            p).
Proof.
  intros Hnone. unfold DeleteService. run.
  rewrite (forEach_logs _ _
             (fun sp => Log Warning "Service port name %+v does not exist"
                            [spn_String (getSvcPortName (svc_Name svc) (svc_Namespace svc)
                                                        (sp_Name sp) (sp_Protocol sp))])
             (fun q => forall k, k ∈ portKeys svc -> serviceMap q !! k = None)).
  - cbn [klog set_klog]. unfold portKeys. rewrite <- app_assoc, map_map. reflexivity.
  - intros q lg Hq. exact Hq.
  - intros sp q Hsp Hq. unfold deleteService. rewrite bind_unfold. cbn [gets].
    rewrite (Hq _ (elem_of_portKeys _ _ Hsp)). reflexivity.
  - exact Hnone.
Qed.

Lemma DeleteService_unknown_witness :
  let svc := Sample.web in
  let p := Sample.fresh_proxy in
  (forall k, k ∈ portKeys svc -> serviceMap p !! k = None) /\
  DeleteService (Some svc) p =
  Ret tt (set_klog
            (klog p ++
             Log Info "DeleteService for a service %s/%s" [svc_Namespace svc; svc_Name svc]
             :: map (fun k => Log Warning "Service port name %+v does not exist" [spn_String k])
                    (portKeys svc))
            p).
Proof.
  intros svc p.
  assert (H1 : forall k, k ∈ portKeys svc -> serviceMap p !! k = None)
    by (intros k _; apply lookup_empty).
  exact (conj H1 (DeleteService_unknown svc p H1)).
Defined.

(** X15.  [AddService] for a service all of whose ports are in the service map
    already issues no call and changes neither map; it logs its first line
    and, unless the service is one to skip, one warning per port. *)
Theorem AddService_known (svc : Service) (p : proxy) :
  (forall k, k ∈ portKeys svc -> is_Some (serviceMap p !! k)) ->
  AddService (Some svc) p =
  Ret tt (set_klog
            (klog p ++
             Log Info "AddService for a service %s/%s" [svc_Namespace svc; svc_Name svc]
             :: (if ShouldSkipService (mkNamespacedName (svc_Namespace svc) (svc_Name svc)) svc
                 then []
                 else map (fun k => Log Warning "Service port name %+v already exists"
                                        [spn_String k])
                          (portKeys svc)))
            p).
Proof.
  intros Hsome. unfold AddService. run.
  destruct (ShouldSkipService _ svc); [reflexivity|].
  rewrite (forEach_logs _ _
             (fun sp => Log Warning "Service port name %+v already exists"
                            [spn_String (getSvcPortName (svc_Name svc) (svc_Namespace svc)
                                                        (sp_Name sp) (sp_Protocol sp))])
             (fun q => forall k, k ∈ portKeys svc -> is_Some (serviceMap q !! k))).
  - cbn [klog set_klog]. unfold portKeys. rewrite <- app_assoc, map_map. reflexivity.
  - intros q lg Hq. exact Hq.
  - intros sp q Hsp Hq. unfold addService. rewrite bind_unfold. cbn [gets].
    destruct (Hq _ (elem_of_portKeys _ _ Hsp)) as [info ->]. reflexivity.
  - exact Hsome.
Qed.

Lemma AddService_known_witness :
  let svc := Sample.web in
  let p := Cases.with_web in
  (forall k, k ∈ portKeys svc -> is_Some (serviceMap p !! k)) /\
  AddService (Some svc) p =
  Ret tt (set_klog
            (klog p ++
             Log Info "AddService for a service %s/%s" [svc_Namespace svc; svc_Name svc]
             :: (if ShouldSkipService (mkNamespacedName (svc_Namespace svc) (svc_Name svc)) svc
                 then []
                 else map (fun k => Log Warning "Service port name %+v already exists"
                                        [spn_String k])
                          (portKeys svc)))
            p).
Proof.
  intros svc p.
  assert (H1 : forall k, k ∈ portKeys svc -> is_Some (serviceMap p !! k)).
  { intros k Hk. apply list_elem_of_singleton in Hk. subst k.
    exists Cases.web_entry. apply has_default. vm_compute. reflexivity. }
  exact (conj H1 (AddService_known svc p H1)).
Defined.

(** ** The tuples of a slice *)

Lemma valid_port_inv p :
  valid_port p = true ->
  exists n proto prt, slp_Name p = Some n /\ slp_Protocol p = Some proto /\
                      slp_Port p = Some prt /\ prt <> 0.
Proof.
  unfold valid_port. destruct (slp_Name p) as [n|], (slp_Protocol p) as [proto|],
    (slp_Port p) as [prt|]; try discriminate.
  intros H. exists n, proto, prt. repeat split.
  apply negb_true_iff, bool_decide_eq_false_1 in H. exact H.
Qed.

Lemma tupleOf_fields svcName namespace e p a n proto prt r :
  slp_Name p = Some n -> slp_Protocol p = Some proto -> slp_Port p = Some prt ->
  se_Ready e = Some r ->
  tupleOf svcName namespace e p a =
  {| name := getSvcPortName svcName namespace n proto;
     addr := {| addr_IP := a;
                addr_Hostname := default "" (se_Hostname e);
                addr_NodeName := se_Hostname e;
                addr_TargetRef := se_TargetRef e |};
     eport := {| port_Name := n; port_Port := prt; port_Protocol := proto |};
     ready := r |}.
Proof. intros Hn Hp Ht Hr. unfold tupleOf. rewrite Hn, Hp, Ht, Hr. reflexivity. Qed.

Section Listing.

Variable svcName namespace : string.

(** The addresses of an endpoint under one port: one tuple per address,
    unless the endpoint has addresses and no Ready condition. *)
Lemma processAddresses_spec e p n proto prt :
  slp_Name p = Some n -> slp_Protocol p = Some proto -> slp_Port p = Some prt ->
  forall addrs acc,
    processAddresses (getSvcPortName svcName namespace n proto) e n proto prt addrs acc =
    match addrs, se_Ready e with
    | _ :: _, None => RFault
    | _, _ => ROk (acc ++ map (tupleOf svcName namespace e p) addrs)
    end.
Proof.
  intros Hn Hp Ht. induction addrs as [|a addrs IH]; intros acc; cbn [processAddresses].
  - rewrite app_nil_r. destruct (se_Ready e); reflexivity.
  - destruct (se_Ready e) as [r|] eqn:Hr; [|reflexivity].
    rewrite IH. cbn [map].
    rewrite (tupleOf_fields _ _ _ _ a _ _ _ _ Hn Hp Ht Hr).
    rewrite <- app_assoc. destruct addrs; reflexivity.
Qed.

(** One valid port of an endpoint. *)
Lemma processPorts_step e p ps acc :
  valid_port p = true ->
  processPorts svcName namespace e (p :: ps) acc =
  if listable e
  then processPorts svcName namespace e ps
                    (acc ++ map (tupleOf svcName namespace e p) (se_Addresses e))
  else RFault.
Proof.
  intros Hp. destruct (valid_port_inv p Hp) as (n & proto & prt & Hn & Hproto & Hprt & Hnz).
  cbn [processPorts]. rewrite Hprt, Hn, Hproto. rewrite bool_decide_eq_false_2 by exact Hnz.
  rewrite (processAddresses_spec e p n proto prt Hn Hproto Hprt).
  unfold listable. destruct (se_Addresses e), (se_Ready e); reflexivity.
Qed.

Lemma processPorts_invalid e p ps acc :
  valid_port p = false ->
  processPorts svcName namespace e (p :: ps) acc =
  match slp_Port p with
  | Some 0 => match slp_Name p with Some n => RErr (InvalidPort n) | None => RFault end
  | _ => RFault
  end.
Proof.
  unfold valid_port. cbn [processPorts]. intros Hp.
  destruct (slp_Port p) as [prt|]; [|reflexivity].
  destruct (bool_decide (prt = 0)) eqn:Hz.
  - apply bool_decide_eq_true_1 in Hz. subst prt. reflexivity.
  - apply bool_decide_eq_false_1 in Hz.
    destruct (slp_Name p), (slp_Protocol p); try discriminate Hp;
      destruct prt; try reflexivity; contradiction Hz; reflexivity.
Qed.

Lemma processPorts_valid e : forall ps acc,
  Forall (fun p => valid_port p = true) ps ->
  listable e = true ->
  processPorts svcName namespace e ps acc = ROk (acc ++ tuplesOf svcName namespace ps e).
Proof.
  induction ps as [|p ps IH]; intros acc Hps He.
  - unfold tuplesOf. cbn. rewrite app_nil_r. reflexivity.
  - apply Forall_cons in Hps as [Hp Hps].
    rewrite processPorts_step, He, IH by assumption.
    unfold tuplesOf. cbn [flat_map]. rewrite <- app_assoc. reflexivity.
Qed.

(** Whenever the ports of an endpoint are listed, they are all valid and
    the list is the one above. *)
Lemma processPorts_ok e : forall ps acc l,
  processPorts svcName namespace e ps acc = ROk l ->
  Forall (fun p => valid_port p = true) ps /\
  (ps = [] \/ listable e = true) /\
  l = acc ++ tuplesOf svcName namespace ps e.
Proof.
  induction ps as [|p ps IH]; intros acc l H.
  - cbn in H. injection H as <-. unfold tuplesOf. cbn. rewrite app_nil_r. auto.
  - destruct (valid_port p) eqn:Hp.
    + rewrite processPorts_step in H by exact Hp.
      destruct (listable e) eqn:He; [|discriminate H].
      destruct (IH _ _ H) as (Hps & _ & ->).
      split; [constructor; assumption|]. split; [auto|].
      unfold tuplesOf. cbn [flat_map]. rewrite <- app_assoc. reflexivity.
    + rewrite processPorts_invalid in H by exact Hp.
      destruct (slp_Port p) as [[| |]|]; try discriminate H.
      destruct (slp_Name p); discriminate H.
Qed.

Lemma processEndpoints_valid ps : forall es acc,
  Forall (fun p => valid_port p = true) ps ->
  Forall (fun e => listable e = true) es ->
  processEndpoints svcName namespace ps es acc
  = ROk (acc ++ flat_map (tuplesOf svcName namespace ps) es).
Proof.
  induction es as [|e es IH]; intros acc Hps Hes; cbn [processEndpoints flat_map].
  - rewrite app_nil_r. reflexivity.
  - apply Forall_cons in Hes as [He Hes].
    rewrite processPorts_valid, IH by assumption. rewrite <- app_assoc. reflexivity.
Qed.

Lemma processEndpoints_ok ps : forall es acc l,
  processEndpoints svcName namespace ps es acc = ROk l ->
  (es = [] \/ Forall (fun p => valid_port p = true) ps) /\
  Forall (fun e => ps = [] \/ listable e = true) es /\
  l = acc ++ flat_map (tuplesOf svcName namespace ps) es.
Proof.
  induction es as [|e es IH]; intros acc l H; cbn [processEndpoints flat_map] in *.
  - injection H as <-. rewrite app_nil_r. auto.
  - destruct (processPorts svcName namespace e ps acc) as [l1| |] eqn:H1; try discriminate H.
    destruct (processPorts_ok _ _ _ _ H1) as (Hps & He & ->).
    destruct (IH _ _ H) as (_ & Hes & ->).
    split; [auto|]. split; [constructor; assumption|].
    rewrite <- app_assoc. reflexivity.
Qed.

End Listing.

(** X16.  For a slice with the service name label, whose ports all have a
    name, a protocol and a number other than 0, and whose endpoints all
    have a Ready condition (or no address), [processEpSlice] returns the
    tuples endpoint by endpoint, port by port and address by address. *)
Theorem processEpSlice_well_formed (epsl : EndpointSlice) (svcName : string) :
  epsl_Labels epsl !! LabelServiceName = Some svcName ->
  Forall (fun p => valid_port p = true) (epsl_Ports epsl) ->
  Forall (fun e => listable e = true) (epsl_Endpoints epsl) ->
  processEpSlice epsl =
  ROk (flat_map (tuplesOf svcName (epsl_Namespace epsl) (epsl_Ports epsl))
                (epsl_Endpoints epsl)).
Proof.
  intros Hl Hps Hes. unfold processEpSlice, getServiceNameFromServiceNameLabel.
  rewrite Hl. cbn [negb]. apply processEndpoints_valid; assumption.
Qed.

Lemma processEpSlice_well_formed_witness :
  let epsl := Sample.two_ready in
  (epsl_Labels epsl !! LabelServiceName = Some "web" /\
   Forall (fun p => valid_port p = true) (epsl_Ports epsl) /\
   Forall (fun e => listable e = true) (epsl_Endpoints epsl)) /\
  processEpSlice epsl =
  ROk (flat_map (tuplesOf "web" (epsl_Namespace epsl) (epsl_Ports epsl))
                (epsl_Endpoints epsl)).
Proof.
  intros epsl.
  assert (H1 : epsl_Labels epsl !! LabelServiceName = Some "web") by (vm_compute; reflexivity).
  assert (H2 : Forall (fun p => valid_port p = true) (epsl_Ports epsl))
    by (vm_compute; repeat constructor).
  assert (H3 : Forall (fun e => listable e = true) (epsl_Endpoints epsl))
    by (vm_compute; repeat constructor).
  exact (conj (conj H1 (conj H2 H3)) (processEpSlice_well_formed epsl "web" H1 H2 H3)).
Defined.

Lemma processEpSlice_ok epsl l :
  processEpSlice epsl = ROk l ->
  l = listing epsl /\
  (l = [] \/ Forall (fun p => valid_port p = true) (epsl_Ports epsl)).
Proof.
  unfold processEpSlice, getServiceNameFromServiceNameLabel, listing.
  destruct (epsl_Labels epsl !! LabelServiceName) as [svcName|]; cbn [negb].
  - intros H. destruct (processEndpoints_ok _ _ _ _ _ _ H) as (Hps & _ & ->).
    split; [reflexivity|]. destruct Hps as [->|Hps]; auto.
  - intros [= <-]. auto.
Qed.

(** X17.  Whenever [processEpSlice] returns a list, it is the listing of the
    slice, and every tuple of it has a port number other than 0, the key
    made of the label's service name, the slice's namespace and the port's
    name and protocol, and comes from an endpoint of the slice that has its
    address, its readiness and its host name. *)
Theorem processEpSlice_tuples (epsl : EndpointSlice) (l : list epInfo) :
  processEpSlice epsl = ROk l ->
  l = listing epsl /\
  Forall (fun t =>
            port_Port (eport t) <> 0 /\
            (exists svcName,
               epsl_Labels epsl !! LabelServiceName = Some svcName /\
               name t = getSvcPortName svcName (epsl_Namespace epsl) (port_Name (eport t))
                                       (port_Protocol (eport t))) /\
            exists e,
              e ∈ epsl_Endpoints epsl /\ addr_IP (addr t) ∈ se_Addresses e /\
              se_Ready e = Some (ready t) /\ addr_NodeName (addr t) = se_Hostname e) l.
Proof.
  intros H. destruct (processEpSlice_ok _ _ H) as (-> & Hps). split; [reflexivity|].
  revert H Hps. unfold processEpSlice, getServiceNameFromServiceNameLabel, listing.
  destruct (epsl_Labels epsl !! LabelServiceName) as [svcName|]; cbn [negb];
    [|constructor].
  intros H Hps. destruct (processEndpoints_ok _ _ _ _ _ _ H) as (_ & Hes & _).
  apply Forall_forall. intros t Ht.
  apply list_elem_of_In, in_flat_map in Ht as (e & He & Ht).
  unfold tuplesOf in Ht. apply in_flat_map in Ht as (p & Hp & Ht).
  apply in_map_iff in Ht as (a & <- & Ha).
  destruct Hps as [Hnil|Hps].
  { exfalso. assert (Hin : In (tupleOf svcName (epsl_Namespace epsl) e p a)
                              (flat_map (tuplesOf svcName (epsl_Namespace epsl) (epsl_Ports epsl))
                                        (epsl_Endpoints epsl))).
    { apply in_flat_map. exists e. split; [exact He|]. apply in_flat_map. exists p.
      split; [exact Hp|]. apply in_map, Ha. }
    rewrite Hnil in Hin. exact Hin. }
  rewrite Forall_forall in Hps. specialize (Hps p (proj2 (list_elem_of_In _ _) Hp)).
  destruct (valid_port_inv p Hps) as (n & proto & prt & Hn & Hproto & Hprt & Hnz).
  rewrite Forall_forall in Hes. specialize (Hes e (proj2 (list_elem_of_In _ _) He)).
  destruct Hes as [Hnil|Hl]; [rewrite Hnil in Hp; destruct Hp|].
  unfold listable in Hl. destruct (se_Addresses e) as [|a0 addrs] eqn:Haddrs; [destruct Ha|].
  destruct (se_Ready e) as [r|] eqn:Hr; [|discriminate Hl].
  rewrite (tupleOf_fields _ _ _ _ a _ _ _ _ Hn Hproto Hprt Hr). cbn.
  split; [exact Hnz|]. split; [exists svcName; auto|].
  exists e. rewrite Haddrs, Hr. repeat split.
  - apply list_elem_of_In, He.
  - apply list_elem_of_In, Ha.
Qed.

Lemma processEpSlice_tuples_witness :
  let epsl := Sample.two_ready in
  let l := [Sample.e1; Sample.e2] in
  processEpSlice epsl = ROk l /\
  l = listing epsl /\
  Forall (fun t =>
            port_Port (eport t) <> 0 /\
            (exists svcName,
               epsl_Labels epsl !! LabelServiceName = Some svcName /\
               name t = getSvcPortName svcName (epsl_Namespace epsl) (port_Name (eport t))
                                       (port_Protocol (eport t))) /\
            exists e,
              e ∈ epsl_Endpoints epsl /\ addr_IP (addr t) ∈ se_Addresses e /\
              se_Ready e = Some (ready t) /\ addr_NodeName (addr t) = se_Hostname e) l.
Proof.
  intros epsl l.
  assert (H : processEpSlice epsl = ROk l) by (vm_compute; reflexivity).
  exact (conj H (processEpSlice_tuples epsl l H)).
Defined.

(** X18.  A named port with the number 0, after ports that are valid, makes
    [processEpSlice] return the invalid port error with the port's name,
    as soon as the slice has the label and a first endpoint that can be
    listed: tuples already listed for the earlier ports are dropped. *)
Theorem processEpSlice_invalid_port (epsl : EndpointSlice) (svcName : string)
    (e : SliceEndpoint) (es : list SliceEndpoint) (pre post : list SlicePort)
    (bad : SlicePort) (n : string) :
  epsl_Labels epsl !! LabelServiceName = Some svcName ->
  epsl_Endpoints epsl = e :: es ->
  listable e = true ->
  epsl_Ports epsl = pre ++ bad :: post ->
  Forall (fun p => valid_port p = true) pre ->
  slp_Port bad = Some 0 ->
  slp_Name bad = Some n ->
  processEpSlice epsl = RErr (InvalidPort n).
Proof.
  intros Hl Hes He Hps Hpre Hz Hn. unfold processEpSlice, getServiceNameFromServiceNameLabel.
  rewrite Hl, Hes, Hps. cbn [negb processEndpoints].
  assert (Hrun : forall acc, processPorts svcName (epsl_Namespace epsl) e (pre ++ bad :: post) acc
                             = RErr (InvalidPort n)).
  { clear Hps. induction pre as [|p pre IH]; intros acc; cbn [app].
    - cbn [processPorts]. rewrite Hz, Hn. reflexivity.
    - apply Forall_cons in Hpre as [Hp Hpre].
      rewrite processPorts_step, He by exact Hp. apply IH, Hpre. }
  rewrite Hrun. reflexivity.
Qed.

Lemma processEpSlice_invalid_port_witness :
  let epsl := Cases.bad_port in
  let e := Sample.se "10.244.1.5" true in
  let good := mkSlicePort (Some "http") (Some "TCP") (Some 8080) in
  let bad := mkSlicePort (Some "bad") (Some "TCP") (Some 0) in
  (epsl_Labels epsl !! LabelServiceName = Some "web" /\
   epsl_Endpoints epsl = e :: [] /\
   listable e = true /\
   epsl_Ports epsl = [good] ++ bad :: [] /\
   Forall (fun p => valid_port p = true) [good] /\
   slp_Port bad = Some 0 /\
   slp_Name bad = Some "bad") /\
  processEpSlice epsl = RErr (InvalidPort "bad").
Proof.
  intros epsl e good bad.
  assert (H1 : epsl_Labels epsl !! LabelServiceName = Some "web") by (vm_compute; reflexivity).
  assert (H2 : epsl_Endpoints epsl = e :: []) by reflexivity.
  assert (H3 : listable e = true) by reflexivity.
  assert (H4 : epsl_Ports epsl = [good] ++ bad :: []) by reflexivity.
  assert (H5 : Forall (fun p => valid_port p = true) [good]) by (repeat constructor).
  assert (H6 : slp_Port bad = Some 0) by reflexivity.
  assert (H7 : slp_Name bad = Some "bad") by reflexivity.
  exact (conj (conj H1 (conj H2 (conj H3 (conj H4 (conj H5 (conj H6 H7))))))
              (processEpSlice_invalid_port epsl "web" e [] [good] [] bad "bad"
                 H1 H2 H3 H4 H5 H6 H7)).
Defined.

(** X19.  Without the service name label, or without endpoints,
    [processEpSlice] returns the empty list and no error, whatever the
    ports are. *)
Theorem processEpSlice_nothing_to_list (epsl : EndpointSlice) :
  epsl_Labels epsl !! LabelServiceName = None \/ epsl_Endpoints epsl = [] ->
  processEpSlice epsl = ROk [].
Proof.
  unfold processEpSlice, getServiceNameFromServiceNameLabel.
  intros [Hl|He].
  - rewrite Hl. reflexivity.
  - rewrite He. destruct (epsl_Labels epsl !! LabelServiceName); reflexivity.
Qed.

Lemma processEpSlice_nothing_to_list_witness :
  let epsl := Sample.none_yet in
  (epsl_Labels epsl !! LabelServiceName = None \/ epsl_Endpoints epsl = []) /\
  processEpSlice epsl = ROk [].
Proof.
  intros epsl.
  assert (H : epsl_Labels epsl !! LabelServiceName = None \/ epsl_Endpoints epsl = [])
    by (right; reflexivity).
  exact (conj H (processEpSlice_nothing_to_list epsl H)).
Defined.

(** ** The slice handlers and the cache *)

Lemma same_cache_refl p : same_cache p p.
Proof. split; reflexivity. Qed.

Lemma same_cache_trans p q r : same_cache p q -> same_cache q r -> same_cache p r.
Proof. intros [A1 A2] [B1 B2]. split; congruence. Qed.

Lemma same_cache_driver {A} (call : NFTInterface -> A * NFTInterface) :
  preserves same_cache (driver call).
Proof.
  intros p a p' H. unfold driver in H.
  destruct (call (nfti p)) as [r n]. injection H as _ <-. split; reflexivity.
Qed.

Lemma same_cache_modify (f : proxy -> proxy) :
  (forall p, pcache (f p) = pcache p /\ hostname (f p) = hostname p) ->
  preserves same_cache (modify f).
Proof. intros Hf p [] p' H. injection H as <-. apply Hf. Qed.

Lemma same_cache_within {A} allowed (m : M A) :
  preserves (within allowed) m -> preserves same_cache m.
Proof. intros Hm p a p' H. destruct (Hm p a p' H) as (C & Hh & _). split; assumption. Qed.

Ltac cache_step :=
  first
    [ apply preserves_bind; [apply same_cache_trans| |]
    | apply preserves_ret, same_cache_refl
    | apply preserves_gets, same_cache_refl
    | apply preserves_deref, same_cache_refl
    | apply preserves_fault
    | apply same_cache_driver
    | apply same_cache_modify; intros ?; split; reflexivity ].

Lemma same_cache_UpdateServiceChain k tf : preserves same_cache (UpdateServiceChain k tf).
Proof.
  apply (same_cache_within service_chain_op), within_UpdateServiceChain. intros op H. exact H.
Qed.

Lemma same_cache_addToNoEndpointsList b tf : preserves same_cache (addToNoEndpointsList b tf).
Proof.
  apply (same_cache_within fills_no_endpoints), within_addToNoEndpointsList.
  intros op H. exact H.
Qed.

Lemma same_cache_addEndpoint k a prt : preserves same_cache (addEndpoint k a prt).
Proof. apply (same_cache_within _ _ (only_adds_addEndpoint k a prt)). Qed.

Lemma same_cache_deleteEndpointRules tf cn ids k key :
  preserves same_cache (deleteEndpointRules tf cn ids k key).
Proof.
  unfold deleteEndpointRules.
  cache_step; [apply same_cache_UpdateServiceChain|intros [err|]].
  { cache_step; [unfold logf; cache_step|intros _; cache_step]. }
  cache_step; [cache_step|intros [err|]]; [cache_step|].
  cache_step; [cache_step|intros e].
  cache_step; [destruct e; [unfold logf|]; cache_step|intros _].
  cache_step; [cache_step|intros em].
  cache_step; [|intros _; cache_step].
  destruct (bool_decide _); [|cache_step].
  cache_step; [unfold logf; cache_step|intros _].
  cache_step; [cache_step|intros sm].
  cache_step; [|intros _; cache_step].
  destruct (sm !! k) as [svc|]; [|cache_step].
  destruct (getIPFamily _) as [fam tf'].
  cache_step; [apply same_cache_addToNoEndpointsList|intros [err|]];
    [unfold logf|]; cache_step.
Qed.

Lemma same_cache_deleteEndpoint_range k tf d key : forall n i eps,
  preserves same_cache (deleteEndpoint_range n i k tf d key eps).
Proof.
  induction n as [|n IH]; intros i eps; cbn [deleteEndpoint_range]; [cache_step|].
  destruct (eps !! i) as [e|]; [|cache_step].
  destruct (Equal e d); [|apply IH].
  cache_step; [cache_step|intros _].
  cache_step; [cache_step|intros rule].
  cache_step; [apply same_cache_deleteEndpointRules|intros [err|]]; [cache_step|apply IH].
Qed.

Lemma same_cache_deleteEndpoint k a prt eps : preserves same_cache (deleteEndpoint k a prt eps).
Proof.
  intros p r p' H. rewrite deleteEndpoint_unfold in H.
  eapply same_cache_deleteEndpoint_range, H.
Qed.

Lemma same_cache_removePort epsl e : preserves same_cache (removePort epsl e).
Proof.
  unfold removePort. cache_step; [cache_step|intros em].
  destruct (em !! name e) as [eps|]; [|cache_step].
  cache_step; [apply same_cache_deleteEndpoint|intros [[err|] eps']];
    [unfold logf|]; cache_step.
Qed.

Lemma same_cache_addPort epsl e : preserves same_cache (addPort epsl e).
Proof.
  unfold addPort. cache_step; [apply same_cache_addEndpoint|intros [err|]];
    [unfold logf|]; cache_step.
Qed.

Lemma same_cache_addReadyPorts epsl info : preserves same_cache (addReadyPorts epsl info).
Proof.
  induction info as [|e info IH]; cbn [addReadyPorts]; [cache_step|].
  destruct (negb (ready e)); [exact IH|].
  cache_step; [apply same_cache_addEndpoint|intros [err|]]; [unfold logf; cache_step|exact IH].
Qed.

Lemma same_cache_updateNewPort old new e : preserves same_cache (updateNewPort old new e).
Proof.
  unfold updateNewPort. destruct (isPortInEndpointSlice old (eport e) (addr e)) as [r f].
  repeat match goal with
         | |- preserves _ (if ?c then _ else _) => destruct c
         end;
    first [apply same_cache_addPort|apply same_cache_removePort|cache_step].
Qed.

Lemma same_cache_updateOldPort new e : preserves same_cache (updateOldPort new e).
Proof.
  unfold updateOldPort. destruct (isPortInEndpointSlice new (eport e) (addr e)) as [r f].
  destruct (_ && _); [apply same_cache_removePort|cache_step].
Qed.

Lemma same_cache_lastKnownEpSl old new : preserves same_cache (lastKnownEpSl old new).
Proof.
  intros p s p' H.
  destruct (epslCache (pcache p) !! slice_key new) as [cached|] eqn:Hc.
  - rewrite (lastKnownEpSl_cached _ _ _ _ Hc) in H. injection H as _ <-.
    destruct (bool_decide _); split; reflexivity.
  - rewrite (lastKnownEpSl_missing _ _ _ Hc) in H. injection H as _ <-. split; reflexivity.
Qed.

Lemma AddEndpointSlice_cache (epsl : EndpointSlice) (p p' : proxy) :
  AddEndpointSlice epsl p = Ret tt p' ->
  epslCache (pcache p') = <[ slice_key epsl := epsl ]> (epslCache (pcache p)) /\
  hostname p' = hostname p.
Proof.
  unfold AddEndpointSlice. rewrite bind_unfold. cbn [storeEpSlInCache modify].
  intros H.
  assert (Hc : same_cache (stored epsl p) p').
  { destruct (processEpSlice epsl) as [info|err|]; [| |discriminate H].
    - eapply same_cache_addReadyPorts, H.
    - injection H as <-. split; reflexivity. }
  destruct Hc as [-> ->]. split; reflexivity.
Qed.

Lemma DeleteEndpointSlice_cache (epsl : EndpointSlice) (p p' : proxy) :
  DeleteEndpointSlice epsl p = Ret tt p' ->
  epslCache (pcache p') =
    (if is_ok (processEpSlice epsl) then delete (slice_key epsl) (epslCache (pcache p))
     else epslCache (pcache p)) /\
  hostname p' = hostname p.
Proof.
  unfold DeleteEndpointSlice. intros H.
  destruct (processEpSlice epsl) as [info|err|]; [| |discriminate H]; cbn [is_ok].
  - rewrite bind_unfold in H.
    destruct (forEach info _ p) as [[] q|] eqn:Hloop; [|discriminate H].
    assert (Hq : same_cache p q).
    { eapply preserves_forEach; [apply same_cache_refl|apply same_cache_trans| |exact Hloop].
      intros e. cbv beta. destruct (negb (ready e)); [cache_step|apply same_cache_removePort]. }
    destruct Hq as [Cq Hq]. unfold removeEpSlFromCache in H. rewrite bind_unfold in H.
    cbn [gets] in H. fold (slice_key epsl) in H. rewrite Cq in H.
    destruct (epslCache (pcache p) !! slice_key epsl) eqn:Hc.
    + injection H as <-. cbn. rewrite Cq. auto.
    + injection H as <-. cbn. rewrite Cq, delete_id by exact Hc. auto.
  - injection H as <-. split; reflexivity.
Qed.

Lemma UpdateEndpointSlice_cache (epslOld epslNew : EndpointSlice) (p p' : proxy) :
  UpdateEndpointSlice epslOld epslNew p = Ret tt p' ->
  epslCache (pcache p') =
    (if is_ok (processEpSlice epslNew)
     then <[ slice_key epslNew := epslNew ]> (epslCache (pcache p))
     else epslCache (pcache p)) /\
  hostname p' = hostname p.
Proof.
  unfold UpdateEndpointSlice. rewrite bind_unfold. intros H.
  destruct (lastKnownEpSl epslOld epslNew p) as [old p0|] eqn:Hold; [|discriminate H].
  destruct (same_cache_lastKnownEpSl _ _ _ _ _ Hold) as [C0 H0].
  destruct (processEpSlice epslNew) as [info|err|]; [| |discriminate H]; cbn [is_ok].
  - rewrite bind_unfold in H.
    destruct (forEach info _ p0) as [[] p1|] eqn:Hnew; [|discriminate H].
    assert (H1 : same_cache p0 p1).
    { eapply preserves_forEach; [apply same_cache_refl|apply same_cache_trans| |exact Hnew].
      intros e. apply same_cache_updateNewPort. }
    destruct H1 as [C1 H1].
    assert (H2 : exists p2, same_cache p1 p2 /\ storeEpSlInCache epslNew p2 = Ret tt p').
    { destruct (processEpSlice old) as [info'|err|]; [| |discriminate H].
      - rewrite bind_unfold in H.
        destruct (forEach info' _ p1) as [[] p2|] eqn:Hdel; [|discriminate H].
        exists p2. split; [|exact H].
        eapply preserves_forEach; [apply same_cache_refl|apply same_cache_trans| |exact Hdel].
        intros e. apply same_cache_updateOldPort.
      - exists p1. split; [apply same_cache_refl|exact H]. }
    destruct H2 as (p2 & [C2 H2] & Hst). injection Hst as <-. cbn.
    rewrite C2, C1, C0, H2, H1, H0. auto.
  - injection H as <-. cbn. rewrite C0, H0. auto.
Qed.

Lemma addReadyPorts_skip epsl l p :
  Forall (fun t => ready t = false) l -> addReadyPorts epsl l p = Ret tt p.
Proof.
  induction 1 as [|t l Ht _ IH]; cbn [addReadyPorts]; [reflexivity|].
  rewrite Ht. exact IH.
Qed.

Lemma nothing_ready epsl l :
  processEpSlice epsl = ROk l ->
  Forall (fun e => se_Ready e = Some false) (epsl_Endpoints epsl) ->
  Forall (fun t => ready t = false) l.
Proof.
  intros Hl Hes. destruct (processEpSlice_ok _ _ Hl) as [-> _].
  unfold listing. destruct (epsl_Labels epsl !! LabelServiceName) as [svcName|]; [|constructor].
  apply Forall_forall. intros t Ht.
  apply list_elem_of_In, in_flat_map in Ht as (e & He & Ht).
  unfold tuplesOf in Ht. apply in_flat_map in Ht as (p & Hp & Ht).
  apply in_map_iff in Ht as (a & <- & Ha).
  rewrite Forall_forall in Hes. cbn [ready tupleOf].
  rewrite (Hes e); [reflexivity|apply list_elem_of_In, He].
Qed.

(** X20.  For a slice [processEpSlice] accepts and none of whose endpoints
    is ready, [AddEndpointSlice] only stores the slice in the cache, and
    [DeleteEndpointSlice] only removes it from the cache: no call reaches
    the driver and the two maps stay. *)
Theorem slice_with_nothing_ready (epsl : EndpointSlice) (l : list epInfo) (p : proxy) :
  processEpSlice epsl = ROk l ->
  Forall (fun e => se_Ready e = Some false) (epsl_Endpoints epsl) ->
  AddEndpointSlice epsl p = Ret tt (stored epsl p) /\
  DeleteEndpointSlice epsl p = removeEpSlFromCache (epsl_Name epsl) (epsl_Namespace epsl) p.
Proof.
  intros Hl Hes. pose proof (nothing_ready _ _ Hl Hes) as Hno. split.
  - unfold AddEndpointSlice. rewrite bind_unfold. cbn [storeEpSlInCache modify]. rewrite Hl.
    apply addReadyPorts_skip, Hno.
  - unfold DeleteEndpointSlice. rewrite Hl, bind_unfold, forEach_skip; [reflexivity|].
    eapply Forall_impl; [exact Hno|]. intros t Ht. cbv beta. rewrite Ht. reflexivity.
Qed.

Lemma slice_with_nothing_ready_witness :
  let epsl := Sample.not_ready in
  let l := [Sample.tuple "10.244.1.5" false] in
  let p := Cases.with_web in
  (processEpSlice epsl = ROk l /\
   Forall (fun e => se_Ready e = Some false) (epsl_Endpoints epsl)) /\
  AddEndpointSlice epsl p = Ret tt (stored epsl p) /\
  DeleteEndpointSlice epsl p = removeEpSlFromCache (epsl_Name epsl) (epsl_Namespace epsl) p.
Proof.
  intros epsl l p.
  assert (H1 : processEpSlice epsl = ROk l) by (vm_compute; reflexivity).
  assert (H2 : Forall (fun e => se_Ready e = Some false) (epsl_Endpoints epsl))
    by (repeat constructor).
  exact (conj (conj H1 H2) (slice_with_nothing_ready epsl l p H1 H2)).
Defined.

(** X21.  For a slice [processEpSlice] rejects, [AddEndpointSlice] stores the
    slice all the same and logs the error, [DeleteEndpointSlice] logs the
    error and leaves the slice in the cache, and [UpdateEndpointSlice] to
    such a slice returns with the kernel, both maps and the cache unchanged
    (the previous slice stays cached), the error being the last line
    logged. *)
Theorem slice_with_invalid_port (epsl : EndpointSlice) (err : Err) (p : proxy) :
  processEpSlice epsl = RErr err ->
  AddEndpointSlice epsl p =
    Ret tt (set_klog (klog p ++ [Log Error "failed to process Endpoint slice %s/%s with error: %+v"
                                     [epsl_Namespace epsl; epsl_Name epsl; Err_String err]])
                     (stored epsl p)) /\
  DeleteEndpointSlice epsl p =
    Ret tt (set_klog (klog p ++ [Log Error "failed to process Endpoint slice %s/%s with error: %+v"
                                     [epsl_Namespace epsl; epsl_Name epsl; Err_String err]]) p) /\
  forall epslOld, exists p',
    UpdateEndpointSlice epslOld epsl p = Ret tt p' /\
    nfti p' = nfti p /\ serviceMap p' = serviceMap p /\ endpointsMap p' = endpointsMap p /\
    pcache p' = pcache p /\
    last (klog p') = Some (Log Error "failed to update Endpoint Slice %s/%s with error: %+v"
                               [epsl_Namespace epsl; epsl_Name epsl; Err_String err]).
Proof.
  intros Herr. split; [|split].
  - unfold AddEndpointSlice. rewrite bind_unfold. cbn [storeEpSlInCache modify]. rewrite Herr.
    reflexivity.
  - unfold DeleteEndpointSlice. rewrite Herr. reflexivity.
  - intros epslOld. unfold UpdateEndpointSlice. rewrite bind_unfold, Herr.
    destruct (epslCache (pcache p) !! slice_key epsl) as [cached|] eqn:Hc.
    + rewrite (lastKnownEpSl_cached _ _ _ _ Hc).
      eexists. split; [reflexivity|].
      destruct (bool_decide _); cbn; rewrite last_snoc; repeat split.
    + rewrite (lastKnownEpSl_missing _ _ _ Hc).
      eexists. split; [reflexivity|]. cbn. rewrite last_snoc. repeat split.
Qed.

Lemma slice_with_invalid_port_witness :
  let epsl := Cases.bad_port in
  let err := InvalidPort "bad" in
  let p := Cases.with_web in
  processEpSlice epsl = RErr err /\
  AddEndpointSlice epsl p =
    Ret tt (set_klog (klog p ++ [Log Error "failed to process Endpoint slice %s/%s with error: %+v"
                                     [epsl_Namespace epsl; epsl_Name epsl; Err_String err]])
                     (stored epsl p)) /\
  DeleteEndpointSlice epsl p =
    Ret tt (set_klog (klog p ++ [Log Error "failed to process Endpoint slice %s/%s with error: %+v"
                                     [epsl_Namespace epsl; epsl_Name epsl; Err_String err]]) p) /\
  forall epslOld, exists p',
    UpdateEndpointSlice epslOld epsl p = Ret tt p' /\
    nfti p' = nfti p /\ serviceMap p' = serviceMap p /\ endpointsMap p' = endpointsMap p /\
    pcache p' = pcache p /\
    last (klog p') = Some (Log Error "failed to update Endpoint Slice %s/%s with error: %+v"
                               [epsl_Namespace epsl; epsl_Name epsl; Err_String err]).
Proof.
  intros epsl err p.
  assert (H : processEpSlice epsl = RErr err) by (vm_compute; reflexivity).
  exact (conj H (slice_with_invalid_port epsl err p H)).
Defined.

(** ** The object cache *)

Section CacheProperties.

Context {Obj : Type} (meta : Obj -> ObjectMeta) (kind : string).

(** X22.  For every kind of object the cache holds: after a store, looking the
    object up by its name and namespace returns the object and its resource
    version; a second store under the same key replaces the first; and the
    lookups of every other key answer as before. *)
Theorem cache_store_then_lookup (m : gmap NamespacedName Obj) (o : Obj) :
  let m' := cachego.storeInCache meta m o in
  cachego.getLastKnownFromCache kind m' (om_Name (meta o)) (om_Namespace (meta o)) = inr o /\
  cachego.getCachedVersion meta kind m' (om_Name (meta o)) (om_Namespace (meta o))
  = inr (om_ResourceVersion (meta o)) /\
  (forall o', cachego.keyOf meta o' = cachego.keyOf meta o ->
     cachego.storeInCache meta m' o' = cachego.storeInCache meta m o') /\
  (forall name namespace,
     mkNamespacedName namespace name <> cachego.keyOf meta o ->
     cachego.getLastKnownFromCache kind m' name namespace
     = cachego.getLastKnownFromCache kind m name namespace /\
     cachego.getCachedVersion meta kind m' name namespace
     = cachego.getCachedVersion meta kind m name namespace).
Proof.
  unfold cachego.storeInCache, cachego.getLastKnownFromCache, cachego.getCachedVersion,
    cachego.keyOf.
  cbv zeta. rewrite !lookup_insert_eq. split; [reflexivity|]. split; [reflexivity|].
  split.
  - intros o' ->. apply insert_insert_eq.
  - intros name namespace Hne. rewrite !lookup_insert_ne by congruence. auto.
Qed.

(** X23.  For every kind of object the cache holds: after a removal the key is
    not found, by either lookup; the map is the one with the key deleted;
    a warning is logged exactly when the key was not there; and removing
    what was just stored gives the map with the key deleted. *)
Theorem cache_remove_then_lookup (m : gmap NamespacedName Obj) (name namespace : string) :
  let k := mkNamespacedName namespace name in
  let r := cachego.removeFromCache kind m name namespace in
  cachego.getLastKnownFromCache kind (fst r) name namespace = inl (NotFound kind k) /\
  cachego.getCachedVersion meta kind (fst r) name namespace = inl (NotFound kind k) /\
  fst r = delete k m /\
  snd r = (if bool_decide (is_Some (m !! k)) then []
           else [Log Warning (kind +:+ " %s/%s not found in the cache") [namespace; name]]) /\
  (forall o, cachego.keyOf meta o = k ->
     fst (cachego.removeFromCache kind (cachego.storeInCache meta m o) name namespace)
     = delete k m).
Proof.
  cbv zeta.
  assert (Hfst : fst (cachego.removeFromCache kind m name namespace)
                 = delete (mkNamespacedName namespace name) m).
  { unfold cachego.removeFromCache.
    destruct (m !! mkNamespacedName namespace name) eqn:Hk; cbn [fst]; [reflexivity|].
    symmetry. apply delete_id, Hk. }
  rewrite Hfst.
  unfold cachego.getLastKnownFromCache, cachego.getCachedVersion.
  rewrite !lookup_delete_eq. split; [reflexivity|]. split; [reflexivity|].
  split; [reflexivity|]. split.
  - unfold cachego.removeFromCache.
    destruct (m !! mkNamespacedName namespace name) eqn:Hk; cbn [snd].
    + rewrite bool_decide_eq_true_2 by eauto. reflexivity.
    + rewrite bool_decide_eq_false_2; [reflexivity|]. intros [x Hx]. discriminate Hx.
  - intros o Hk. unfold cachego.keyOf in Hk. unfold cachego.removeFromCache, cachego.storeInCache.
    rewrite Hk, lookup_insert_eq. cbn [fst]. apply delete_insert_eq.
Qed.

End CacheProperties.

(** The methods of the endpoint slices, as the handlers call them, are the
    four above at the proxy's map of slices. *)
Lemma proxy_cache_agrees (name namespace : string) (epsl : EndpointSlice) (p : proxy) :
  getCachedEpSlVersion name namespace p
  = Ret (cachego.getCachedVersion EndpointSlice_meta "endpoint slice"
                                  (epslCache (pcache p)) name namespace) p /\
  getLastKnownEpSlFromCache name namespace p
  = Ret (cachego.getLastKnownFromCache "endpoint slice" (epslCache (pcache p)) name namespace) p /\
  storeEpSlInCache epsl p
  = Ret tt (set_cache (mkCache (cachego.storeInCache EndpointSlice_meta
                                                     (epslCache (pcache p)) epsl)) p) /\
  removeEpSlFromCache name namespace p
  = let r := cachego.removeFromCache "endpoint slice" (epslCache (pcache p)) name namespace in
    Ret tt (match snd r with
            | [] => set_cache (mkCache (fst r)) p
            | lg => set_klog (klog p ++ lg) p
            end).
Proof.
  unfold getCachedEpSlVersion, getLastKnownEpSlFromCache, storeEpSlInCache,
    removeEpSlFromCache, cachego.getCachedVersion, cachego.getLastKnownFromCache,
    cachego.removeFromCache, cachego.storeInCache.
  rewrite !bind_unfold. cbn [gets].
  destruct (epslCache (pcache p) !! mkNamespacedName namespace name); repeat split.
Qed.

(** ** The dispatch rules of a service chain *)

Lemma storeSvcRules_run k tf cn rules p entry entry' :
  serviceMap p !! k = Some entry ->
  recorded tf cn rules entry = Some entry' ->
  storeSvcRules k tf cn rules p = Ret tt (set_serviceMap (<[ k := entry' ]> (serviceMap p)) p).
Proof.
  unfold storeSvcRules, recorded. intros Hk Hr. run. rewrite Hk. run.
  destruct (setRuleID tf cn _ (base entry)) as [b|]; [|discriminate Hr].
  injection Hr as <-. run. reflexivity.
Qed.

Lemma recorded_flag tf cn rules entry :
  WithEndpoints (svcnft (base entry)) = true ->
  recorded tf cn rules (setWithEndpoints true entry) = recorded tf cn rules entry.
Proof.
  intros Hf. unfold recorded, setRuleID, setWithEndpoints. cbn.
  destruct (Chains (svcnft (base entry)) !! tf) as [sc|]; [|reflexivity].
  destruct (svc_Chain sc !! cn) as [r|]; [|reflexivity].
  unfold with_svcnft. cbn. rewrite Hf. reflexivity.
Qed.

Lemma recorded_some tf cn rules entry sc r :
  Chains (svcnft (base entry)) !! tf = Some sc ->
  svc_Chain sc !! cn = Some r ->
  is_Some (recorded tf cn rules entry).
Proof. intros Hsc Hr. unfold recorded, setRuleID. rewrite Hsc, Hr. eauto. Qed.

Lemma driver_install op k place touch p :
  driver (install op k place touch) p =
  if accepts (nfti p) then
    Ret (inr (fresh k (asked op (nfti p))))
        (set_nfti (with_kernel (asked op (nfti p)) (touch (chains (nfti p)))
                     (place (fresh k (asked op (nfti p))) (asked op (nfti p)))
                     (noEndpoints (nfti p)) (nextHandle (nfti p) + Z.of_nat k)) p)
  else Ret (inl (DriverError op)) (set_nfti (asked op (nfti p)) p).
Proof.
  unfold driver. rewrite install_spec. destruct (accepts (nfti p)); reflexivity.
Qed.

Lemma removeFromNoEndpointsList_quiet b tf p :
  faults (nfti p) = [] ->
  exists p',
    removeFromNoEndpointsList b tf p = Ret None p' /\
    issued (nfti p') = issued (nfti p) ++ OpsRemoveFromNoEndpoints b tf /\
    faults (nfti p') = [] /\ chains (nfti p') = chains (nfti p) /\ driver_only p p'.
Proof.
  intros Hq. destruct (removeFromNoEndpointsList_run b tf p) as (p' & Hrun & Hi & Hf & Hc & Hd).
  rewrite Hq, until_rejected_quiet in *. cbn [fst snd] in *. rewrite drop_nil in Hf.
  exists p'. auto.
Qed.

Lemma addToNoEndpointsList_quiet b tf p :
  faults (nfti p) = [] ->
  exists p',
    addToNoEndpointsList b tf p = Ret None p' /\
    issued (nfti p') = issued (nfti p) ++ OpsAddToNoEndpoints b tf /\
    faults (nfti p') = [] /\ chains (nfti p') = chains (nfti p) /\ driver_only p p'.
Proof.
  intros Hq. destruct (addToNoEndpointsList_run b tf p) as (p' & Hrun & Hi & Hf & Hc & Hd).
  rewrite Hq, until_rejected_quiet in *. cbn [fst snd] in *. rewrite drop_nil in Hf.
  exists p'. auto.
Qed.

(** The second half of [UpdateServiceChain], once the flag is dealt with. *)
Lemma UpdateServiceChain_dispatch k tf entry sc r cs cur p :
  Chains (svcnft (base entry)) !! tf = Some sc ->
  svc_Chain sc !! (K8sSvcPrefix +:+ ServiceID sc) = Some r ->
  chainsOf tf (default [] (endpointsMap p !! k)) = Some cs ->
  serviceMap p !! k = Some cur ->
  Chains (svcnft (base cur)) = Chains (svcnft (base entry)) ->
  faults (nfti p) = [] ->
  exists rules n' entry',
    (let* epsChains := getServicePortEndpointChains k tf in
     let* sc := deref (Chains (svcnft (base entry)) !! tf) in
     let cn := K8sSvcPrefix +:+ ServiceID sc in
     let* svcRules := deref (svc_Chain sc !! cn) in
     if bool_decide (List.length epsChains ≠ 0%nat) then
       let* r := driver (ProgramServiceEndpoints tf cn epsChains (RuleID svcRules)) in
       match r with
       | inl err =>
           logf Error "failed to program endpoints rules for service %s with error: %+v"
                [spn_String k; Err_String err] ;;
           ret (Some err)
       | inr rules =>
           storeSvcRules k tf cn rules ;;
           ret None
       end
     else
       let* e := driver (DeleteServiceRules tf cn (RuleID svcRules)) in
       match e with
       | Some err =>
           logf Error "failed to remove rule for service %s with error: %+v"
                [spn_String k; Err_String err] ;;
           ret (Some err)
       | None =>
           storeSvcRules k tf cn [] ;;
           ret None
       end) p
    = Ret None (set_serviceMap (<[ k := entry' ]> (serviceMap p)) (set_nfti n' p)) /\
    recorded tf (K8sSvcPrefix +:+ ServiceID sc) rules cur = Some entry' /\
    List.length rules = List.length cs /\
    issued n' = issued (nfti p)
                ++ [OpDispatch tf (K8sSvcPrefix +:+ ServiceID sc) cs (RuleID r)] /\
    faults n' = [].
Proof.
  intros Hsc Hr Hcs Hcur Hsame Hq.
  unfold getServicePortEndpointChains. run. rewrite Hcs, Hsc. run. rewrite Hr. run.
  set (cn := K8sSvcPrefix +:+ ServiceID sc) in *.
  assert (Hrec : forall rules, is_Some (recorded tf cn rules cur)).
  { intros rules. eapply recorded_some; [rewrite Hsame; exact Hsc|exact Hr]. }
  destruct cs as [|c cs].
  - rewrite bool_decide_eq_false_2 by (cbn; intros H; apply H; reflexivity).
    run. unfold DeleteServiceRules. rewrite driver_perform, (accepts_quiet _ Hq). run.
    destruct (Hrec []) as [entry' He].
    erewrite storeSvcRules_run; [|exact Hcur|exact He].
    exists []. eexists. exists entry'. split; [reflexivity|]. split; [exact He|]. split; [reflexivity|].
    split; [reflexivity|]. cbn. rewrite Hq. reflexivity.
  - rewrite bool_decide_eq_true_2 by (cbn; discriminate).
    run. unfold ProgramServiceEndpoints. rewrite driver_install, (accepts_quiet _ Hq). run.
    match goal with |- context [storeSvcRules k tf cn ?rules] =>
      destruct (Hrec rules) as [entry' He]; exists rules end.
    erewrite storeSvcRules_run; [|exact Hcur|exact He].
    eexists. exists entry'. split; [reflexivity|]. split; [exact He|].
    split; [unfold fresh; rewrite length_map, length_seq; reflexivity|].
    split; [reflexivity|]. cbn. rewrite Hq. reflexivity.
Qed.

Lemma UpdateServiceChain_run k tf p entry sc r cs :
  serviceMap p !! k = Some entry ->
  Chains (svcnft (base entry)) !! tf = Some sc ->
  svc_Chain sc !! (K8sSvcPrefix +:+ ServiceID sc) = Some r ->
  chainsOf tf (default [] (endpointsMap p !! k)) = Some cs ->
  faults (nfti p) = [] ->
  exists rules p' entry',
    UpdateServiceChain k tf p = Ret None p' /\
    serviceMap p' = <[ k := entry' ]> (serviceMap p) /\
    recorded tf (K8sSvcPrefix +:+ ServiceID sc) rules (setWithEndpoints true entry)
    = Some entry' /\
    List.length rules = List.length cs /\
    endpointsMap p' = endpointsMap p /\
    pcache p' = pcache p /\ hostname p' = hostname p /\
    issued (nfti p') =
      issued (nfti p)
      ++ (if WithEndpoints (svcnft (base entry)) then []
          else OpsRemoveFromNoEndpoints (base entry) tf)
      ++ [OpDispatch tf (K8sSvcPrefix +:+ ServiceID sc) cs (RuleID r)] /\
    faults (nfti p') = [].
Proof.
  intros Hk Hsc Hr Hcs Hq.
  unfold UpdateServiceChain. rewrite bind_unfold. cbn [gets]. rewrite Hk, bind_unfold.
  destruct (WithEndpoints (svcnft (base entry))) eqn:Hflag; cbn [negb].
  - cbn [ret].
    destruct (UpdateServiceChain_dispatch k tf entry sc r cs entry p Hsc Hr Hcs Hk eq_refl Hq)
      as (rules & n' & entry' & Hrun & Hrec & Hlen & Hi & Hf).
    exists rules. eexists. exists entry'.
    split; [exact Hrun|]. split; [reflexivity|].
    split; [rewrite recorded_flag by exact Hflag; exact Hrec|].
    split; [exact Hlen|]. repeat split; assumption.
  - rewrite bind_unfold.
    destruct (removeFromNoEndpointsList_quiet (base entry) tf p Hq)
      as (p1 & Hrm & I1 & F1 & _ & S1 & E1 & C1 & H1 & L1).
    rewrite Hrm. cbn [modify].
    set (p2 := set_serviceMap (<[ k := setWithEndpoints true entry ]> (serviceMap p1)) p1).
    assert (Hcs2 : chainsOf tf (default [] (endpointsMap p2 !! k)) = Some cs)
      by (cbn; rewrite E1; exact Hcs).
    assert (Hk2 : serviceMap p2 !! k = Some (setWithEndpoints true entry))
      by apply lookup_insert_eq.
    destruct (UpdateServiceChain_dispatch k tf entry sc r cs (setWithEndpoints true entry) p2
                Hsc Hr Hcs2 Hk2 eq_refl F1)
      as (rules & n' & entry' & Hrun & Hrec & Hlen & Hi & Hf).
    exists rules. eexists. exists entry'.
    split; [exact Hrun|]. cbn.
    split; [rewrite insert_insert_eq, S1; reflexivity|].
    split; [exact Hrec|]. split; [exact Hlen|].
    split; [exact E1|]. split; [exact C1|]. split; [exact H1|].
    split; [|exact Hf].
    rewrite Hi. cbn. rewrite I1, <- app_assoc. reflexivity.
Qed.

Lemma Ops_same_addresses b b' tf :
  clusterIP b' = clusterIP b -> port b' = port b -> protocol b' = protocol b ->
  externalIPs b' = externalIPs b -> loadBalancerIPs b' = loadBalancerIPs b ->
  OpsAddToNoEndpoints b' tf = OpsAddToNoEndpoints b tf /\
  OpsRemoveFromNoEndpoints b' tf = OpsRemoveFromNoEndpoints b tf /\
  ClusterIP_String b' = ClusterIP_String b.
Proof.
  intros A1 A2 A3 A4 A5.
  unfold OpsAddToNoEndpoints, OpsRemoveFromNoEndpoints, virtualAddresses, ClusterIP_String.
  rewrite A1, A2, A3, A4, A5. auto.
Qed.

Lemma Ops_same_port b b' tf :
  same_port b b' ->
  OpsAddToNoEndpoints b' tf = OpsAddToNoEndpoints b tf /\
  OpsRemoveFromNoEndpoints b' tf = OpsRemoveFromNoEndpoints b tf /\
  ClusterIP_String b' = ClusterIP_String b.
Proof. intros (A1 & A2 & A3 & A4 & A5 & _). apply Ops_same_addresses; assumption. Qed.

Lemma recorded_same_port tf cn rules entry entry' :
  recorded tf cn rules entry = Some entry' ->
  same_port (base entry) (base entry') /\
  serviceNameString entry' = serviceNameString entry.
Proof.
  unfold recorded. destruct (setRuleID tf cn _ (base entry)) as [b|] eqn:Hb; [|discriminate].
  intros [= <-]. split; [exact (setRuleID_same_port _ _ _ _ _ Hb)|reflexivity].
Qed.

Lemma recorded_chains tf cn rules entry sc r :
  Chains (svcnft (base entry)) !! tf = Some sc ->
  svc_Chain sc !! cn = Some r ->
  recorded tf cn rules entry =
  Some {| base := with_svcnft (base entry)
                    {| Chains := <[ tf := {| ServiceID := ServiceID sc;
                                             svc_Chain := <[ cn := mkRule (Chain r) rules ]>
                                                            (svc_Chain sc) |} ]>
                                   (Chains (svcnft (base entry)));
                       WithEndpoints := WithEndpoints (svcnft (base entry)) |};
          serviceNameString := serviceNameString entry |}.
Proof. intros Hsc Hr. unfold recorded, setRuleID. rewrite Hsc, Hr. reflexivity. Qed.

(** Removing the last endpoint of a registered port, every call accepted. *)
Lemma deleteEndpointRules_last k tf ecn ids key q e1 sc r :
  serviceMap q !! k = Some e1 ->
  WithEndpoints (svcnft (base e1)) = true ->
  Chains (svcnft (base e1)) !! tf = Some sc ->
  svc_Chain sc !! (K8sSvcPrefix +:+ ServiceID sc) = Some r ->
  endpointsMap q !! k = Some [] ->
  faults (nfti q) = [] ->
  exists p' e2,
    deleteEndpointRules tf ecn ids k key q = Ret None p' /\
    recorded tf (K8sSvcPrefix +:+ ServiceID sc) [] e1 = Some e2 /\
    serviceMap p' = <[ k := setWithEndpoints false e2 ]> (serviceMap q) /\
    endpointsMap p' = delete k (endpointsMap q) /\
    issued (nfti p') =
      issued (nfti q)
      ++ [ OpDeleteServiceRules tf (K8sSvcPrefix +:+ ServiceID sc) (RuleID r);
           OpDeleteEndpointRules tf ecn ids;
           OpDeleteChain tf ecn ]
      ++ OpsAddToNoEndpoints (base e1) (snd (getIPFamily (ClusterIP_String (base e1)))) /\
    (tf, ecn) ∉ chains (nfti p').
Proof.
  intros Hk Hflag Hsc Hr He Hq.
  assert (Hcs : chainsOf tf (default [] (endpointsMap q !! k)) = Some [])
    by (rewrite He; reflexivity).
  destruct (UpdateServiceChain_run k tf q e1 sc r [] Hk Hsc Hr Hcs Hq)
    as (rules & p1 & e2 & Hrun & S1 & Hrec & Hlen & E1 & _ & _ & I1 & F1).
  destruct rules; [|discriminate Hlen]. clear Hlen.
  rewrite recorded_flag in Hrec by exact Hflag. rewrite Hflag in I1. cbn [app OpDispatch] in I1.
  destruct (recorded_same_port _ _ _ _ _ Hrec) as [Hsp _].
  destruct (Ops_same_port _ _ (snd (getIPFamily (ClusterIP_String (base e1)))) Hsp)
    as (Hops & _ & Hcip).
  unfold deleteEndpointRules. rewrite bind_unfold, Hrun.
  rewrite bind_unfold. unfold DeleteEndpointRules. rewrite driver_perform.
  rewrite (accepts_quiet _ F1).
  rewrite bind_unfold. unfold DeleteChain. rewrite driver_perform.
  cbn [nfti set_nfti]. rewrite accepts_quiet by (cbn; rewrite F1; reflexivity).
  run. rewrite E1, He. cbn [default List.length]. rewrite bool_decide_eq_true_2 by reflexivity.
  run. rewrite S1, lookup_insert_eq.
  rewrite Hcip. destruct (getIPFamily (ClusterIP_String (base e1))) as [fam tf'] eqn:Hfam.
  cbn [snd] in Hops |- *. run.
  match goal with |- context [addToNoEndpointsList (base e2) tf' ?st] =>
    destruct (addToNoEndpointsList_quiet (base e2) tf' st)
      as (p3 & Hadd & I3 & F3 & C3 & S3 & E3 & _)
  end.
  { cbn. rewrite F1. reflexivity. }
  rewrite Hadd. run.
  exists (set_endpointsMap (delete k (endpointsMap
            (set_serviceMap (<[ k := setWithEndpoints false e2 ]> (serviceMap p3)) p3)))
            (set_serviceMap (<[ k := setWithEndpoints false e2 ]> (serviceMap p3)) p3)), e2.
  split; [reflexivity|]. split; [exact Hrec|]. cbn.
  split; [rewrite S3; cbn; rewrite S1, insert_insert_eq; reflexivity|].
  split; [rewrite E3; cbn; rewrite E1; reflexivity|].
  split.
  - rewrite I3, Hops. cbn [nfti set_klog set_nfti issued with_kernel asked].
    rewrite I1, <- !app_assoc. reflexivity.
  - rewrite C3. cbn. intros Hin. apply elem_of_difference in Hin as [_ Hn].
    apply Hn, elem_of_singleton. reflexivity.
Qed.

Lemma entry_restored tf cn rules entry sc r e1 e2 :
  Chains (svcnft (base entry)) !! tf = Some sc ->
  svc_Chain sc !! cn = Some r ->
  RuleID r = [] ->
  WithEndpoints (svcnft (base entry)) = false ->
  recorded tf cn rules (setWithEndpoints true entry) = Some e1 ->
  recorded tf cn [] e1 = Some e2 ->
  setWithEndpoints false e2 = entry.
Proof.
  intros Hsc Hr Hnil Hflag H1 H2.
  rewrite (recorded_chains tf cn rules (setWithEndpoints true entry) sc r) in H1
    by assumption.
  injection H1 as <-.
  rewrite (recorded_chains tf cn [] _
             {| ServiceID := ServiceID sc;
                svc_Chain := <[ cn := mkRule (Chain r) rules ]> (svc_Chain sc) |}
             (mkRule (Chain r) rules)) in H2
    by (cbn; apply lookup_insert_eq).
  injection H2 as <-.
  destruct entry as [[cip prt proto np ext lb [chs flag]] sns].
  cbn in *. subst flag. unfold setWithEndpoints, with_svcnft. cbn.
  rewrite !insert_insert_eq.
  destruct r as [c ids]. cbn in Hnil. subst ids. cbn.
  rewrite (insert_id (svc_Chain sc) cn (mkRule c [])) by exact Hr.
  destruct sc as [sid chm]. cbn. rewrite insert_id by exact Hsc. reflexivity.
Qed.



(** X25.  For a port in the service map with no endpoint yet, and a driver
    that rejects nothing: adding the first backend sets the flag and takes
    the port's addresses out of the no-endpoints set, and deleting it
    brings the service map and the endpoints map back to what they were.
    The calls are, in this order: the endpoint rules, the removal from the
    no-endpoints set, the dispatch rule to the one endpoint chain, then the
    deletion of the dispatch rules, of the endpoint rules and of the
    endpoint chain, and the addition to the no-endpoints set in the family
    of the cluster IP. *)
Theorem registered_endpoint_round_trip (k : ServicePortName) (a : EndpointAddress)
    (prt : EndpointPort) (p : proxy) (entry : serviceInfo) (sc : SVCChain) (r : Rule) :
  serviceMap p !! k = Some entry ->
  WithEndpoints (svcnft (base entry)) = false ->
  Chains (svcnft (base entry)) !! familyOf a = Some sc ->
  svc_Chain sc !! (K8sSvcPrefix +:+ ServiceID sc) = Some r ->
  RuleID r = [] ->
  endpointsMap p !! k = None ->
  faults (nfti p) = [] ->
  exists ids rules p1 e1 p2,
    addEndpoint k a prt p = Ret None p1 /\
    endpointsMap p1 !! k = Some [programmed (hostname p) k a prt ids] /\
    serviceMap p1 !! k = Some e1 /\
    WithEndpoints (svcnft (base e1)) = true /\
    deleteEndpoint k a prt [programmed (hostname p) k a prt ids] p1
    = Ret (None, [programmed (hostname p) k a prt ids]) p2 /\
    serviceMap p2 = serviceMap p /\
    endpointsMap p2 = endpointsMap p /\
    issued (nfti p2) =
      issued (nfti p)
      ++ [OpAddEndpoint k a prt]
      ++ OpsRemoveFromNoEndpoints (base entry) (familyOf a)
      ++ [ OpProgramServiceEndpoints (familyOf a) (K8sSvcPrefix +:+ ServiceID sc)
                                     [endpointChain k a prt] [];
           OpDeleteServiceRules (familyOf a) (K8sSvcPrefix +:+ ServiceID sc) rules;
           OpDeleteEndpointRules (familyOf a) (endpointChain k a prt) ids;
           OpDeleteChain (familyOf a) (endpointChain k a prt) ]
      ++ OpsAddToNoEndpoints (base entry) (snd (getIPFamily (ClusterIP_String (base entry)))).
Proof.
  intros Hk Hflag Hsc Hr Hnil He Hq.
  (* the addition *)
  assert (Hadd : exists ids rules p1 e1,
            addEndpoint k a prt p = Ret None p1 /\
            endpointsMap p1 = <[ k := [programmed (hostname p) k a prt ids] ]> (endpointsMap p) /\
            serviceMap p1 = <[ k := e1 ]> (serviceMap p) /\
            recorded (familyOf a) (K8sSvcPrefix +:+ ServiceID sc) rules
                     (setWithEndpoints true entry) = Some e1 /\
            hostname p1 = hostname p /\
            issued (nfti p1) =
              issued (nfti p) ++ [OpAddEndpoint k a prt]
              ++ OpsRemoveFromNoEndpoints (base entry) (familyOf a)
              ++ [OpProgramServiceEndpoints (familyOf a) (K8sSvcPrefix +:+ ServiceID sc)
                                            [endpointChain k a prt] []] /\
            faults (nfti p1) = []).
  { rewrite addEndpoint_unfold, bind_unfold, driver_AddEndpointRules, (accepts_quiet _ Hq).
    run. rewrite He. cbn [default from_option id app].
    match goal with |- context [UpdateServiceChain k (familyOf a) ?st] =>
      destruct (UpdateServiceChain_run k (familyOf a) st entry sc r [endpointChain k a prt])
        as (rules & p1 & e1 & Hrun & S1 & Hrec & Hlen & E1 & _ & H1 & I1 & F1)
    end.
    - exact Hk.
    - exact Hsc.
    - exact Hr.
    - cbn [endpointsMap set_endpointsMap]. rewrite lookup_insert_eq.
      unfold programmed. cbn [default from_option id chainsOf epnft with_epnft].
      match goal with |- match ?x with _ => _ end = _ =>
        replace x with (Some (mkRule (endpointChain k a prt)
                                     (fresh 2 (asked (OpAddEndpointRules (familyOf a)
                                                        (endpointChain k a prt) (addr_IP a)
                                                        (port_Protocol prt) (port_Port prt))
                                                     (nfti p)))))
          by (symmetry; apply lookup_singleton_eq) end.
      reflexivity.
    - cbn. rewrite Hq. reflexivity.
    - rewrite Hrun. eexists _, rules, p1, e1. split; [reflexivity|].
      split; [exact E1|]. split; [exact S1|]. split; [exact Hrec|]. split; [exact H1|].
      split; [|exact F1].
      rewrite I1, Hflag, Hnil. cbn [OpDispatch nfti set_endpointsMap set_nfti issued with_kernel asked].
      rewrite <- !app_assoc. reflexivity. }
  destruct Hadd as (ids & rules & p1 & e1 & Hadd & E1 & S1 & Hrec & H1 & I1 & F1).
  assert (Hk1 : serviceMap p1 !! k = Some e1) by (rewrite S1; apply lookup_insert_eq).
  pose proof (recorded_chains (familyOf a) (K8sSvcPrefix +:+ ServiceID sc) rules
                (setWithEndpoints true entry) sc r Hsc Hr) as Hshape.
  rewrite Hrec in Hshape. injection Hshape as Hshape.
  assert (Hflag1 : WithEndpoints (svcnft (base e1)) = true) by (rewrite Hshape; reflexivity).
  (* the removal *)
  destruct (deleteEndpointRules_last k (familyOf a) (endpointChain k a prt) ids
              (mkEpKey (port_Protocol prt) (addr_IP a) (port_Port prt))
              (set_endpointsMap (<[ k := [] ]> (endpointsMap p1)) p1) e1
              {| ServiceID := ServiceID sc;
                 svc_Chain := <[ K8sSvcPrefix +:+ ServiceID sc := mkRule (Chain r) rules ]>
                                (svc_Chain sc) |}
              (mkRule (Chain r) rules))
    as (p2 & e2 & Hdel & Hrec2 & S2 & E2 & I2 & _).
  { exact Hk1. }
  { exact Hflag1. }
  { rewrite Hshape. cbn. apply lookup_insert_eq. }
  { cbn. apply lookup_insert_eq. }
  { apply lookup_insert_eq. }
  { cbn. exact F1. }
  cbn [ServiceID RuleID] in Hrec2, I2.
  exists ids, rules, p1, e1, p2.
  split; [exact Hadd|]. split; [rewrite E1; apply lookup_insert_eq|].
  split; [exact Hk1|]. split; [exact Hflag1|].
  split; [|split; [|split]].
  - rewrite deleteEndpoint_unfold. cbn [List.length].
    erewrite deleteEndpoint_range_match;
      [|reflexivity|rewrite H1; apply Equal_programmed|apply lookup_singleton_eq].
    rewrite bind_unfold. cbn [modify take drop app Chain RuleID].
    rewrite bind_unfold, Hdel. reflexivity.
  - rewrite S2. cbn. rewrite S1, insert_insert_eq.
    rewrite (entry_restored (familyOf a) (K8sSvcPrefix +:+ ServiceID sc) rules entry sc r e1 e2)
      by assumption.
    apply insert_id, Hk.
  - rewrite E2. cbn. rewrite E1.
    rewrite delete_insert_eq, delete_insert_id by exact He. reflexivity.
  - rewrite I2. cbn [nfti set_endpointsMap]. rewrite I1.
    destruct (recorded_same_port _ _ _ _ _ Hrec) as [(A1 & A2 & A3 & A4 & A5 & _) _].
    destruct (Ops_same_addresses (base entry) (base e1)
                (snd (getIPFamily (ClusterIP_String (base entry)))) A1 A2 A3 A4 A5)
      as (Hops & _ & Hcip).
    rewrite Hcip, Hops, <- !app_assoc. reflexivity.
Qed.

Lemma registered_endpoint_round_trip_witness :
  let p := Cases.with_web in
  let k := Sample.key in
  let a := Sample.a1 in
  let prt := Sample.p8080 in
  let entry := Cases.web_entry in
  let sc := Cases.web_chains in
  let r := Cases.web_rule in
  (serviceMap p !! k = Some entry /\
   WithEndpoints (svcnft (base entry)) = false /\
   Chains (svcnft (base entry)) !! familyOf a = Some sc /\
   svc_Chain sc !! (K8sSvcPrefix +:+ ServiceID sc) = Some r /\
   RuleID r = [] /\
   endpointsMap p !! k = None /\
   faults (nfti p) = []) /\
  exists ids rules p1 e1 p2,
    addEndpoint k a prt p = Ret None p1 /\
    endpointsMap p1 !! k = Some [programmed (hostname p) k a prt ids] /\
    serviceMap p1 !! k = Some e1 /\
    WithEndpoints (svcnft (base e1)) = true /\
    deleteEndpoint k a prt [programmed (hostname p) k a prt ids] p1
    = Ret (None, [programmed (hostname p) k a prt ids]) p2 /\
    serviceMap p2 = serviceMap p /\
    endpointsMap p2 = endpointsMap p /\
    issued (nfti p2) =
      issued (nfti p)
      ++ [OpAddEndpoint k a prt]
      ++ OpsRemoveFromNoEndpoints (base entry) (familyOf a)
      ++ [ OpProgramServiceEndpoints (familyOf a) (K8sSvcPrefix +:+ ServiceID sc)
                                     [endpointChain k a prt] [];
           OpDeleteServiceRules (familyOf a) (K8sSvcPrefix +:+ ServiceID sc) rules;
           OpDeleteEndpointRules (familyOf a) (endpointChain k a prt) ids;
           OpDeleteChain (familyOf a) (endpointChain k a prt) ]
      ++ OpsAddToNoEndpoints (base entry) (snd (getIPFamily (ClusterIP_String (base entry)))).
Proof.
  intros p k a prt entry sc r.
  assert (H1 : serviceMap p !! k = Some entry) by (apply has_default; vm_compute; reflexivity).
  assert (H2 : WithEndpoints (svcnft (base entry)) = false) by (vm_compute; reflexivity).
  assert (H3 : Chains (svcnft (base entry)) !! familyOf a = Some sc)
    by (apply has_default; vm_compute; reflexivity).
  assert (H4 : svc_Chain sc !! (K8sSvcPrefix +:+ ServiceID sc) = Some r)
    by (apply has_default; vm_compute; reflexivity).
  assert (H5 : RuleID r = []) by (vm_compute; reflexivity).
  assert (H6 : endpointsMap p !! k = None) by (vm_compute; reflexivity).
  assert (H7 : faults (nfti p) = []) by (vm_compute; reflexivity).
  exact (conj (conj H1 (conj H2 (conj H3 (conj H4 (conj H5 (conj H6 H7))))))
              (registered_endpoint_round_trip k a prt p entry sc r H1 H2 H3 H4 H5 H6 H7)).
Defined.

(** ** The cache along a run, and the names of the chains *)

Lemma same_cache_touches {A} ks allowed (m : M A) :
  preserves (touches ks allowed) m -> preserves same_cache m.
Proof. intros Hm p a p' H. destruct (Hm p a p' H) as (_ & _ & C & Hh & _). split; assumption. Qed.

Lemma same_cache_logf sev fmt a : preserves same_cache (logf sev fmt a).
Proof. unfold logf. cache_step. Qed.

Lemma same_cache_deleteAddresses k prt epNew addrs : forall eps,
  preserves same_cache (deleteAddresses k prt epNew addrs eps).
Proof.
  induction addrs as [|a addrs IH]; intros eps; cbn [deleteAddresses]; [cache_step|].
  destruct (bool_decide _).
  - cache_step; [apply same_cache_logf|intros _; apply IH].
  - destruct (negb _); [|apply IH].
    cache_step; [apply same_cache_deleteEndpoint|intros [e eps']; apply IH].
Qed.

Lemma same_cache_UpdateEndpoints epOld epNew : preserves same_cache (UpdateEndpoints epOld epNew).
Proof.
  unfold UpdateEndpoints.
  destruct (_ && _); [cache_step|]. destruct (negb _); [|cache_step].
  cache_step.
  - apply preserves_forEach; [apply same_cache_refl|apply same_cache_trans|intros ss].
    apply preserves_forEach; [apply same_cache_refl|apply same_cache_trans|intros prt].
    destruct (bool_decide _); [apply same_cache_logf|].
    apply preserves_forEach; [apply same_cache_refl|apply same_cache_trans|intros a].
    destruct (bool_decide _); [apply same_cache_logf|].
    destruct (negb _); [|cache_step].
    cache_step; [apply same_cache_addEndpoint|intros [err|]];
      [apply same_cache_logf|cache_step].
  - intros _.
    apply preserves_forEach; [apply same_cache_refl|apply same_cache_trans|intros ss].
    apply preserves_forEach; [apply same_cache_refl|apply same_cache_trans|intros prt].
    destruct (bool_decide _); [apply same_cache_logf|].
    cache_step; [cache_step|intros em].
    destruct (em !! _); [apply same_cache_deleteAddresses|cache_step].
Qed.

Lemma handle_event_cache ev p p' :
  handle_event ev p = Ret tt p' ->
  epslCache (pcache p') = cache_after (epslCache (pcache p)) ev /\ hostname p' = hostname p.
Proof.
  destruct ev as [svc|svc|o n|ep|ep|o n|s|s|o n]; cbn [handle_event cache_after]; intros H.
  - destruct svc as [svc|]; [|discriminate H].
    destruct (same_cache_touches _ _ _ (touches_AddService svc) _ _ _ H) as [-> ->]. auto.
  - destruct svc as [svc|]; [|discriminate H].
    destruct (same_cache_touches _ _ _ (touches_DeleteService svc) _ _ _ H) as [-> ->]. auto.
  - injection H as <-. auto.
  - unfold AddEndpoints in H. rewrite bind_unfold in H. cbn [logf modify] in H.
    destruct (same_cache_UpdateEndpoints _ _ _ _ _ H) as [-> ->]. auto.
  - destruct (same_cache_UpdateEndpoints _ _ _ _ _ H) as [-> ->]. auto.
  - destruct (same_cache_UpdateEndpoints _ _ _ _ _ H) as [-> ->]. auto.
  - apply AddEndpointSlice_cache, H.
  - apply DeleteEndpointSlice_cache, H.
  - apply (UpdateEndpointSlice_cache o n), H.
Qed.

(** X26.  Along a run of handlers that returns, the cache of slices is
    determined by the events alone, whatever the driver answers: an
    addition stores the slice, a deletion removes it and an update stores
    the new slice, the last two unless [processEpSlice] rejects the slice;
    the other events leave the cache alone.  The host name never changes. *)
Theorem cache_follows_the_events (evs : list Event) : forall (p p' : proxy),
  run_events evs p = Ret tt p' ->
  epslCache (pcache p') = foldl cache_after (epslCache (pcache p)) evs /\
  hostname p' = hostname p.
Proof.
  unfold run_events. induction evs as [|ev evs IH]; intros p p' H; cbn [forEach foldl] in *.
  - injection H as <-. auto.
  - rewrite bind_unfold in H.
    destruct (handle_event ev p) as [[] q|] eqn:Hev; [|discriminate H].
    destruct (handle_event_cache _ _ _ Hev) as [C1 H1].
    destruct (IH _ _ H) as [C2 H2]. rewrite C2, C1, H2, H1. auto.
Qed.

Lemma cache_follows_the_events_witness :
  let evs := [EvAddService (Some Sample.web); EvAddEndpointSlice Sample.one_ready;
              EvUpdateEndpointSlice Sample.one_ready Sample.two_ready;
              EvDeleteEndpointSlice Sample.two_ready] in
  let p := Sample.fresh_proxy in
  let p' := Sample.state_after evs p in
  run_events evs p = Ret tt p' /\
  epslCache (pcache p') = foldl cache_after (epslCache (pcache p)) evs /\
  hostname p' = hostname p.
Proof.
  intros evs p p'.
  assert (H : run_events evs p = Ret tt p') by (vm_compute; reflexivity).
  exact (conj H (cache_follows_the_events evs p p' H)).
Defined.

(** X27.  The chain names are computed from the concatenation of their
    arguments, with no separator: moving characters from the end of one
    argument to the front of the next gives the same name. *)
Theorem chain_names_read_the_concatenation (s t u v : string) :
  portProtoHash (s +:+ t) u = portProtoHash s (t +:+ u) /\
  servicePortEndpointChainName (s +:+ t) u v = servicePortEndpointChainName s (t +:+ u) v /\
  servicePortEndpointChainName s (t +:+ u) v = servicePortEndpointChainName s t (u +:+ v).
Proof.
  assert (Hassoc : forall x y z : string, (x +:+ y) +:+ z = x +:+ (y +:+ z)).
  { intros x y z. induction x as [|c x IH]; [reflexivity|].
    change (String c ((x +:+ y) +:+ z) = String c (x +:+ (y +:+ z))). f_equal. exact IH. }
  unfold portProtoHash, servicePortEndpointChainName.
  rewrite !Hassoc. repeat split.
Qed.

(** ** The keys of the service map *)

Lemma same_keys_refl p : same_keys p p.
Proof. intros k. reflexivity. Qed.

Lemma same_keys_trans p q r : same_keys p q -> same_keys q r -> same_keys p r.
Proof. intros H1 H2 k. etransitivity; [apply H2|apply H1]. Qed.

Lemma same_keys_same p q : serviceMap q = serviceMap p -> same_keys p q.
Proof. intros H k. rewrite H. reflexivity. Qed.

Lemma same_keys_driver {A} (call : NFTInterface -> A * NFTInterface) :
  preserves same_keys (driver call).
Proof.
  intros p a p' H. unfold driver in H.
  destruct (call (nfti p)) as [r n]. injection H as _ <-. apply same_keys_same. reflexivity.
Qed.

Lemma same_keys_modify (f : proxy -> proxy) :
  (forall p, serviceMap (f p) = serviceMap p) -> preserves same_keys (modify f).
Proof. intros Hf p [] p' H. injection H as <-. apply same_keys_same, Hf. Qed.

Lemma same_keys_logf sev fmt a : preserves same_keys (logf sev fmt a).
Proof. apply same_keys_modify. reflexivity. Qed.

Lemma same_keys_driver_only {A} (m : M A) :
  (forall p, exists a p', m p = Ret a p' /\ driver_only p p') -> preserves same_keys m.
Proof.
  intros Hm p a p' H. destruct (Hm p) as (a0 & q & Hrun & S & _).
  rewrite Hrun in H. injection H as _ <-. apply same_keys_same, S.
Qed.

Lemma same_keys_removeFromNoEndpointsList b tf :
  preserves same_keys (removeFromNoEndpointsList b tf).
Proof.
  apply same_keys_driver_only. intros p.
  destruct (removeFromNoEndpointsList_run b tf p) as (p' & H & _ & _ & _ & Hd). eauto.
Qed.

Lemma same_keys_addToNoEndpointsList b tf : preserves same_keys (addToNoEndpointsList b tf).
Proof.
  apply same_keys_driver_only. intros p.
  destruct (addToNoEndpointsList_run b tf p) as (p' & H & _ & _ & _ & Hd). eauto.
Qed.

Section Keeps.

Variable k : ServicePortName.

Lemma keeps_of_preserves {A} (m : M A) : preserves same_keys m -> keeps_keys k m.
Proof. intros Hm p a p' _ H. eapply Hm, H. Qed.

Lemma keeps_bind {A B} (m : M A) (f : A -> M B) :
  keeps_keys k m -> (forall a, keeps_keys k (f a)) -> keeps_keys k (bind m f).
Proof.
  intros Hm Hf p b p' Hp H. rewrite bind_unfold in H.
  destruct (m p) as [a q|] eqn:Hmp; [|discriminate H].
  pose proof (Hm _ _ _ Hp Hmp) as Hpq.
  eapply same_keys_trans; [exact Hpq|]. eapply Hf; [|exact H]. apply Hpq, Hp.
Qed.

Lemma keeps_insert (v : proxy -> serviceInfo) :
  keeps_keys k (modify (fun p => set_serviceMap (<[ k := v p ]> (serviceMap p)) p)).
Proof.
  intros p [] p' Hp H. injection H as <-. intros k'. cbn.
  destruct (decide (k' = k)) as [->|Hne].
  - rewrite lookup_insert_eq. split; [intros _; exact Hp|eauto].
  - rewrite lookup_insert_ne by congruence. reflexivity.
Qed.

End Keeps.

Ltac keys_step :=
  first
    [ apply keeps_of_preserves;
      first [ apply same_keys_removeFromNoEndpointsList
            | apply same_keys_addToNoEndpointsList ]
    | apply keeps_bind
    | apply keeps_of_preserves;
      first [ apply preserves_ret, same_keys_refl
            | apply preserves_gets, same_keys_refl
            | apply preserves_deref, same_keys_refl
            | apply preserves_fault
            | apply same_keys_logf
            | apply same_keys_driver
            | apply same_keys_modify; reflexivity ] ].

Lemma keeps_storeSvcRules k tf cn rules : keeps_keys k (storeSvcRules k tf cn rules).
Proof.
  unfold storeSvcRules.
  keys_step; [keys_step|intros sm].
  keys_step; [keys_step|intros entry].
  keys_step; [keys_step|intros b].
  apply (keeps_insert k (fun _ => {| base := b; serviceNameString := serviceNameString entry |})).
Qed.

Lemma same_keys_UpdateServiceChain k tf : preserves same_keys (UpdateServiceChain k tf).
Proof.
  intros p a p' H. unfold UpdateServiceChain in H. rewrite bind_unfold in H. cbn [gets] in H.
  destruct (serviceMap p !! k) as [entry|] eqn:Hk.
  2: { injection H as _ <-. apply same_keys_refl. }
  assert (Hp : is_Some (serviceMap p !! k)) by eauto.
  revert H. generalize p a p' Hp.
  clear p a p' Hk Hp.
  match goal with |- forall p a p', _ -> ?m p = _ -> _ => change (keeps_keys k m) end.
  keys_step.
  { destruct (negb _); [|keys_step].
    keys_step; [keys_step|intros [err|]]; [keys_step|].
    apply (keeps_insert k (fun _ => setWithEndpoints true entry)). }
  intros _. unfold getServicePortEndpointChains.
  keys_step; [keys_step; [keys_step|intros em; keys_step]|intros cs].
  keys_step; [keys_step|intros sc].
  keys_step; [keys_step|intros svcRules].
  destruct (bool_decide _).
  - keys_step; [keys_step|intros [err|rules]].
    + keys_step; [keys_step|intros _; keys_step].
    + keys_step; [apply keeps_storeSvcRules|intros _; keys_step].
  - keys_step; [keys_step|intros [err|]].
    + keys_step; [keys_step|intros _; keys_step].
    + keys_step; [apply keeps_storeSvcRules|intros _; keys_step].
Qed.

Lemma keys_lookup {A} k (f : option serviceInfo -> M A) :
  (forall svc, keeps_keys k (f (Some svc))) -> preserves same_keys (f None) ->
  preserves same_keys (let* sm := gets serviceMap in f (sm !! k)).
Proof.
  intros Hs Hn p a p' H. rewrite bind_unfold in H. cbn [gets] in H.
  destruct (serviceMap p !! k) as [svc|] eqn:Hk.
  - eapply Hs; [|exact H]. rewrite Hk. eauto.
  - eapply Hn, H.
Qed.

Ltac pkeys_step :=
  first
    [ apply same_keys_removeFromNoEndpointsList
    | apply same_keys_addToNoEndpointsList
    | apply same_keys_UpdateServiceChain
    | apply same_keys_logf
    | apply preserves_bind; [apply same_keys_trans| |]
    | apply preserves_ret, same_keys_refl
    | apply preserves_gets, same_keys_refl
    | apply preserves_deref, same_keys_refl
    | apply preserves_fault
    | apply same_keys_driver
    | apply same_keys_modify; reflexivity ].

Lemma same_keys_addEndpoint k a prt : preserves same_keys (addEndpoint k a prt).
Proof.
  intros p r p' H. rewrite addEndpoint_unfold in H. revert H.
  generalize (hostname p). intros host. revert p r p'.
  match goal with |- forall p r p', ?m p = _ -> _ => change (preserves same_keys m) end.
  pkeys_step; [pkeys_step|intros [err|ids]]; [pkeys_step|].
  pkeys_step; [pkeys_step|intros _].
  pkeys_step; [pkeys_step|intros [err|]]; [|pkeys_step].
  pkeys_step; [pkeys_step|intros _; pkeys_step].
Qed.

Lemma same_keys_deleteEndpointRules tf cn ids k key :
  preserves same_keys (deleteEndpointRules tf cn ids k key).
Proof.
  unfold deleteEndpointRules.
  pkeys_step; [pkeys_step|intros [err|]].
  { pkeys_step; [pkeys_step|intros _; pkeys_step]. }
  pkeys_step; [pkeys_step|intros [err|]]; [pkeys_step|].
  pkeys_step; [pkeys_step|intros e].
  pkeys_step; [destruct e; pkeys_step|intros _].
  pkeys_step; [pkeys_step|intros em].
  pkeys_step; [|intros _; pkeys_step].
  destruct (bool_decide _); [|pkeys_step].
  pkeys_step; [pkeys_step|intros _].
  apply (keys_lookup k (fun o =>
           match o with
           | Some svc => _
           | None => _
           end ;; _)).
  - intros svc. keys_step; [|intros _; keys_step].
    destruct (getIPFamily _) as [fam tf'].
    keys_step; [keys_step|intros [err|]]; [keys_step|].
    apply (keeps_insert k (fun _ => setWithEndpoints false svc)).
  - pkeys_step; [pkeys_step|intros _; pkeys_step].
Qed.

Lemma same_keys_deleteEndpoint_range k tf d key : forall n i eps,
  preserves same_keys (deleteEndpoint_range n i k tf d key eps).
Proof.
  induction n as [|n IH]; intros i eps; cbn [deleteEndpoint_range]; [pkeys_step|].
  destruct (eps !! i) as [e|]; [|pkeys_step].
  destruct (Equal e d); [|apply IH].
  pkeys_step; [pkeys_step|intros _].
  pkeys_step; [pkeys_step|intros rule].
  pkeys_step; [apply same_keys_deleteEndpointRules|intros [err|]]; [pkeys_step|apply IH].
Qed.

Lemma same_keys_deleteEndpoint k a prt eps : preserves same_keys (deleteEndpoint k a prt eps).
Proof.
  intros p r p' H. rewrite deleteEndpoint_unfold in H.
  eapply same_keys_deleteEndpoint_range, H.
Qed.

Lemma same_keys_removePort epsl e : preserves same_keys (removePort epsl e).
Proof.
  unfold removePort. pkeys_step; [pkeys_step|intros em].
  destruct (em !! name e) as [eps|]; [|pkeys_step].
  pkeys_step; [apply same_keys_deleteEndpoint|intros [[err|] eps']]; pkeys_step.
Qed.

Lemma same_keys_addPort epsl e : preserves same_keys (addPort epsl e).
Proof.
  unfold addPort. pkeys_step; [apply same_keys_addEndpoint|intros [err|]]; pkeys_step.
Qed.

Lemma same_keys_addReadyPorts epsl info : preserves same_keys (addReadyPorts epsl info).
Proof.
  induction info as [|e info IH]; cbn [addReadyPorts]; [pkeys_step|].
  destruct (negb (ready e)); [exact IH|].
  pkeys_step; [apply same_keys_addEndpoint|intros [err|]]; [pkeys_step|exact IH].
Qed.

Lemma same_keys_updateNewPort old new e : preserves same_keys (updateNewPort old new e).
Proof.
  unfold updateNewPort. destruct (isPortInEndpointSlice old (eport e) (addr e)) as [r f].
  repeat match goal with
         | |- preserves _ (if ?c then _ else _) => destruct c
         end;
    first [apply same_keys_addPort|apply same_keys_removePort|pkeys_step].
Qed.

Lemma same_keys_updateOldPort new e : preserves same_keys (updateOldPort new e).
Proof.
  unfold updateOldPort. destruct (isPortInEndpointSlice new (eport e) (addr e)) as [r f].
  destruct (_ && _); [apply same_keys_removePort|pkeys_step].
Qed.

Lemma same_keys_lastKnownEpSl old new : preserves same_keys (lastKnownEpSl old new).
Proof.
  intros p s p' H.
  destruct (epslCache (pcache p) !! slice_key new) as [cached|] eqn:Hc.
  - rewrite (lastKnownEpSl_cached _ _ _ _ Hc) in H. injection H as _ <-.
    destruct (bool_decide _); apply same_keys_same; reflexivity.
  - rewrite (lastKnownEpSl_missing _ _ _ Hc) in H. injection H as _ <-.
    apply same_keys_same; reflexivity.
Qed.

Lemma same_keys_deleteAddresses k prt epNew addrs : forall eps,
  preserves same_keys (deleteAddresses k prt epNew addrs eps).
Proof.
  induction addrs as [|a addrs IH]; intros eps; cbn [deleteAddresses]; [pkeys_step|].
  destruct (bool_decide _).
  - pkeys_step; [apply same_keys_logf|intros _; apply IH].
  - destruct (negb _); [|apply IH].
    pkeys_step; [apply same_keys_deleteEndpoint|intros [e eps']; apply IH].
Qed.

Lemma same_keys_UpdateEndpoints epOld epNew : preserves same_keys (UpdateEndpoints epOld epNew).
Proof.
  unfold UpdateEndpoints.
  destruct (_ && _); [pkeys_step|]. destruct (negb _); [|pkeys_step].
  pkeys_step.
  - apply preserves_forEach; [apply same_keys_refl|apply same_keys_trans|intros ss].
    apply preserves_forEach; [apply same_keys_refl|apply same_keys_trans|intros prt].
    destruct (bool_decide _); [apply same_keys_logf|].
    apply preserves_forEach; [apply same_keys_refl|apply same_keys_trans|intros a].
    destruct (bool_decide _); [apply same_keys_logf|].
    destruct (negb _); [|pkeys_step].
    pkeys_step; [apply same_keys_addEndpoint|intros [err|]];
      [apply same_keys_logf|pkeys_step].
  - intros _.
    apply preserves_forEach; [apply same_keys_refl|apply same_keys_trans|intros ss].
    apply preserves_forEach; [apply same_keys_refl|apply same_keys_trans|intros prt].
    destruct (bool_decide _); [apply same_keys_logf|].
    pkeys_step; [pkeys_step|intros em].
    destruct (em !! _); [apply same_keys_deleteAddresses|pkeys_step].
Qed.

Lemma same_keys_storeEpSlInCache epsl : preserves same_keys (storeEpSlInCache epsl).
Proof. apply same_keys_modify. reflexivity. Qed.

Lemma same_keys_removeEpSlFromCache n ns : preserves same_keys (removeEpSlFromCache n ns).
Proof.
  unfold removeEpSlFromCache. pkeys_step; [pkeys_step|intros c].
  destruct (_ !! _); pkeys_step.
Qed.

Lemma same_keys_forEach {A} (l : list A) (f : A -> M unit) :
  (forall a, preserves same_keys (f a)) -> preserves same_keys (forEach l f).
Proof. apply preserves_forEach; [apply same_keys_refl|apply same_keys_trans]. Qed.

Lemma same_keys_AddEndpointSlice epsl : preserves same_keys (AddEndpointSlice epsl).
Proof.
  unfold AddEndpointSlice.
  pkeys_step; [apply same_keys_storeEpSlInCache|intros _].
  destruct (processEpSlice epsl); [apply same_keys_addReadyPorts|pkeys_step|pkeys_step].
Qed.

Lemma same_keys_DeleteEndpointSlice epsl : preserves same_keys (DeleteEndpointSlice epsl).
Proof.
  unfold DeleteEndpointSlice.
  destruct (processEpSlice epsl); [|pkeys_step|pkeys_step].
  pkeys_step; [|intros _; apply same_keys_removeEpSlFromCache].
  apply same_keys_forEach. intros e.
  destruct (negb (ready e)); [pkeys_step|apply same_keys_removePort].
Qed.

Lemma same_keys_UpdateEndpointSlice o n : preserves same_keys (UpdateEndpointSlice o n).
Proof.
  unfold UpdateEndpointSlice.
  pkeys_step; [apply same_keys_lastKnownEpSl|intros old].
  destruct (processEpSlice n); [|pkeys_step|pkeys_step].
  pkeys_step; [apply same_keys_forEach; intros e; apply same_keys_updateNewPort|intros _].
  destruct (processEpSlice old); [|apply same_keys_storeEpSlInCache|pkeys_step].
  pkeys_step; [|intros _; apply same_keys_storeEpSlInCache].
  apply same_keys_forEach; intros e; apply same_keys_updateOldPort.
Qed.

Lemma same_keys_handle_event ev :
  endpoint_event ev = true -> preserves same_keys (handle_event ev).
Proof.
  destruct ev; cbn [endpoint_event handle_event]; intros He; try discriminate He.
  - unfold AddEndpoints. pkeys_step; [pkeys_step|intros _; apply same_keys_UpdateEndpoints].
  - unfold DeleteEndpoints. apply same_keys_UpdateEndpoints.
  - apply same_keys_UpdateEndpoints.
  - apply same_keys_AddEndpointSlice.
  - apply same_keys_DeleteEndpointSlice.
  - apply same_keys_UpdateEndpointSlice.
Qed.

(** X28.  Along a run of events about endpoints and endpoint slices that
    returns, the service map keeps its keys: these handlers rewrite the
    entry of a port (its flag and its rule handles) but never register or
    unregister one. *)
Theorem endpoint_events_keep_the_service_ports (evs : list Event) (p p' : proxy) :
  Forall (fun ev => endpoint_event ev = true) evs ->
  run_events evs p = Ret tt p' ->
  forall k, is_Some (serviceMap p' !! k) <-> is_Some (serviceMap p !! k).
Proof.
  intros Hevs. revert p p'.
  induction Hevs as [|ev evs Hev _ IH]; intros p p' H.
  - injection H as <-. reflexivity.
  - unfold run_events in H. cbn [forEach] in H. rewrite bind_unfold in H.
    destruct (handle_event ev p) as [[] q|] eqn:Hq; [|discriminate H].
    apply (same_keys_trans p q p'); [|exact (IH q p' H)].
    eapply same_keys_handle_event; [exact Hev|exact Hq].
Qed.

Lemma endpoint_events_keep_the_service_ports_witness :
  let evs := [EvAddEndpoints Sample.ep_two; EvAddEndpointSlice Sample.one_ready;
              EvUpdateEndpoints Sample.ep_two Sample.ep_none;
              EvDeleteEndpointSlice Sample.one_ready] in
  let p := Cases.with_web in
  let p' := Sample.state_after evs p in
  (Forall (fun ev => endpoint_event ev = true) evs /\
   run_events evs p = Ret tt p') /\
  forall k, is_Some (serviceMap p' !! k) <-> is_Some (serviceMap p !! k).
Proof.
  intros evs p p'.
  assert (H1 : Forall (fun ev => endpoint_event ev = true) evs) by (repeat constructor).
  assert (H2 : run_events evs p = Ret tt p') by (vm_compute; reflexivity).
  exact (conj (conj H1 H2) (endpoint_events_keep_the_service_ports evs p p' H1 H2)).
Defined.

(** * Address literals *)

(** The parser on known literals: a plain and a compressed IPv6 address,
    a dotted quad, an IPv4-mapped address, a trailing ellipsis, and
    strings that are no address (a zone, too few groups, a port). *)
Example ParseIP_known :
  net.ParseIP "fd00::5" = Some [0xfd; 0; 0; 0; 0; 0; 0; 0; 0; 0; 0; 0; 0; 0; 0; 5] /\
  net.ParseIP "2001:db8:0:1:2:3:4:5"
  = Some [0x20; 0x01; 0x0d; 0xb8; 0; 0; 0; 1; 0; 2; 0; 3; 0; 4; 0; 5] /\
  net.ParseIP "10.244.1.5" = Some [0; 0; 0; 0; 0; 0; 0; 0; 0; 0; 0xff; 0xff; 10; 244; 1; 5] /\
  net.ParseIP "::ffff:10.244.1.5"
  = Some [0; 0; 0; 0; 0; 0; 0; 0; 0; 0; 0xff; 0xff; 10; 244; 1; 5] /\
  net.ParseIP "1:2:3:4:5:6:7::" = Some [0; 1; 0; 2; 0; 3; 0; 4; 0; 5; 0; 6; 0; 7; 0; 0] /\
  net.ParseIP "::" = Some (replicate 16 0) /\
  net.ParseIP "fe80::1%eth0" = None /\
  net.ParseIP "a:b" = None /\
  net.ParseIP "1:2:3:4:5:6:7:8:9" = None /\
  net.ParseIP "1::2::3" = None /\
  net.ParseIP "10.244.1.5:8080" = None /\
  net.ParseIP "10.244.1" = None /\
  net.ParseIP "10.244.1.256" = None /\
  net.ParseIP "<nil>" = None.
Proof. vm_compute. repeat split. Qed.

Example IsIPv6String_known :
  IsIPv6String "fd00::5" = true /\
  IsIPv6String "::1" = true /\
  IsIPv6String "::1.2.3.4" = true /\
  IsIPv6String "10.244.1.5" = false /\
  IsIPv6String "::ffff:10.244.1.5" = false /\
  IsIPv6String "fe80::1%eth0" = false /\
  IsIPv6String "a:b" = false /\
  IsIPv6String "" = false /\
  IsIPv6String "<nil>" = false.
Proof. vm_compute. repeat split. Qed.

(** * UpdateEndpointSlice and (P5) *)

Lemma NoDup_map_eq {A B} (f : A -> B) (l : list A) (x y : A) :
  NoDup (map f l) -> x ∈ l -> y ∈ l -> f x = f y -> x = y.
Proof.
  induction l as [|a l IH]; cbn [map]; intros Hnd Hx Hy Hf.
  - apply elem_of_nil in Hx. destruct Hx.
  - apply NoDup_cons in Hnd as [Ha Hnd].
    apply elem_of_cons in Hx as [->|Hx]; apply elem_of_cons in Hy as [->|Hy].
    + reflexivity.
    + exfalso. apply Ha. rewrite Hf. apply list_elem_of_In, in_map, list_elem_of_In, Hy.
    + exfalso. apply Ha. rewrite <- Hf. apply list_elem_of_In, in_map, list_elem_of_In, Hx.
    + apply IH; assumption.
Qed.

Lemma filter_none {A} (P : A -> bool) (l : list A) :
  (forall x, x ∈ l -> P x = false) -> List.filter P l = [].
Proof.
  induction l as [|a l IH]; intros H; cbn [List.filter]; [reflexivity|].
  rewrite (H a) by apply list_elem_of_here. apply IH. intros x Hx. apply H, list_elem_of_further, Hx.
Qed.

Lemma filter_only {A B} `{EqDecision B} (f : A -> B) (l : list A) (u : A) :
  NoDup (map f l) -> u ∈ l -> List.filter (fun v => bool_decide (f v = f u)) l = [u].
Proof.
  induction l as [|a l IH]; cbn [map List.filter]; intros Hnd Hu.
  - apply elem_of_nil in Hu. destruct Hu.
  - apply NoDup_cons in Hnd as [Ha Hnd].
    destruct (decide (f a = f u)) as [Heq|Hne].
    + rewrite bool_decide_eq_true_2 by exact Heq.
      assert (a = u) as ->.
      { apply elem_of_cons in Hu as [->|Hu]; [reflexivity|].
        exfalso. apply Ha. rewrite Heq. apply list_elem_of_In, in_map, list_elem_of_In, Hu. }
      f_equal. apply filter_none. intros v Hv. apply bool_decide_eq_false_2. intros Hf.
      apply Ha. rewrite <- Hf. apply list_elem_of_In, in_map, list_elem_of_In, Hv.
    + rewrite bool_decide_eq_false_2 by exact Hne.
      apply IH; [exact Hnd|]. apply elem_of_cons in Hu as [->|Hu]; [congruence|exact Hu].
Qed.

Lemma filter_filter_and {A} (P Q : A -> bool) (l : list A) :
  List.filter P (List.filter Q l) = List.filter (fun x => Q x && P x) l.
Proof.
  induction l as [|a l IH]; cbn [List.filter]; [reflexivity|].
  destruct (Q a); cbn [List.filter andb]; [destruct (P a)|]; rewrite IH; reflexivity.
Qed.

Lemma elem_of_filter_bool {A} (P : A -> bool) (l : list A) (x : A) :
  x ∈ List.filter P l <-> x ∈ l /\ P x = true.
Proof. rewrite !list_elem_of_In. apply filter_In. Qed.

Lemma elem_of_list_map {A B} (f : A -> B) (l : list A) (x : A) : x ∈ l -> f x ∈ map f l.
Proof. intros H. apply list_elem_of_In, in_map, list_elem_of_In, H. Qed.

Lemma elem_of_list_map_inv {A B} (f : A -> B) (l : list A) (y : B) :
  y ∈ map f l -> exists x, x ∈ l /\ f x = y.
Proof.
  intros H. apply list_elem_of_In, in_map_iff in H as (x & Hx & Hin).
  exists x. split; [apply list_elem_of_In, Hin|exact Hx].
Qed.

Lemma ready_in_spec epsl t :
  ready_in epsl t = true <->
  exists u, u ∈ tuples epsl /\ ready u = true /\ pair_of u = pair_of t.
Proof.
  unfold ready_in. rewrite bool_decide_eq_true. split.
  - intros H. apply elem_of_list_map_inv in H as (u & Hu & Hp).
    apply elem_of_filter_bool in Hu as [Hu Hr]. eauto.
  - intros (u & Hu & Hr & Hp). rewrite <- Hp. apply elem_of_list_map, elem_of_filter_bool. auto.
Qed.

Lemma listed_in_spec epsl t :
  listed_in epsl t = true <-> exists u, u ∈ tuples epsl /\ pair_of u = pair_of t.
Proof.
  unfold listed_in. rewrite bool_decide_eq_true. split.
  - intros H. apply elem_of_list_map_inv in H as (u & Hu & Hp). eauto.
  - intros (u & Hu & Hp). rewrite <- Hp. apply elem_of_list_map, Hu.
Qed.

Lemma ready_in_listed epsl t : ready_in epsl t = true -> listed_in epsl t = true.
Proof.
  rewrite ready_in_spec, listed_in_spec. intros (u & Hu & _ & Hp). eauto.
Qed.

(** In a slice that lists every pair once, a pair is ready exactly when
    the tuple listed for it is. *)
Lemma ready_in_own epsl t :
  NoDup (map pair_of (tuples epsl)) -> t ∈ tuples epsl -> ready_in epsl t = ready t.
Proof.
  intros Hnd Ht. destruct (ready t) eqn:Hr.
  - apply ready_in_spec. eauto.
  - destruct (ready_in epsl t) eqn:Hin; [|reflexivity].
    apply ready_in_spec in Hin as (u & Hu & Hru & Hp).
    rewrite (NoDup_map_eq pair_of _ u t Hnd Hu Ht Hp) in Hru. congruence.
Qed.

Lemma listing_elem epsl svcName u :
  epsl_Labels epsl !! LabelServiceName = Some svcName ->
  u ∈ listing epsl <->
  exists e p a, e ∈ epsl_Endpoints epsl /\ p ∈ epsl_Ports epsl /\ a ∈ se_Addresses e /\
                u = tupleOf svcName (epsl_Namespace epsl) e p a.
Proof.
  intros Hl. unfold listing, tuplesOf. rewrite Hl, list_elem_of_In, in_flat_map. split.
  - intros (e & He & Hu). apply in_flat_map in Hu as (p & Hp & Hu).
    apply in_map_iff in Hu as (a & <- & Ha).
    exists e, p, a. rewrite !list_elem_of_In. auto.
  - intros (e & p & a & He & Hp & Ha & ->). exists e. split; [apply list_elem_of_In, He|].
    apply in_flat_map. exists p. split; [apply list_elem_of_In, Hp|].
    apply in_map, list_elem_of_In, Ha.
Qed.

(** The membership test of the update handler answers as the listing of
    the slice does, on a slice that is well listed. *)
Lemma isPortInEndpointSlice_listed epsl t :
  well_listed epsl ->
  isPortInEndpointSlice epsl (eport t) (addr t) = (ready_in epsl t, listed_in epsl t).
Proof.
  intros ([svcName Hl] & Hok & Hnd).
  destruct (processEpSlice_ok _ _ Hok) as [Hlist Hvalid].
  assert (Hmem : forall e p, e ∈ epsl_Endpoints epsl -> p ∈ epsl_Ports epsl ->
                   addr_IP (addr t) ∈ se_Addresses e ->
                   tupleOf svcName (epsl_Namespace epsl) e p (addr_IP (addr t)) ∈ tuples epsl).
  { intros e p He Hp Ha. rewrite Hlist. apply (listing_elem _ svcName); [exact Hl|]. eauto 10. }
  unfold isPortInEndpointSlice. cbv zeta.
  match goal with |- match List.find ?h _ with _ => _ end = _ => set (holds := h) end.
  destruct (List.find holds (epsl_Endpoints epsl)) as [e|] eqn:Hfind.
  - apply find_some in Hfind as [He Hh]. apply list_elem_of_In in He.
    unfold holds in Hh. apply andb_prop in Hh as [Hp Ha].
    apply existsb_exists in Hp as (p & Hp & Hsame), Ha as (a & Ha & Heq).
    apply bool_decide_eq_true_1 in Heq. subst a.
    apply andb_prop in Hsame as [Hsame H3]. apply andb_prop in Hsame as [H1 H2].
    apply bool_decide_eq_true_1 in H1, H2, H3.
    apply list_elem_of_In in Hp, Ha.
    pose proof (Hmem e p He Hp Ha) as Hu.
    set (u := tupleOf svcName (epsl_Namespace epsl) e p (addr_IP (addr t))) in *.
    assert (Hpair : pair_of u = pair_of t).
    { unfold pair_of, u, tupleOf. cbn. rewrite H1, H2, H3. cbn. destruct (eport t); reflexivity. }
    assert (Hlisted : listed_in epsl t = true) by (apply listed_in_spec; eauto).
    rewrite Hlisted. f_equal.
    transitivity (ready u); [reflexivity|].
    rewrite <- (ready_in_own epsl u Hnd Hu).
    unfold ready_in. rewrite Hpair. reflexivity.
  - pose proof (find_none _ _ Hfind) as Hnone.
    assert (Hno : listed_in epsl t = false).
    { destruct (listed_in epsl t) eqn:Hin; [|reflexivity]. exfalso.
      apply listed_in_spec in Hin as (u & Hu & Hpair).
      destruct Hvalid as [Hnil|Hvalid]; [rewrite Hnil in Hu; apply elem_of_nil in Hu; exact Hu|].
      rewrite Hlist in Hu. apply (listing_elem _ svcName) in Hu; [|exact Hl].
      destruct Hu as (e & p & a & He & Hp & Ha & ->).
      rewrite Forall_forall in Hvalid.
      destruct (valid_port_inv p (Hvalid p Hp)) as (n & proto & prt & Hn & Hproto & Hprt & _).
      unfold pair_of, tupleOf in Hpair. cbn in Hpair. rewrite Hn, Hproto, Hprt in Hpair. cbn in Hpair.
      injection Hpair as Ha' Hport.
      specialize (Hnone e (proj1 (list_elem_of_In _ _) He)).
      assert (Hh : holds e = true); [|congruence].
      unfold holds. apply andb_true_intro. split; apply existsb_exists.
      + exists p. split; [apply list_elem_of_In, Hp|].
        rewrite Hn, Hproto, Hprt, <- Hport. cbn.
        rewrite !bool_decide_eq_true_2 by reflexivity. reflexivity.
      + exists a. split; [apply list_elem_of_In, Ha|].
        apply bool_decide_eq_true_2. exact Ha'. }
    rewrite Hno. f_equal.
    destruct (ready_in epsl t) eqn:Hr; [|reflexivity].
    apply ready_in_listed in Hr. congruence.
Qed.

Lemma removePort_same epsl t u :
  name t = name u -> addr t = addr u -> eport t = eport u -> removePort epsl t = removePort epsl u.
Proof. unfold removePort. intros -> -> ->. reflexivity. Qed.

Lemma forEach_ext_in {A} (l : list A) (f g : A -> M unit) :
  (forall x, x ∈ l -> forall p, f x p = g x p) -> forall p, forEach l f p = forEach l g p.
Proof.
  induction l as [|x l IH]; intros Hfg p; cbn [forEach]; [reflexivity|].
  rewrite !bind_unfold, (Hfg x) by apply list_elem_of_here.
  destruct (g x p) as [[] q|]; [|reflexivity].
  apply IH. intros y Hy. apply Hfg, list_elem_of_further, Hy.
Qed.

Lemma forEach_deletions (new : EndpointSlice) (P : epInfo -> bool) (l : list epInfo) :
  forall p,
    forEach (map Del (List.filter P l)) (perform_action new) p =
    forEach l (fun u => if P u then removePort new u else ret tt) p.
Proof.
  induction l as [|u l IH]; intros p; cbn [List.filter forEach]; [reflexivity|].
  destruct (P u); cbn [map forEach perform_action]; rewrite !bind_unfold.
  - destruct (removePort new u p) as [[] q|]; [apply IH|reflexivity].
  - cbn [ret]. apply IH.
Qed.

Section Update.

Variables old new : EndpointSlice.
Hypothesis old_listed : well_listed old.
Hypothesis new_listed : well_listed new.
Hypothesis same_backends : coherent old new.

(** No deletion is at a pair that is ready in the new slice. *)
Lemma deletions_not_ready t u :
  t ∈ tuples new -> ready t = true -> u ∈ deletions old new -> pair_of u <> pair_of t.
Proof.
  intros Ht Hr Hu Hp. apply elem_of_filter_bool in Hu as [_ Hu].
  apply andb_prop in Hu as [_ Hu]. apply negb_true_iff in Hu.
  assert (ready_in new u = true) by (apply ready_in_spec; eauto). congruence.
Qed.

(** The deletion at the pair of a tuple that the new slice lists as not
    ready: the tuple the old slice has there, if it is ready. *)
Lemma deletions_at t :
  t ∈ tuples new -> ready t = false ->
  List.filter (fun u => bool_decide (pair_of u = pair_of t)) (deletions old new) =
  if ready_in old t then List.filter (fun u => bool_decide (pair_of u = pair_of t)) (tuples old)
  else [].
Proof.
  intros Ht Hr. destruct new_listed as (_ & _ & Hnd).
  destruct (ready_in old t) eqn:Hin.
  - apply ready_in_spec in Hin as (u & Hu & Hru & Hp).
    destruct old_listed as (_ & _ & Hndo).
    unfold deletions. rewrite filter_filter_and.
    rewrite <- Hp. rewrite (filter_only pair_of (tuples old) u Hndo Hu).
    transitivity (List.filter (fun x => bool_decide (pair_of x = pair_of u)) (tuples old));
      [|apply (filter_only pair_of), Hu; exact Hndo].
    apply List.filter_ext_in. intros v Hv. apply list_elem_of_In in Hv.
    destruct (bool_decide (pair_of v = pair_of u)) eqn:Hvu; [|apply andb_false_r].
    apply bool_decide_eq_true_1 in Hvu.
    assert (v = u) as -> by (eapply (NoDup_map_eq pair_of); eassumption).
    rewrite Hru. cbn [andb]. rewrite andb_true_r. apply negb_true_iff.
    destruct (ready_in new u) eqn:Hnew; [|reflexivity].
    apply ready_in_spec in Hnew as (w & Hw & Hrw & Hpw).
    assert (w = t) as -> by (eapply (NoDup_map_eq pair_of); [exact Hnd|exact Hw|exact Ht|congruence]).
    congruence.
  - apply filter_none. intros u Hu. apply bool_decide_eq_false_2. intros Hp.
    apply elem_of_filter_bool in Hu as [Hu Hq]. apply andb_prop in Hq as [Hru _].
    assert (ready_in old t = true) by (apply ready_in_spec; eauto). congruence.
Qed.

(** The six cases of the handler on a tuple of the new slice. *)
Lemma updateNewPort_in_order t p :
  t ∈ tuples new ->
  updateNewPort old new t p =
  forEach (if ready t && negb (ready_in old t) then [Add t]
           else map Del (List.filter (fun u => bool_decide (pair_of u = pair_of t))
                                     (deletions old new)))
          (perform_action new) p.
Proof.
  intros Ht. unfold updateNewPort. rewrite (isPortInEndpointSlice_listed old t old_listed).
  pose proof (ready_in_listed old t) as Hrl.
  destruct (ready t) eqn:Hr.
  - destruct (ready_in old t) eqn:Hin.
    + rewrite Hrl by reflexivity. cbn [negb andb].
      rewrite filter_none; [reflexivity|].
      intros u Hu. apply bool_decide_eq_false_2. eapply deletions_not_ready; eassumption.
    + cbn [negb andb forEach perform_action]. rewrite bind_ret_r.
      destruct (listed_in old t); reflexivity.
  - cbn [andb]. rewrite (deletions_at t Ht Hr).
    destruct (ready_in old t) eqn:Hin.
    + rewrite Hrl by reflexivity. cbn [negb andb].
      apply ready_in_spec in Hin as (u & Hu & Hru & Hp).
      destruct old_listed as (_ & _ & Hndo).
      rewrite <- Hp, (filter_only pair_of (tuples old) u Hndo Hu).
      cbn [map forEach perform_action]. rewrite bind_ret_r.
      unfold coherent in same_backends. rewrite !Forall_forall in same_backends.
      specialize (same_backends t Ht). rewrite Forall_forall in same_backends.
      destruct (same_backends u Hu (eq_sym Hp)) as [Hn Ha].
      rewrite (removePort_same new t u Hn Ha); [reflexivity|].
      unfold pair_of in Hp. congruence.
    + cbn [map forEach]. destruct (listed_in old t); reflexivity.
Qed.

(** The test of the handler on a tuple of the previous slice. *)
Lemma updateOldPort_in_order u p :
  updateOldPort new u p =
  (if ready u && negb (listed_in new u) then removePort new u else ret tt) p.
Proof.
  unfold updateOldPort. rewrite (isPortInEndpointSlice_listed new u new_listed).
  destruct (listed_in new u), (ready u); reflexivity.
Qed.

Lemma deletions_not_listed :
  List.filter (fun u => negb (listed_in new u)) (deletions old new) =
  List.filter (fun u => ready u && negb (listed_in new u)) (tuples old).
Proof.
  unfold deletions. rewrite filter_filter_and. apply List.filter_ext. intros u.
  destruct (ready u); [cbn [andb]|reflexivity].
  destruct (listed_in new u) eqn:Hl; [apply andb_false_r|].
  destruct (ready_in new u) eqn:Hr; [|reflexivity].
  apply ready_in_listed in Hr. congruence.
Qed.

Lemma UpdateEndpointSlice_in_order epslOld p p0 :
  lastKnownEpSl epslOld new p = Ret old p0 ->
  UpdateEndpointSlice epslOld new p =
  (forEach (in_handler_order old new) (perform_action new) ;; storeEpSlInCache new) p0.
Proof.
  intros Hold. destruct new_listed as (_ & Hnew & _). destruct old_listed as (_ & Hok & _).
  unfold UpdateEndpointSlice. rewrite bind_unfold, Hold, Hnew, Hok.
  unfold in_handler_order.
  rewrite (bind_unfold (forEach (_ ++ _) _)), forEach_app.
  rewrite !bind_unfold, forEach_flat_map.
  rewrite (forEach_ext_in (tuples new) _ _ (fun t Ht q => updateNewPort_in_order t q Ht)).
  destruct (forEach (tuples new) _ p0) as [[] q|]; [|reflexivity].
  rewrite deletions_not_listed, forEach_deletions.
  rewrite bind_unfold, (forEach_ext (tuples old) _ _ updateOldPort_in_order).
  reflexivity.
Qed.

End Update.

Lemma filter_split {A} (P Q : A -> bool) (l : list A) :
  (forall x, x ∈ l -> P x = true -> Q x = true -> False) ->
  Permutation (List.filter (fun x => P x || Q x) l) (List.filter P l ++ List.filter Q l).
Proof.
  induction l as [|a l IH]; intros Hd; cbn [List.filter]; [reflexivity|].
  assert (IH' := IH (fun x Hx => Hd x (list_elem_of_further _ _ _ Hx))).
  destruct (P a) eqn:HP, (Q a) eqn:HQ; cbn [orb app].
  - destruct (Hd a (list_elem_of_here _ _) HP HQ).
  - apply perm_skip, IH'.
  - apply Permutation_cons_app, IH'.
  - exact IH'.
Qed.

Lemma filter_partition {A} (P : A -> bool) (l : list A) :
  Permutation (List.filter P l ++ List.filter (fun x => negb (P x)) l) l.
Proof.
  induction l as [|a l IH]; cbn [List.filter]; [reflexivity|].
  destruct (P a); cbn [negb app].
  - apply perm_skip, IH.
  - symmetry. apply Permutation_cons_app. symmetry. exact IH.
Qed.

Lemma bool_decide_elem_of_cons {A} `{EqDecision A} (x a : A) (l : list A) :
  bool_decide (x ∈ a :: l) = bool_decide (x = a) || bool_decide (x ∈ l).
Proof.
  destruct (decide (x = a)) as [->|Hne].
  - rewrite (bool_decide_eq_true_2 (a = a)) by reflexivity.
    rewrite (bool_decide_eq_true_2 (a ∈ a :: l)) by apply list_elem_of_here. reflexivity.
  - rewrite (bool_decide_eq_false_2 (x = a)) by exact Hne. cbn [orb].
    apply bool_decide_ext. rewrite elem_of_cons. tauto.
Qed.

(** Along a list of tuples with distinct pairs, the schedule takes every
    addition of the list, and every deletion at a pair of the list, once. *)
Lemma schedule_perm (isAdd : epInfo -> bool) (D l : list epInfo) :
  NoDup (map pair_of l) ->
  (forall t u, t ∈ l -> isAdd t = true -> u ∈ D -> pair_of u <> pair_of t) ->
  Permutation
    (flat_map (fun t => if isAdd t then [Add t]
                        else map Del (List.filter (fun u => bool_decide (pair_of u = pair_of t)) D))
              l)
    (map Add (List.filter isAdd l)
     ++ map Del (List.filter (fun u => bool_decide (pair_of u ∈ map pair_of l)) D)).
Proof.
  induction l as [|t l IH]; cbn [map flat_map List.filter]; intros Hnd Hadd.
  - rewrite filter_none; [reflexivity|].
    intros u _. apply bool_decide_eq_false_2, not_elem_of_nil.
  - apply NoDup_cons in Hnd as [Ht Hnd].
    assert (IH' := IH Hnd (fun t' u Ht' => Hadd t' u (list_elem_of_further _ _ _ Ht'))).
    destruct (isAdd t) eqn:Hit; cbn [map app].
    + apply perm_skip. rewrite IH'. apply Permutation_app_head.
      apply Permutation_map. erewrite List.filter_ext_in; [reflexivity|].
      intros u Hu. cbv beta. rewrite bool_decide_elem_of_cons.
      rewrite (bool_decide_eq_false_2 (pair_of u = pair_of t)); [reflexivity|].
      apply (Hadd t u); [apply list_elem_of_here|exact Hit|apply list_elem_of_In, Hu].
    + rewrite IH'.
      rewrite (List.filter_ext _ _ (fun u => bool_decide_elem_of_cons (pair_of u) (pair_of t)
                                                                    (map pair_of l)) D).
      rewrite (filter_split (fun u => bool_decide (pair_of u = pair_of t))
                            (fun u => bool_decide (pair_of u ∈ map pair_of l)) D).
      * rewrite map_app. apply Permutation_app_swap_app.
      * intros u _ H1 H2. apply bool_decide_eq_true_1 in H1, H2. apply Ht. rewrite <- H1. exact H2.
Qed.

Lemma in_handler_order_perm old new :
  NoDup (map pair_of (tuples new)) ->
  Permutation (in_handler_order old new)
              (map Add (additions old new) ++ map Del (deletions old new)).
Proof.
  intros Hnd. unfold in_handler_order.
  rewrite (schedule_perm (fun t => ready t && negb (ready_in old t)) (deletions old new)
                         (tuples new) Hnd).
  - fold (additions old new). rewrite <- app_assoc. apply Permutation_app_head.
    rewrite <- map_app. apply Permutation_map. apply (filter_partition (listed_in new)).
  - intros t u Ht Hit Hu Hp. apply andb_prop in Hit as [Hr _].
    apply elem_of_filter_bool in Hu as [_ Hu].
    apply andb_prop in Hu as [_ Hu]. apply negb_true_iff in Hu.
    assert (ready_in new u = true) by (apply ready_in_spec; eauto). congruence.
Qed.


(** The hypotheses of the theorem on sample slices. *)
Ltac well_listed_here :=
  split; [eexists; vm_compute; reflexivity|];
  split; [vm_compute; reflexivity|];
  apply (bool_decide_unpack _); vm_compute; exact I.

Ltac coherent_here :=
  unfold coherent; vm_compute;
  repeat first
    [ apply Forall_nil_2
    | apply Forall_cons_2
    | intros Hpair; first [discriminate Hpair | split; reflexivity] ].


